(** * dprisk: attacker win probabilities for the board game Risk

    A shallow embedding of [dprisk.cpp] and the properties of its
    enumeration of dice outcomes, its dynamic-programming solver and its
    battle simulator.

    Conventions of the embedding:
    - [int] is a 32-bit two's complement integer, a [Z] together with the
      wrap-around [Int32.wrap] written at every arithmetic operation;
    - [double] is idealised by the exact rationals [Q]; the tests [==],
      [!=] and [>=] of the source are [Qeq_bool] and [Qle_bool];
    - [std::vector] is a [list] with checked accesses: an access outside
      the vector is the result [Fault];
    - [std::map<std::vector<int>,int>] keyed by two-element vectors is a
      [gmap (Z * Z) Z]; [operator[]] on a missing key yields [0];
    - [while] and [for(;;)] loops take a bound on their iterations (fuel)
      and answer [OutOfFuel] when it is exhausted; counted [for] loops
      run over the list of their indices. *)

From Stdlib Require Import ZArith QArith Qpower Lia Lqa.
From stdpp Require Import base list gmap.

Open Scope Z_scope.

(** ** Machine integers *)

Module Int32.

Definition INT_MAX : Z := 2147483647.
Definition INT_MIN : Z := -2147483648.

(** The representative of [x] modulo [2^32] in [[INT_MIN, INT_MAX]]. *)
Definition wrap (x : Z) : Z := (x + 2147483648) mod 4294967296 - 2147483648.

Definition in_range (x : Z) : Prop := INT_MIN ≤ x ≤ INT_MAX.

Definition add (x y : Z) : Z := wrap (x + y).
Definition sub (x y : Z) : Z := wrap (x - y).
Definition mul (x y : Z) : Z := wrap (x * y).

End Int32.

Import Int32.

(** ** Results of fallible computations *)

Inductive result (A : Type) : Type :=
| Ok (a : A)
| Fault
| OutOfFuel.

Arguments Ok {A} a.
Arguments Fault {A}.
Arguments OutOfFuel {A}.

#[global] Instance result_ret : MRet result := λ A a, Ok a.
#[global] Instance result_bind : MBind result := λ A B f m,
  match m with
  | Ok a => f a
  | Fault => Fault
  | OutOfFuel => OutOfFuel
  end.

Definition is_ok {A} (r : result A) : Prop := ∃ a, r = Ok a.

(** [v[i]] on a [std::vector], with [i] converted from [int]. *)
Definition vec_at {X} (v : list X) (i : Z) : result X :=
  if i <? 0 then Fault
  else match v !! Z.to_nat i with
       | Some x => Ok x
       | None => Fault
       end.

(** [v[i] = x]. *)
Definition vec_set {X} (v : list X) (i : Z) (x : X) : result (list X) :=
  if (0 <=? i) && (i <? Z.of_nat (length v)) then Ok (<[Z.to_nat i := x]> v)
  else Fault.

(** [std::vector<T> v(n, x)] with [n] an [int]: a negative [n] becomes a
    size beyond [max_size()] and the constructor throws. *)
Definition vec_alloc {X} (n : Z) (x : X) : result (list X) :=
  if n <? 0 then Fault else Ok (replicate (Z.to_nat n) x).

(** ** Loops *)

Inductive flow : Type := Next | Break.

Fixpoint for_each {X S} (xs : list X) (body : X → S → result S) (s : S)
  : result S :=
  match xs with
  | [] => Ok s
  | x :: xs' => s' ← body x s; for_each xs' body s'
  end.

Fixpoint for_each_break {X S} (xs : list X)
    (body : X → S → result (flow * S)) (s : S) : result S :=
  match xs with
  | [] => Ok s
  | x :: xs' =>
      r ← body x s;
      match r.1 with
      | Break => Ok r.2
      | Next => for_each_break xs' body r.2
      end
  end.

(** [for (int i = lo; i <= hi; i++)]. *)
Definition for_range {S} (lo hi : Z) (body : Z → S → result S) : S → result S :=
  for_each (seqZ lo (hi + 1 - lo)) body.

Definition for_range_break {S} (lo hi : Z)
    (body : Z → S → result (flow * S)) : S → result S :=
  for_each_break (seqZ lo (hi + 1 - lo)) body.

(** [for (size_t i = 0; i < n; i++)]. *)
Definition for_size {S} (n : nat) (body : Z → S → result S) : S → result S :=
  for_each (seqZ 0 (Z.of_nat n)) body.

Definition for_size_break {S} (n : nat)
    (body : Z → S → result (flow * S)) : S → result S :=
  for_each_break (seqZ 0 (Z.of_nat n)) body.

(** ** Dice allocation (lines 59-67) *)

Definition attacker_dice (a : Z) : Z :=
  let q := if sub a 1 <? 3 then sub a 1 else 3 in
  if q <? 0 then 0 else q.

Definition defender_dice (d : Z) : Z :=
  let q := if d <? 2 then d else 2 in
  if q <? 0 then 0 else q.

(** [sort_three] (lines 69-92); the output array [abc] is the triple. *)
Definition sort_three (a b c : Z) : Z * Z * Z :=
  let '(a, b) := if a >? b then (b, a) else (a, b) in
  let '(b, c) := if b >? c then (c, b) else (b, c) in
  let '(a, b) := if a >? b then (b, a) else (a, b) in
  (a, b, c).

(** ** The battle simulator (lines 95-130) *)

(** [std::sort(first, last, std::greater<int>())]. *)
Fixpoint insert_desc (x : Z) (l : list Z) : list Z :=
  match l with
  | [] => [x]
  | y :: l' => if y <? x then x :: l else y :: insert_desc x l'
  end.

Definition sort_desc (l : list Z) : list Z := foldr insert_desc [] l.

(** The [n] values that successive calls [distrib(gen)] return, starting
    with call number [pos]. *)
Definition draw (rolls : nat → Z) (pos : nat) (n : Z) : list Z :=
  map rolls (seq pos (Z.to_nat n)).

(** One comparison of the loop of lines 121-126. *)
Definition compare_at (a_dice d_dice : list Z) (i : Z) (ad : Z * Z)
  : result (Z * Z) :=
  x ← vec_at a_dice i;
  y ← vec_at d_dice i;
  if x >? y then Ok (ad.1, sub ad.2 1) else Ok (sub ad.1 1, ad.2).

(** Lines 116-126: sort both sides and compare pairwise. *)
Definition resolve (a_dice d_dice : list Z) (na nd : Z) (ad : Z * Z)
  : result (Z * Z) :=
  let a_dice := sort_desc a_dice in
  let d_dice := sort_desc d_dice in
  let num_compares := if na >? nd then nd else na in
  for_range 0 (num_compares - 1) (compare_at a_dice d_dice) ad.

(** The body of the [while] loop. *)
Definition battle_round (rolls : nat → Z) (pos : nat) (ad : Z * Z)
  : result (Z * Z) :=
  let na := attacker_dice ad.1 in
  let a_dice := draw rolls pos na in
  let nd := defender_dice ad.2 in
  let d_dice := draw rolls (pos + Z.to_nat na) nd in
  resolve a_dice d_dice na nd ad.

(** The [while] loop; it answers the state [(a, d)] on exit. *)
Fixpoint battle_loop (fuel : nat) (rolls : nat → Z) (pos : nat) (ad : Z * Z)
  : result (Z * Z) :=
  if (ad.1 >? 1) && (ad.2 >? 0) then
    match fuel with
    | O => OutOfFuel
    | S fuel' =>
        ad' ← battle_round rolls pos ad;
        battle_loop fuel' rolls
          (pos + Z.to_nat (attacker_dice ad.1) + Z.to_nat (defender_dice ad.2))
          ad'
    end
  else Ok ad.

Definition simulate_battle (fuel : nat) (rolls : nat → Z) (a d : Z) : result Z :=
  ad ← battle_loop fuel rolls 0 (a, d);
  Ok (if ad.2 =? 0 then 1 else 0).

(** ** The outcome enumerator (lines 133-286) *)

(** The map [M] of lines 143-147 (and [dice_map] of lines 349-352): each
    tuple is sent to its position, a later position overriding an earlier
    one. *)
Definition index_map (order : list (Z * Z)) : gmap (Z * Z) Z :=
  foldl (λ M it, <[it.2 := Z.of_nat it.1]> M) ∅ (imap (λ i t, (i, t)) order).

(** [M[key]]. *)
Definition map_at (M : gmap (Z * Z) Z) (key : Z * Z) : Z := default 0 (M !! key).

(** The state of the enumeration: the vector [counts] and the counter [O]. *)
Definition tally : Type := list Z * Z.

(** [counts[M[key]] += 1]. *)
Definition credit (M : gmap (Z * Z) Z) (key : Z * Z) (counts : list Z)
  : result (list Z) :=
  let idx := map_at M key in
  c ← vec_at counts idx;
  vec_set counts idx (add c 1).

(** [if (c) counts[M[key]] += 1]. *)
Definition credit_if (c : bool) (M : gmap (Z * Z) Z) (key : Z * Z)
    (counts : list Z) : result (list Z) :=
  if c then credit M key counts else Ok counts.

(** The innermost statements of the branches (1,1), (2,1) and (3,1):
    [x] is [i], [ijmax] and [ijkmax] there (lines 165-169, 180-184 and
    198-202). *)
Definition tally_vs_one (M : gmap (Z * Z) Z) (x p : Z) (st : tally)
  : result tally :=
  counts ← credit_if (x >? p) M (0, -1) st.1;
  counts ← credit_if (x <=? p) M (-1, 0) counts;
  Ok (counts, add st.2 1).

(** The innermost statements of the branch (1,2) (lines 215-219). *)
Definition tally_one_vs_two (M : gmap (Z * Z) Z) (i pqmax : Z) (st : tally)
  : result tally :=
  counts ← credit_if (pqmax >=? i) M (-1, 0) st.1;
  counts ← credit_if (pqmax <? i) M (0, -1) counts;
  Ok (counts, add st.2 1).

(** The innermost statements of the branches (2,2) and (3,2): [hi] and
    [lo] are [ijmax], [ijmin] (lines 235-243) and [ijkmax], [ijkmid]
    (lines 268-276). *)
Definition tally_two (M : gmap (Z * Z) Z) (hi lo pqmax pqmin : Z) (st : tally)
  : result tally :=
  counts ← credit_if ((hi >? pqmax) && (lo >? pqmin)) M (0, -2) st.1;
  counts ← credit_if ((hi <=? pqmax) && (lo >? pqmin)) M (-1, -1) counts;
  counts ← credit_if ((hi >? pqmax) && (lo <=? pqmin)) M (-1, -1) counts;
  counts ← credit_if ((hi <=? pqmax) && (lo <=? pqmin)) M (-2, 0) counts;
  Ok (counts, add st.2 1).

Definition max2 (i j : Z) : Z := if i >? j then i else j.
Definition min2 (i j : Z) : Z := if i <? j then i else j.

Definition enum_1_1 (M : gmap (Z * Z) Z) (S : Z) : tally → result tally :=
  for_range 1 S (λ i,
    for_range 1 S (λ p, tally_vs_one M i p)).

Definition enum_2_1 (M : gmap (Z * Z) Z) (S : Z) : tally → result tally :=
  for_range 1 S (λ i,
    for_range 1 S (λ j,
      let ijmax := max2 i j in
      for_range 1 S (λ p, tally_vs_one M ijmax p))).

Definition enum_3_1 (M : gmap (Z * Z) Z) (S : Z) : tally → result tally :=
  for_range 1 S (λ i,
    for_range 1 S (λ j,
      let ijmax := max2 i j in
      for_range 1 S (λ k,
        let ijkmax := if k >? ijmax then k else ijmax in
        for_range 1 S (λ p, tally_vs_one M ijkmax p)))).

Definition enum_1_2 (M : gmap (Z * Z) Z) (S : Z) : tally → result tally :=
  for_range 1 S (λ i,
    for_range 1 S (λ p,
      for_range 1 S (λ q,
        let pqmax := max2 p q in
        tally_one_vs_two M i pqmax))).

Definition enum_2_2 (M : gmap (Z * Z) Z) (S : Z) : tally → result tally :=
  for_range 1 S (λ i,
    for_range 1 S (λ j,
      let ijmax := max2 i j in
      let ijmin := min2 i j in
      for_range 1 S (λ p,
        for_range 1 S (λ q,
          let pqmax := max2 p q in
          let pqmin := min2 p q in
          tally_two M ijmax ijmin pqmax pqmin)))).

(** The body of the loop over [k] in the branch (3,2) (lines 258-279),
    with its [break]. *)
Definition enum_3_2_k (M : gmap (Z * Z) Z) (S i j ijmax ijmin k : Z) (st : tally)
  : result (flow * tally) :=
  let ijkmax := if k >? ijmax then k else ijmax in
  let ijkmin := if k <? ijmin then k else ijmin in
  let ijk := sort_three i j k in
  if negb (ijk.1.1 =? ijkmin) || negb (ijk.2 =? ijkmax) then Ok (Break, st)
  else
    let ijkmid := ijk.1.2 in
    st' ← for_range 1 S (λ p,
            for_range 1 S (λ q,
              let pqmax := max2 p q in
              let pqmin := min2 p q in
              tally_two M ijkmax ijkmid pqmax pqmin)) st;
    Ok (Next, st').

Definition enum_3_2 (M : gmap (Z * Z) Z) (S : Z) : tally → result tally :=
  for_range 1 S (λ i,
    for_range 1 S (λ j,
      let ijmax := max2 i j in
      let ijmin := min2 i j in
      for_range_break 1 S (enum_3_2_k M S i j ijmax ijmin))).

(** [calc_transitions]: the returned [int] and the final [counts]. *)
Definition calc_transitions (order : list (Z * Z)) (counts : list Z)
    (na nd uniform_dice_sides : Z) : result (Z * list Z) :=
  let S := uniform_dice_sides in
  if S <? 2 then Ok (0, counts)
  else
    let M := index_map order in
    let counts := replicate (length order) 0 in
    let O := 0 in
    let finish (r : result tally) : result (Z * list Z) :=
      st ← r; Ok (st.2, st.1) in
    if (na =? 1) && (nd =? 1) then finish (enum_1_1 M S (counts, O))
    else if (na =? 2) && (nd =? 1) then finish (enum_2_1 M S (counts, O))
    else if (na =? 3) && (nd =? 1) then finish (enum_3_1 M S (counts, O))
    else if (na =? 1) && (nd =? 2) then finish (enum_1_2 M S (counts, O))
    else if (na =? 2) && (nd =? 2) then finish (enum_2_2 M S (counts, O))
    else if (na =? 3) && (nd =? 2) then finish (enum_3_2 M S (counts, O))
    else Ok (0, counts).

(** ** The transition table (lines 288-334) *)

Record tables : Type := Tables {
  dicetuples : list (Z * Z);
  transitions : list (Z * Z);
  probstable : list (list Q)
}.

Definition dice_configurations : list (Z * Z) :=
  [(1, 1); (2, 1); (3, 1); (1, 2); (2, 2); (3, 2)].

Definition outcome_deltas : list (Z * Z) :=
  [(-2, 0); (-1, -1); (-1, 0); (0, -1); (0, -2)].

(** Lines 321-327: the row of one configuration and the sum [check]. *)
Definition normalize (tcounts : list Z) (tdenom : Z) (q : Z) (st : Z * list Q)
  : result (Z * list Q) :=
  c ← vec_at tcounts q;
  Ok (add st.1 c, st.2 ++ [(inject_Z c / inject_Z tdenom)%Q]).

(** The loop over [t] of lines 311-332; [false] is an early [return
    false]. *)
Fixpoint build_rows (todo : list (Z * Z)) (order : list (Z * Z))
    (uniform_dice_sides : Z) (rows : list (list Q))
  : result (bool * list (list Q)) :=
  match todo with
  | [] => Ok (true, rows)
  | (na, nd) :: todo' =>
      r ← calc_transitions order [] na nd uniform_dice_sides;
      let tdenom := r.1 in
      let tcounts := r.2 in
      if tdenom =? 0 then Ok (false, rows)
      else
        cr ← for_size (length order) (normalize tcounts tdenom) (0, []);
        let rows := rows ++ [cr.2] in
        if negb (cr.1 =? tdenom) then Ok (false, rows)
        else build_rows todo' order uniform_dice_sides rows
  end.

Definition create_prob_table (uniform_dice_sides : Z) : result (bool * tables) :=
  r ← build_rows dice_configurations outcome_deltas uniform_dice_sides [];
  Ok (r.1, Tables dice_configurations outcome_deltas r.2).

(** ** The solver (lines 337-397) *)

Definition linear_index (a A d D : Z) : Z := add (mul (add 1 A) d) a.

(** One turn of the loop over the transitions (lines 372-386): [Break]
    with [-1] when a needed target is undetermined. *)
Definition add_target (A D : Z) (P : list Q) (unused_value : Q)
    (transitions : list (Z * Z)) (probstable : list (list Q))
    (q a d : Z) (i : Z) (this_val : Q) : result (flow * Q) :=
  delta ← vec_at transitions i;
  let delta_a := delta.1 in
  let delta_d := delta.2 in
  row ← vec_at probstable q;
  prob_qi ← vec_at row i;
  if Qeq_bool prob_qi 0 then Ok (Next, this_val)
  else
    let idx := linear_index (add a delta_a) A (add d delta_d) D in
    x ← vec_at P idx;
    if Qeq_bool x unused_value then Ok (Break, (-1)%Q)
    else Ok (Next, (this_val + prob_qi * x)%Q).

(** Lines 369-387: the value tried for the cell [(a, d)]. *)
Definition try_value (A D : Z) (P : list Q) (unused_value : Q)
    (transitions : list (Z * Z)) (probstable : list (list Q))
    (q a d : Z) : result Q :=
  for_size_break (length transitions)
    (add_target A D P unused_value transitions probstable q a d) 0%Q.

(** The body of the two loops (lines 360-392) at the cell [(a, d)]; the
    state is the grid and [num_updated]. *)
Definition visit (A D : Z) (unused_value : Q) (dice_map : gmap (Z * Z) Z)
    (transitions : list (Z * Z)) (probstable : list (list Q))
    (a d : Z) (st : list Q * Z) : result (list Q * Z) :=
  cur ← vec_at st.1 (linear_index a A d D);
  if negb (Qeq_bool cur unused_value) then Ok st
  else
    let na := attacker_dice a in
    let nd := defender_dice d in
    let q := map_at dice_map (na, nd) in
    this_val ← try_value A D st.1 unused_value transitions probstable q a d;
    if Qle_bool 0 this_val then
      P' ← vec_set st.1 (linear_index a A d D) this_val;
      Ok (P', add st.2 1)
    else Ok st.

(** [update_elements]: the grid after the pass and [num_updated]. *)
Definition update_elements (A D : Z) (P : list Q) (unused_value : Q)
    (dicetuples transitions : list (Z * Z)) (probstable : list (list Q))
  : result (list Q * Z) :=
  let dice_map := index_map dicetuples in
  for_range 1 A (λ a,
    for_range 1 D (λ d,
      visit A D unused_value dice_map transitions probstable a d)) (P, 0).

(** ** The program (lines 399-505) *)

Definition uniform_dice_sides : Z := 6.
Definition unused_value : Q := (-1)%Q.

(** What the program writes, and with it the value it returns. *)
Inductive output : Type :=
| Usage
| Requiring
| Fraction (f : Q)
| TableFailed
| DPFailed (passes : Z)
| Grid (rows : list (list Q)).

Definition exit_status (o : output) : Z :=
  match o with
  | Fraction _ | Grid _ => 0
  | Usage | Requiring | TableFailed | DPFailed _ => 1
  end.

(** The output is one of the diagnostics, neither a grid nor a fraction. *)
Definition diagnostic (o : output) : bool :=
  match o with
  | Fraction _ | Grid _ => false
  | Usage | Requiring | TableFailed | DPFailed _ => true
  end.

(** Lines 437-446: the vector, every entry set to the sentinel. *)
Definition sentinel_grid (A D : Z) : result (list Q) :=
  let sz := mul (add 1 A) (add 1 D) in
  P ← vec_alloc sz 0%Q;
  for_range 0 A (λ i,
    for_range 0 D (λ j P,
      let k := linear_index i A j D in
      vec_set P k unused_value)) P.

(** Lines 450-457: the boundary conditions. *)
Definition set_boundary (A D : Z) (P : list Q) : result (list Q) :=
  P ← for_range 0 D (λ j P,
         P ← vec_set P (linear_index 0 A j D) 0%Q;
         vec_set P (linear_index 1 A j D) 0%Q) P;
  for_range 2 A (λ i P, vec_set P (linear_index i A 0 D) 1%Q) P.

(** Lines 470-486: the passes; the grid, [elems_total] and [passes]. *)
Fixpoint relax (fuel : nat) (A D : Z) (P : list Q) (T : tables)
    (elems_total passes : Z) : result (list Q * Z * Z) :=
  match fuel with
  | O => OutOfFuel
  | S fuel' =>
      r ← update_elements A D P unused_value
            (dicetuples T) (transitions T) (probstable T);
      let elems := r.2 in
      let passes := add passes 1 in
      if elems =? 0 then Ok (r.1, elems_total, passes)
      else relax fuel' A D r.1 T (add elems_total elems) passes
  end.

Fixpoint collect {X Y} (xs : list X) (f : X → result Y) : result (list Y) :=
  match xs with
  | [] => Ok []
  | x :: xs' => y ← f x; ys ← collect xs' f; Ok (y :: ys)
  end.

(** Lines 497-502: the rows [a = 0..A] of the columns [d = 0..D]. *)
Definition print_grid (A D : Z) (P : list Q) : result (list (list Q)) :=
  collect (seqZ 0 (A + 1)) (λ a,
    collect (seqZ 0 (D + 1)) (λ d, vec_at P (linear_index a A d D))).

(** Lines 436-504. *)
Definition dp_mode (fuel : nat) (A D : Z) : result output :=
  P ← sentinel_grid A D;
  P ← set_boundary A D P;
  t ← create_prob_table uniform_dice_sides;
  if negb t.1 then Ok TableFailed
  else
    r ← relax fuel A D P t.2 0 0;
    let '(P, elems_total, passes) := r in
    if negb (elems_total =? mul (sub A 1) D) then Ok (DPFailed passes)
    else
      rows ← print_grid A D P;
      Ok (Grid rows).

(** Lines 426-434; battle number [i] draws its dice from [rolls i]. *)
Definition simulation_mode (fuel : nat) (rolls : Z → nat → Z) (A D N : Z)
  : result output :=
  num_atk_wins ← for_range 0 (N - 1) (λ i num_atk_wins,
                    atk_win ← simulate_battle fuel (rolls i) A D;
                    Ok (add num_atk_wins atk_win)) 0;
  Ok (Fraction (inject_Z num_atk_wins / inject_Z N)%Q).

(** [main]: [argc] and the values [strtol] returns for [argv[1]],
    [argv[2]] and [argv[3]]; [static_cast<int>] is [wrap]. *)
Definition main (fuel : nat) (rolls : Z → nat → Z) (argc : Z)
    (arg1 arg2 arg3 : Z) : result output :=
  if negb (argc =? 3) && negb (argc =? 4) then Ok Usage
  else
    let A := wrap arg1 in
    let D := wrap arg2 in
    let N := if argc >? 3 then wrap arg3 else 0 in
    if (A <? 2) || (D <? 1) then Ok Requiring
    else if N >=? 1 then simulation_mode fuel rolls A D N
    else dp_mode fuel A D.

(** ** The generic rule of one round, as a step of an enumeration *)

(** The outcome delta that the comparison loop of [simulate_battle]
    (lines 116-126) produces for the dice [a_dice] and [d_dice]: the change
    of [(a, d)] that [resolve] makes, read off at [(0, 0)]. *)
Definition round_delta (a_dice d_dice : list Z) : result (Z * Z) :=
  resolve a_dice d_dice (Z.of_nat (length a_dice)) (Z.of_nat (length d_dice))
    (0, 0).

(** Count the dice tuple [(a_dice, d_dice)] under the delta of the
    generic rule. *)
Definition credit_round (M : gmap (Z * Z) Z) (a_dice d_dice : list Z)
    (st : tally) : result tally :=
  delta ← round_delta a_dice d_dice;
  counts ← credit M delta st.1;
  Ok (counts, add st.2 1).

(** ** Sums *)

Definition Zsum (l : list Z) : Z := foldr Z.add 0 l.

Definition Qsum (l : list Q) : Q := foldr Qplus 0%Q l.

(** The row of probabilities that [create_prob_table] derives from the
    counts of one configuration: each count divided by the denominator. *)
Definition probabilities (tcounts : list Z) (tdenom : Z) : list Q :=
  map (λ c, (inject_Z c / inject_Z tdenom)%Q) tcounts.

(** [row] is the row of the configuration [cfg] for dice of [S] faces. *)
Definition row_of (S : Z) (cfg : Z * Z) (row : list Q) : Prop :=
  ∃ tcounts,
    calc_transitions outcome_deltas [] cfg.1 cfg.2 S
      = Ok (S ^ (cfg.1 + cfg.2), tcounts)
    ∧ length tcounts = 5%nat ∧ Forall (Z.le 0) tcounts
    ∧ Zsum tcounts = S ^ (cfg.1 + cfg.2)
    ∧ row = probabilities tcounts (S ^ (cfg.1 + cfg.2)).

(** ** The grid as a function of the state [(a, d)] *)

(** The position of the state [(a, d)] in the vector. *)
Definition slot (A a d : Z) : nat := Z.to_nat ((1 + A) * d + a).

Definition cell (A : Z) (P : list Q) (a d : Z) : option Q := P !! slot A a d.

Definition value (A : Z) (P : list Q) (a d : Z) : Q := default 0%Q (cell A P a d).

(** The number of entries of the grid. *)
Definition grid_size (A D : Z) : Z := (1 + A) * (1 + D).

(** [(a, d)] is a state of the grid. *)
Definition on_grid (A D a d : Z) : Prop := 0 ≤ a ≤ A ∧ 0 ≤ d ≤ D.

(** The entry of row [a] and column [d] of the printed grid. *)
Definition entry (rows : list (list Q)) (a d : Z) : Q :=
  default 0%Q (rows !! Z.to_nat a ≫= λ row, row !! Z.to_nat d).

(** The boundary conditions. *)
Definition boundary_set (A D : Z) (P : list Q) : Prop :=
  (∀ d, 0 ≤ d ≤ D → cell A P 0 d = Some 0%Q ∧ cell A P 1 d = Some 0%Q)
  ∧ (∀ a, 2 ≤ a ≤ A → cell A P a 0 = Some 1%Q).

(** The states that the passes have to determine. *)
Definition interior (A D a d : Z) : Prop := 2 ≤ a ≤ A ∧ 1 ≤ d ≤ D.

(** ** The recurrence *)

(** The outcomes of nonzero probability of a row of the table, each with
    its delta. *)
Definition needed (row : list Q) (deltas : list (Z * Z)) : list (Q * (Z * Z)) :=
  List.filter (λ pd, negb (Qeq_bool pd.1 0)) (zip row deltas).

(** The sum, over the outcomes of nonzero probability, of the
    probability times the value of [g] at the target state. *)
Definition expected (g : Z → Z → Q) (row : list Q) (deltas : list (Z * Z))
    (a d : Z) : Q :=
  Qsum (map (λ pd : Q * (Z * Z), Qmult pd.1 (g (a + pd.2.1) (d + pd.2.2)))
         (needed row deltas)).

(** The position [q] in the table of the configuration of [(a, d)]
    (lines 363-365). *)
Definition config_index (dicetuples : list (Z * Z)) (a d : Z) : Z :=
  map_at (index_map dicetuples) (attacker_dice a, defender_dice d).

(** The table for six-sided dice. *)
Definition risk_tables :=
  Eval vm_compute in
    match create_prob_table uniform_dice_sides with
    | Ok r => r.2
    | _ => Tables [] [] []
    end.

(** The loop of [try_value] (lines 371-387) as a recursion over the
    probabilities of a row paired with their deltas. *)
Fixpoint scan (A D : Z) (P : list Q) (unused_value : Q) (a d : Z)
    (l : list (Q * (Z * Z))) (this_val : Q) : result Q :=
  match l with
  | [] => Ok this_val
  | pd :: l' =>
      if Qeq_bool pd.1 0 then scan A D P unused_value a d l' this_val
      else
        x ← vec_at P (linear_index (add a pd.2.1) A (add d pd.2.2) D);
        if Qeq_bool x unused_value then Ok (-1)%Q
        else scan A D P unused_value a d l' (this_val + pd.1 * x)%Q
  end.

(** Every target of nonzero probability of [(a, d)] is a state of the
    grid. *)
Definition safe (A D a d : Z) (l : list (Q * (Z * Z))) : Prop :=
  ∀ pd, pd ∈ l → Qeq_bool pd.1 0 = false →
        on_grid A D (a + pd.2.1) (d + pd.2.2).

(** The entry of the state [(a, d)] is determined: it is not the
    sentinel. *)
Definition determined (A : Z) (P : list Q) (a d : Z) : Prop :=
  ∃ x, cell A P a d = Some x ∧ Qeq_bool x unused_value = false.

Definition undetermined (A : Z) (P : list Q) (a d : Z) : Prop :=
  ∃ x, cell A P a d = Some x ∧ Qeq_bool x unused_value = true.

(** A cell of a pass of the program: [visit] with the table for
    six-sided dice. *)
Definition visit6 (A D a d : Z) (st : list Q * Z) : result (list Q * Z) :=
  visit A D unused_value (index_map (dicetuples risk_tables))
    (transitions risk_tables) (probstable risk_tables) a d st.

(** The row of the table for the state [(a, d)]. *)
Definition row6 (a d : Z) : list Q :=
  default [] (probstable risk_tables
                !! Z.to_nat (config_index (dicetuples risk_tables) a d)).

(** The order in which a pass visits the states: ascending [a], then
    ascending [d]. *)
Definition before (a' d' a d : Z) : Prop := a' < a ∨ (a' = a ∧ d' < d).

(** The entry of [(a, d)] holds a non-negative value that satisfies the
    recurrence. *)
Definition solved (A : Z) (P : list Q) (a d : Z) : Prop :=
  ∃ v, cell A P a d = Some v ∧ (0 <= v)%Q
       ∧ (v == expected (value A P) (row6 a d) outcome_deltas a d)%Q.

(** The grid is complete. *)
Definition solution (A D : Z) (P : list Q) : Prop :=
  Z.of_nat (length P) = grid_size A D
  ∧ boundary_set A D P
  ∧ ∀ a d, interior A D a d → solved A P a d.

(** The number of interior states visited before [(a, d)]. *)
Definition done_count (D a d : Z) : Z :=
  if a <? 2 then 0 else (a - 2) * D + (d - 1).

(** The rows that [print_grid] writes for a grid. *)
Definition rows_of (A D : Z) (P : list Q) : list (list Q) :=
  map (λ a, map (λ d, value A P a d) (seqZ 0 (D + 1))) (seqZ 0 (A + 1)).

(** ** A run of the program *)

(** The grid that the program prints for [A = 3] and [D = 2]. *)
Definition grid_3_2 :=
  Eval vm_compute in
    match main 2 (λ _ _, 1) 3 3 2 0 with
    | Ok (Grid rows) => rows
    | _ => []
    end.

(** The state of the enumeration after [n] tuples. *)
Definition counted (n : Z) (st : tally) : Prop :=
  st.2 = n ∧ length st.1 = 5%nat ∧ Forall (Z.le 0) st.1 ∧ Zsum st.1 = n.

(** The map [M] of [calc_transitions] for the order of the program. *)
Definition M5 : gmap (Z * Z) Z := index_map outcome_deltas.

(** The state of the first pass on arriving at the cell [(a, d)]: the
    interior states visited before are solved, the others undetermined,
    and [num_updated] counts the former. *)
Definition arriving (A D a d : Z) (st : list Q * Z) : Prop :=
  Z.of_nat (length st.1) = grid_size A D
  ∧ boundary_set A D st.1
  ∧ (∀ a' d', interior A D a' d' → before a' d' a d → solved A st.1 a' d')
  ∧ (∀ a' d', interior A D a' d' → ¬ before a' d' a d →
              cell A st.1 a' d' = Some unused_value)
  ∧ st.2 = done_count D a d.

(** The value of [g] at [(a, d)] lies in [[0, 1]], is not below the
    value at [(a - 1, d)] and not above the value at [(a, d - 1)]. *)
Definition monotone_at (g : Z → Z → Q) (a d : Z) : Prop :=
  (0 <= g a d)%Q ∧ (g a d <= 1)%Q
  ∧ (∀ a1, a1 = a - 1 → 0 ≤ a1 → (g a1 d <= g a d)%Q)
  ∧ (∀ d1, d1 = d - 1 → 0 ≤ d1 → (g a d <= g a d1)%Q).

(** ** Shapes of the counts *)

(** The slots of the outcomes that one comparison cannot produce hold
    zero: those of [(-2, 0)], [(-1, -1)] and [(0, -2)]. *)
Definition one_comparison_zeros (counts : list Z) : Prop :=
  counts !! 0%nat = Some 0 ∧ counts !! 1%nat = Some 0
  ∧ counts !! 4%nat = Some 0.

(** The slots of the outcomes that two comparisons cannot produce hold
    zero: those of [(-1, 0)] and [(0, -1)]. *)
Definition two_comparison_zeros (counts : list Z) : Prop :=
  counts !! 2%nat = Some 0 ∧ counts !! 3%nat = Some 0.

(** ** Reference values *)

(** The win probabilities for up to three attackers and two defenders,
    worked out by hand from the rules: [5/12] for two against one,
    [5/12 * 55/216] for two against two,
    [125/216 + 91/216 * 5/12] for three against one and
    [295/1296 + 420/1296 * 5/12] for three against two. *)
Definition reference_3_2 (a d : Z) : Q :=
  if a <? 2 then 0%Q
  else if d =? 0 then 1%Q
  else if (a =? 2) && (d =? 1) then (5 # 12)%Q
  else if (a =? 2) && (d =? 2) then (275 # 2592)%Q
  else if (a =? 3) && (d =? 1) then (1955 # 2592)%Q
  else (235 # 648)%Q.

(** * Properties *)

(** ** Machine integers *)

Lemma wrap_id (x : Z) : in_range x → wrap x = x.
Proof.
  unfold in_range, INT_MIN, INT_MAX, wrap. intros H.
  rewrite Z.mod_small by lia. lia.
Qed.

Lemma wrap_in_range (x : Z) : in_range (wrap x).
Proof.
  unfold in_range, INT_MIN, INT_MAX, wrap.
  pose proof (Z.mod_pos_bound (x + 2147483648) 4294967296). lia.
Qed.

Lemma wrap_eqm (x : Z) : ∃ k, wrap x = x + 4294967296 * k.
Proof.
  unfold wrap. exists (- ((x + 2147483648) / 4294967296)).
  pose proof (Z.div_mod (x + 2147483648) 4294967296). lia.
Qed.

Lemma wrap_eqm_inv (x y k : Z) : x = y + 4294967296 * k → wrap x = wrap y.
Proof.
  intros ->. unfold wrap. f_equal.
  replace (y + 4294967296 * k + 2147483648)
    with (y + 2147483648 + k * 4294967296) by lia.
  apply Z.mod_add. lia.
Qed.

Lemma add_small (x y : Z) : in_range (x + y) → add x y = x + y.
Proof. apply wrap_id. Qed.

Lemma sub_small (x y : Z) : in_range (x - y) → sub x y = x - y.
Proof. apply wrap_id. Qed.

Lemma mul_small (x y : Z) : in_range (x * y) → mul x y = x * y.
Proof. apply wrap_id. Qed.

(** ** Checked accesses *)

Lemma vec_at_ok {X} (v : list X) (i : Z) (x : X) :
  vec_at v i = Ok x ↔ 0 ≤ i ∧ v !! Z.to_nat i = Some x.
Proof.
  unfold vec_at. destruct (Z.ltb_spec i 0).
  - split; [done | lia].
  - destruct (v !! Z.to_nat i) eqn:E; split.
    + intros [= ->]. split; [lia | done].
    + intros [_ [= ->]]. done.
    + done.
    + intros [_ ?]. done.
Qed.

Lemma vec_at_lookup {X} (v : list X) (i : Z) (x : X) :
  0 ≤ i → v !! Z.to_nat i = Some x → vec_at v i = Ok x.
Proof. intros. by apply vec_at_ok. Qed.

Lemma vec_at_in {X} (v : list X) (i : Z) :
  0 ≤ i < Z.of_nat (length v) → ∃ x, vec_at v i = Ok x ∧ v !! Z.to_nat i = Some x.
Proof.
  intros H. destruct (lookup_lt_is_Some_2 v (Z.to_nat i)) as [x Hx]; [lia |].
  exists x. split; [apply vec_at_lookup; [lia | done] | done].
Qed.

Lemma vec_set_ok {X} (v : list X) (i : Z) (x : X) :
  0 ≤ i < Z.of_nat (length v) → vec_set v i x = Ok (<[Z.to_nat i := x]> v).
Proof.
  intros H. unfold vec_set.
  destruct (Z.leb_spec 0 i); [| lia]. destruct (Z.ltb_spec i (Z.of_nat (length v))); [done | lia].
Qed.

Lemma vec_set_inv {X} (v v' : list X) (i : Z) (x : X) :
  vec_set v i x = Ok v' →
  0 ≤ i < Z.of_nat (length v) ∧ v' = <[Z.to_nat i := x]> v.
Proof.
  unfold vec_set.
  destruct (Z.leb_spec 0 i), (Z.ltb_spec i (Z.of_nat (length v))); simpl; try done.
  intros [= <-]. split; [lia | done].
Qed.

(** ** Loops *)

Lemma bind_ok {A B} (m : result A) (f : A → result B) (b : B) :
  (m ≫= f) = Ok b ↔ ∃ a, m = Ok a ∧ f a = Ok b.
Proof.
  destruct m; simpl; split.
  - intros E. by exists a.
  - by intros (a' & [= <-] & E).
  - done.
  - by intros (a' & ? & _).
  - done.
  - by intros (a' & ? & _).
Qed.

Lemma for_range_nil {S} (lo hi : Z) (body : Z → S → result S) (s : S) :
  hi < lo → for_range lo hi body s = Ok s.
Proof.
  intros H. unfold for_range. rewrite seqZ_nil by lia. done.
Qed.

Lemma for_range_cons {S} (lo hi : Z) (body : Z → S → result S) (s : S) :
  lo ≤ hi → for_range lo hi body s = body lo s ≫= for_range (lo + 1) hi body.
Proof.
  intros H. unfold for_range. rewrite seqZ_cons by lia. simpl.
  replace (Z.succ lo) with (lo + 1) by lia.
  replace (Z.pred (hi + 1 - lo)) with (hi + 1 - (lo + 1)) by lia. done.
Qed.

(** A counted loop establishes [I (hi + 1)] from [I lo] when each turn
    succeeds and carries [I i] to [I (i + 1)]. *)
Lemma for_range_inv {S} (I : Z → S → Prop) (lo hi : Z)
    (body : Z → S → result S) (s : S) :
  lo ≤ hi + 1 → I lo s →
  (∀ i s, lo ≤ i ≤ hi → I i s → ∃ s', body i s = Ok s' ∧ I (i + 1) s') →
  ∃ s', for_range lo hi body s = Ok s' ∧ I (hi + 1) s'.
Proof.
  intros Hle. remember (Z.to_nat (hi + 1 - lo)) as n eqn:En.
  revert lo s Hle En. induction n as [| n IH]; intros lo s Hle En H0 Hstep.
  - assert (lo = hi + 1) as -> by lia.
    exists s. split; [apply for_range_nil; lia | done].
  - destruct (Hstep lo s) as (s1 & E1 & H1); [lia | done |].
    destruct (IH (lo + 1) s1) as (s2 & E2 & H2); [lia | lia | done | |].
    + intros i s' Hi. apply Hstep. lia.
    + exists s2. split; [| done]. rewrite for_range_cons by lia.
      rewrite E1. done.
Qed.

(** If a counted loop succeeds, every turn succeeded and preserved the
    invariant. *)
Lemma for_range_inv_ok {S} (I : Z → S → Prop) (lo hi : Z)
    (body : Z → S → result S) (s s' : S) :
  lo ≤ hi + 1 → I lo s →
  (∀ i s s', lo ≤ i ≤ hi → I i s → body i s = Ok s' → I (i + 1) s') →
  for_range lo hi body s = Ok s' → I (hi + 1) s'.
Proof.
  intros Hle. remember (Z.to_nat (hi + 1 - lo)) as n eqn:En.
  revert lo s Hle En. induction n as [| n IH]; intros lo s Hle En H0 Hstep.
  - assert (lo = hi + 1) as -> by lia.
    rewrite for_range_nil by lia. by intros [= <-].
  - rewrite for_range_cons by lia. intros (s1 & E1 & E2)%bind_ok.
    apply (IH (lo + 1) s1); [lia | lia | | | done].
    + apply (Hstep lo s); [lia | done | done].
    + intros i t t' Hi. apply Hstep. lia.
Qed.

Lemma for_each_preserves {X S} (I : S → Prop) (xs : list X)
    (body : X → S → result S) (s s' : S) :
  I s → (∀ x s s', x ∈ xs → I s → body x s = Ok s' → I s') →
  for_each xs body s = Ok s' → I s'.
Proof.
  revert s. induction xs as [| x xs IH]; intros s H0 Hstep; simpl.
  - by intros [= <-].
  - intros (s1 & E1 & E2)%bind_ok.
    apply (IH s1); [| | done].
    + apply (Hstep x s); [left | done | done].
    + intros y t t' Hy. apply Hstep. by right.
Qed.

Lemma for_each_break_preserves {X S} (I : S → Prop) (xs : list X)
    (body : X → S → result (flow * S)) (s s' : S) :
  I s → (∀ x s r, x ∈ xs → I s → body x s = Ok r → I r.2) →
  for_each_break xs body s = Ok s' → I s'.
Proof.
  revert s. induction xs as [| x xs IH]; intros s H0 Hstep; simpl.
  - by intros [= <-].
  - intros ([f s1] & E1 & E2)%bind_ok. simpl in E2.
    assert (I s1) as H1 by (apply (Hstep x s (f, s1)); [left | done | done]).
    destruct f.
    + apply (IH s1); [done | | done].
      intros y t t' Hy. apply Hstep. by right.
    + by injection E2 as <-.
Qed.

(** A counted loop whose every turn advances a counter by [c]. *)
Lemma for_range_count {S} (I : Z → S → Prop) (c bound lo hi n : Z)
    (body : Z → S → result S) (s : S) :
  lo ≤ hi + 1 → 0 ≤ c → I n s → n + (hi + 1 - lo) * c ≤ bound →
  (∀ i m s, lo ≤ i ≤ hi → I m s → m + c ≤ bound →
     ∃ s', body i s = Ok s' ∧ I (m + c) s') →
  ∃ s', for_range lo hi body s = Ok s' ∧ I (n + (hi + 1 - lo) * c) s'.
Proof.
  intros Hle Hc H0 Hb Hstep.
  destruct (for_range_inv (λ i s, I (n + (i - lo) * c) s) lo hi body s)
    as (s' & E & H); [done | | | ].
  - by replace (n + (lo - lo) * c) with n by lia.
  - intros i t Hi Ht.
    destruct (Hstep i (n + (i - lo) * c) t) as (t' & E & H); [done | done | nia |].
    exists t'. split; [done |].
    by replace (n + (i + 1 - lo) * c) with (n + (i - lo) * c + c) by lia.
  - exists s'. split; [done |]. done.
Qed.

(** ** Dice allocation *)

Lemma attacker_dice_spec (a : Z) :
  INT_MIN < a ≤ INT_MAX → attacker_dice a = Z.max (Z.min (a - 1) 3) 0.
Proof.
  intros H. unfold attacker_dice.
  rewrite sub_small by (unfold in_range, INT_MIN, INT_MAX in *; lia).
  repeat case_match; lia.
Qed.

Lemma defender_dice_spec (d : Z) : defender_dice d = Z.max (Z.min d 2) 0.
Proof. unfold defender_dice. repeat case_match; lia. Qed.

(** ** The battle simulator *)

Lemma insert_desc_length (x : Z) (l : list Z) :
  length (insert_desc x l) = S (length l).
Proof.
  induction l as [| y l IH]; simpl; [done |].
  destruct (y <? x); simpl; [done | by rewrite IH].
Qed.

Lemma sort_desc_length (l : list Z) : length (sort_desc l) = length l.
Proof.
  induction l as [| x l IH]; simpl; [done |].
  by rewrite insert_desc_length, IH.
Qed.

Lemma draw_length (rolls : nat → Z) (pos : nat) (n : Z) :
  length (draw rolls pos n) = Z.to_nat n.
Proof. unfold draw. by rewrite length_map, length_seq. Qed.

(** A comparison takes one unit from exactly one side. *)
Lemma compare_at_step (a_dice d_dice : list Z) (i a d : Z) (ad' : Z * Z) :
  INT_MIN < a ≤ INT_MAX → INT_MIN < d ≤ INT_MAX →
  compare_at a_dice d_dice i (a, d) = Ok ad' →
  ad' = (a, d - 1) ∨ ad' = (a - 1, d).
Proof.
  intros Ha Hd. unfold compare_at.
  intros (x & _ & (y & _ & E)%bind_ok)%bind_ok. simpl in E.
  rewrite !sub_small in E by (unfold in_range, INT_MIN, INT_MAX in *; lia).
  destruct (x >? y); injection E as <-; [by left | by right].
Qed.

Lemma compare_at_ok (a_dice d_dice : list Z) (i : Z) (ad : Z * Z) :
  0 ≤ i < Z.of_nat (length a_dice) → 0 ≤ i < Z.of_nat (length d_dice) →
  ∃ ad', compare_at a_dice d_dice i ad = Ok ad'.
Proof.
  intros Ha Hd. unfold compare_at.
  destruct (vec_at_in a_dice i Ha) as (x & -> & _).
  destruct (vec_at_in d_dice i Hd) as (y & -> & _). simpl.
  destruct (x >? y); eauto.
Qed.

(** The comparisons of one round: there are [min na nd] of them and
    together they take that many units. *)
Lemma resolve_spec (a_dice d_dice : list Z) (na nd a d : Z) :
  let n := Z.min na nd in
  0 ≤ n → n ≤ Z.of_nat (length a_dice) → n ≤ Z.of_nat (length d_dice) →
  INT_MIN + n ≤ a ≤ INT_MAX → INT_MIN + n ≤ d ≤ INT_MAX →
  ∃ a' d', resolve a_dice d_dice na nd (a, d) = Ok (a', d')
           ∧ a' ≤ a ∧ d' ≤ d ∧ (a - a') + (d - d') = n.
Proof.
  intros n Hn Hla Hld Ha Hd. unfold resolve.
  replace (if na >? nd then nd else na) with n
    by (unfold n; destruct (Z.gtb_spec na nd); lia).
  destruct (for_range_inv
    (λ i (s : Z * Z), s.1 ≤ a ∧ s.2 ≤ d ∧ (a - s.1) + (d - s.2) = i)
    0 (n - 1) (compare_at (sort_desc a_dice) (sort_desc d_dice)) (a, d))
    as ([a' d'] & E & H); [lia | simpl; lia | |].
  - intros i [a1 d1] Hi (H1 & H2 & H3). simpl in *.
    destruct (compare_at_ok (sort_desc a_dice) (sort_desc d_dice) i (a1, d1))
      as (ad' & E); [rewrite sort_desc_length; lia .. |].
    exists ad'. split; [done |].
    apply compare_at_step in E; [| lia ..].
    destruct E as [-> | ->]; simpl; lia.
  - exists a', d'. simpl in H. split; [done | lia].
Qed.

(** Every round of the [while] loop makes at least one comparison. *)
Lemma battle_round_spec (rolls : nat → Z) (pos : nat) (a d : Z) :
  2 ≤ a ≤ INT_MAX → 1 ≤ d ≤ INT_MAX →
  let n := Z.min (attacker_dice a) (defender_dice d) in
  ∃ a' d', battle_round rolls pos (a, d) = Ok (a', d')
           ∧ 1 ≤ n ∧ a' ≤ a ∧ d' ≤ d ∧ (a - a') + (d - d') = n
           ∧ 1 ≤ a' ∧ 0 ≤ d'.
Proof.
  intros Ha Hd n. unfold battle_round. simpl.
  assert (attacker_dice a = Z.max (Z.min (a - 1) 3) 0) as Ena
    by (apply attacker_dice_spec; unfold INT_MIN; lia).
  pose proof (defender_dice_spec d) as End.
  destruct (resolve_spec (draw rolls pos (attacker_dice a))
              (draw rolls (pos + Z.to_nat (attacker_dice a)) (defender_dice d))
              (attacker_dice a) (defender_dice d) a d)
    as (a' & d' & E & H1 & H2 & H3);
    rewrite ?draw_length; try (unfold INT_MIN, INT_MAX in *; lia).
  exists a', d'. split; [done |]. unfold n. lia.
Qed.

Lemma battle_loop_spec (rolls : nat → Z) (fuel : nat) :
  ∀ (pos : nat) (a d : Z),
    1 ≤ a ≤ INT_MAX → 0 ≤ d ≤ INT_MAX → (Z.to_nat (a + d) ≤ fuel)%nat →
    ∃ a' d', battle_loop fuel rolls pos (a, d) = Ok (a', d')
             ∧ (d' = 0 ∨ a' ≤ 1) ∧ 1 ≤ a' ≤ a ∧ 0 ≤ d' ≤ d.
Proof.
  induction fuel as [| fuel IH]; intros pos a d Ha Hd Hf.
  - lia.
  - simpl. destruct (Z.gtb_spec a 1) as [Ga | Ga], (Z.gtb_spec d 0) as [Gd | Gd];
      simpl; try (exists a, d; split; [done | lia]).
    destruct (battle_round_spec rolls pos a d) as (a1 & d1 & -> & Hr); [lia .. |].
    simpl in *.
    destruct (IH (pos + Z.to_nat (attacker_dice a) + Z.to_nat (defender_dice d))%nat
                a1 d1) as (a' & d' & E & H'); [lia .. |].
    exists a', d'. split; [done | lia].
Qed.

(** C9. For every start with [A >= 2] and [D >= 1] and every sequence of
    dice, [simulate_battle] finishes once the loop bound is at least
    [A + D]: each round of the [while] loop makes at least one comparison
    and takes as many units as it makes comparisons, each comparison
    taking one unit from exactly one side; the loop ends in a state with
    [d = 0] or [a <= 1], never with [a > 1] and [d > 0]; and the result is
    [1] if and only if [d = 0] in that state. *)
Theorem simulate_battle_terminates (rolls : nat → Z) (fuel : nat) (A D : Z) :
  2 ≤ A ≤ INT_MAX → 1 ≤ D ≤ INT_MAX → (Z.to_nat (A + D) ≤ fuel)%nat →
  (∀ pos a d, 2 ≤ a ≤ INT_MAX → 1 ≤ d ≤ INT_MAX →
     ∃ a' d', battle_round rolls pos (a, d) = Ok (a', d')
              ∧ 1 ≤ Z.min (attacker_dice a) (defender_dice d)
              ∧ a' ≤ a ∧ d' ≤ d
              ∧ (a - a') + (d - d') = Z.min (attacker_dice a) (defender_dice d))
  ∧ (∀ a_dice d_dice i a d ad',
       INT_MIN < a ≤ INT_MAX → INT_MIN < d ≤ INT_MAX →
       compare_at a_dice d_dice i (a, d) = Ok ad' →
       ad' = (a, d - 1) ∨ ad' = (a - 1, d))
  ∧ ∃ a' d' r,
      battle_loop fuel rolls 0 (A, D) = Ok (a', d')
      ∧ (d' = 0 ∨ a' ≤ 1) ∧ ¬ (a' > 1 ∧ d' > 0)
      ∧ simulate_battle fuel rolls A D = Ok r
      ∧ (r = 1 ↔ d' = 0).
Proof.
  intros HA HD Hf. split; [| split].
  - intros pos a d Ha Hd.
    destruct (battle_round_spec rolls pos a d Ha Hd) as (a' & d' & H).
    exists a', d'. tauto.
  - apply compare_at_step.
  - destruct (battle_loop_spec rolls fuel 0 A D) as (a' & d' & E & H & _);
      [lia .. |].
    exists a', d', (if d' =? 0 then 1 else 0).
    split; [done |]. split; [done |]. split; [lia |].
    split; [unfold simulate_battle; by rewrite E |].
    destruct (Z.eqb_spec d' 0); split; intros; try done; lia.
Qed.

Lemma simulate_battle_terminates_witness :
  ∃ a' d' r,
    battle_loop 9 (λ n, Z.of_nat (n mod 6) + 1) 0 (5, 4) = Ok (a', d')
    ∧ (d' = 0 ∨ a' ≤ 1) ∧ ¬ (a' > 1 ∧ d' > 0)
    ∧ simulate_battle 9 (λ n, Z.of_nat (n mod 6) + 1) 5 4 = Ok r
    ∧ (r = 1 ↔ d' = 0).
Proof.
  apply (simulate_battle_terminates (λ n, Z.of_nat (n mod 6) + 1) 9 5 4);
    unfold INT_MAX; lia.
Defined.

(** ** The enumerator against the generic rule *)

Lemma for_each_ext {X S} (xs : list X) (f g : X → S → result S) (s : S) :
  (∀ x s, x ∈ xs → f x s = g x s) → for_each xs f s = for_each xs g s.
Proof.
  revert s. induction xs as [| x xs IH]; intros s H; simpl; [done |].
  rewrite H by left. destruct (g x s); simpl; try done.
  apply IH. intros y t Hy. apply H. by right.
Qed.

Lemma for_range_ext {S} (lo hi : Z) (f g : Z → S → result S) (s : S) :
  (∀ i s, lo ≤ i ≤ hi → f i s = g i s) →
  for_range lo hi f s = for_range lo hi g s.
Proof.
  intros H. apply for_each_ext. intros i t Hi. apply H.
  apply elem_of_seqZ in Hi. lia.
Qed.

Lemma for_each_break_next {X S} (xs : list X)
    (f : X → S → result (flow * S)) (g : X → S → result S) (s : S) :
  (∀ x s, x ∈ xs → f x s = (s' ← g x s; Ok (Next, s'))) →
  for_each_break xs f s = for_each xs g s.
Proof.
  revert s. induction xs as [| x xs IH]; intros s H; simpl; [done |].
  rewrite H by left. destruct (g x s); simpl; try done.
  apply IH. intros y t Hy. apply H. by right.
Qed.

Lemma sort_three_sorted (a b c : Z) :
  let r := sort_three a b c in
  r.1.1 ≤ r.1.2 ≤ r.2
  ∧ r.1.1 = Z.min a (Z.min b c) ∧ r.2 = Z.max a (Z.max b c)
  ∧ a + b + c = r.1.1 + r.1.2 + r.2.
Proof.
  unfold sort_three.
  destruct (Z.gtb_spec a b), (Z.gtb_spec b c), (Z.gtb_spec a c);
    simpl; repeat case_match; simpl; try lia;
    repeat match goal with H : (_ >? _) = _ |- _ => revert H end;
    repeat match goal with |- context [?x >? ?y] => destruct (Z.gtb_spec x y) end;
    intros; simplify_eq; simpl; lia.
Qed.

Ltac split_comparisons :=
  repeat match goal with
    | |- context [?x >? ?y] =>
        is_var x; is_var y; destruct (Z.gtb_spec x y)
    | |- context [?x <? ?y] =>
        is_var x; is_var y; destruct (Z.ltb_spec x y)
    | |- context [?x <=? ?y] =>
        is_var x; is_var y; destruct (Z.leb_spec x y)
    | |- context [?x >=? ?y] =>
        is_var x; is_var y; rewrite (Z.geb_leb x y); destruct (Z.leb_spec y x)
    | |- context [?x =? ?y] =>
        is_var x; is_var y; destruct (Z.eqb_spec x y)
    end.

Ltac round_cases :=
  unfold credit_round, round_delta, resolve, for_range, compare_at,
    tally_vs_one, tally_one_vs_two, tally_two, max2, min2, sort_desc;
  simpl; repeat (progress (split_comparisons; simpl)); try lia;
  change (sub 0 1) with (-1); change (sub (-1) 1) with (-2);
  try reflexivity.

Lemma step_1_1 M i p st :
  tally_vs_one M i p st = credit_round M [i] [p] st.
Proof. round_cases. Qed.

Lemma step_2_1 M i j p st :
  tally_vs_one M (max2 i j) p st = credit_round M [i; j] [p] st.
Proof. round_cases. Qed.

Lemma step_3_1 M i j k p st :
  tally_vs_one M (if k >? max2 i j then k else max2 i j) p st
  = credit_round M [i; j; k] [p] st.
Proof. round_cases. Qed.

Lemma step_1_2 M i p q st :
  tally_one_vs_two M i (max2 p q) st = credit_round M [i] [p; q] st.
Proof. round_cases. Qed.

(** The two comparisons of a round on sorted dice, as the comparisons
    that [tally_two] makes. *)
Lemma sort_desc_pair (p q : Z) : sort_desc [p; q] = [max2 p q; min2 p q].
Proof.
  unfold sort_desc, max2, min2. simpl. split_comparisons; try lia;
    repeat f_equal; lia.
Qed.

Lemma sort_desc_triple (i j k : Z) :
  sort_desc [i; j; k]
  = [if k >? max2 i j then k else max2 i j; (sort_three i j k).1.2;
     (sort_three i j k).1.1].
Proof.
  unfold sort_desc, sort_three, max2. simpl.
  repeat (progress (split_comparisons; simpl)); try lia; repeat f_equal; lia.
Qed.

Lemma tally_two_round M (hi lo pqmax pqmin : Z) (rest : list Z) (na : Z) st :
  2 ≤ na →
  tally_two M hi lo pqmax pqmin st
  = (delta ← for_range 0 ((if na >? 2 then 2 else na) - 1)
               (compare_at (hi :: lo :: rest) [pqmax; pqmin]) (0, 0);
     counts ← credit M delta st.1;
     Ok (counts, add st.2 1)).
Proof.
  intros Hna.
  replace (if na >? 2 then 2 else na) with 2
    by (destruct (Z.gtb_spec na 2); lia).
  unfold for_range, compare_at, tally_two. simpl.
  destruct (Z.gtb_spec hi pqmax), (Z.leb_spec hi pqmax); try lia;
    destruct (Z.gtb_spec lo pqmin), (Z.leb_spec lo pqmin); try lia; simpl;
    change (sub 0 1) with (-1); change (sub (-1) 1) with (-2); reflexivity.
Qed.

Lemma step_2_2 M i j p q st :
  tally_two M (max2 i j) (min2 i j) (max2 p q) (min2 p q) st
  = credit_round M [i; j] [p; q] st.
Proof.
  unfold credit_round, round_delta, resolve.
  rewrite !sort_desc_pair.
  rewrite (tally_two_round M _ _ _ _ [] 2) by lia. reflexivity.
Qed.

Lemma step_3_2 M i j k p q st :
  tally_two M (if k >? max2 i j then k else max2 i j) (sort_three i j k).1.2
    (max2 p q) (min2 p q) st
  = credit_round M [i; j; k] [p; q] st.
Proof.
  unfold credit_round, round_delta, resolve.
  rewrite sort_desc_pair, sort_desc_triple.
  rewrite (tally_two_round M _ _ _ _ [(sort_three i j k).1.1] 3) by lia.
  reflexivity.
Qed.

(** The [break] of the branch (3,2) is never taken. *)
Lemma enum_3_2_k_no_break M S i j k st :
  enum_3_2_k M S i j (max2 i j) (min2 i j) k st
  = (st' ← for_range 1 S (λ p,
             for_range 1 S (λ q,
               tally_two M (if k >? max2 i j then k else max2 i j)
                 (sort_three i j k).1.2 (max2 p q) (min2 p q))) st;
     Ok (Next, st')).
Proof.
  unfold enum_3_2_k.
  pose proof (sort_three_sorted i j k) as (_ & Hmin & Hmax & _).
  simpl in Hmin, Hmax.
  replace ((sort_three i j k).1.1 =? (if k <? min2 i j then k else min2 i j))
    with true
    by (symmetry; apply Z.eqb_eq; rewrite Hmin; unfold min2;
        split_comparisons; lia).
  replace ((sort_three i j k).2 =? (if k >? max2 i j then k else max2 i j))
    with true
    by (symmetry; apply Z.eqb_eq; rewrite Hmax; unfold max2;
        split_comparisons; lia).
  done.
Qed.

Lemma enum_3_2_k_next M S i j k st :
  enum_3_2_k M S i j (max2 i j) (min2 i j) k st
  = (st' ← for_range 1 S (λ p,
             for_range 1 S (λ q, credit_round M [i; j; k] [p; q])) st;
     Ok (Next, st')).
Proof.
  rewrite enum_3_2_k_no_break. f_equal.
  apply for_range_ext. intros p s _.
  apply for_range_ext. intros q s' _. apply step_3_2.
Qed.

(** C5. Each of the six branches of [calc_transitions] counts every dice
    tuple with faces in [1..S] under the delta of the generic rule of
    [simulate_battle]'s comparison loop (both sides sorted descending,
    [min na nd] comparisons, the attacker winning a comparison only with
    a strictly higher die, the loser of a comparison losing one unit);
    in the branch (3,2) the values compared are the maximum and the
    median of the attacker's dice and the maximum and the minimum of the
    defender's. *)
Theorem enumeration_refines_round (M : gmap (Z * Z) Z) (S : Z) (st : tally) :
  enum_1_1 M S st
    = for_range 1 S (λ i,
        for_range 1 S (λ p, credit_round M [i] [p])) st
  ∧ enum_2_1 M S st
    = for_range 1 S (λ i, for_range 1 S (λ j,
        for_range 1 S (λ p, credit_round M [i; j] [p]))) st
  ∧ enum_3_1 M S st
    = for_range 1 S (λ i, for_range 1 S (λ j, for_range 1 S (λ k,
        for_range 1 S (λ p, credit_round M [i; j; k] [p])))) st
  ∧ enum_1_2 M S st
    = for_range 1 S (λ i,
        for_range 1 S (λ p, for_range 1 S (λ q,
          credit_round M [i] [p; q]))) st
  ∧ enum_2_2 M S st
    = for_range 1 S (λ i, for_range 1 S (λ j,
        for_range 1 S (λ p, for_range 1 S (λ q,
          credit_round M [i; j] [p; q])))) st
  ∧ enum_3_2 M S st
    = for_range 1 S (λ i, for_range 1 S (λ j, for_range 1 S (λ k,
        for_range 1 S (λ p, for_range 1 S (λ q,
          credit_round M [i; j; k] [p; q]))))) st
  ∧ (∀ i j k p q,
       let ijkmax := if k >? max2 i j then k else max2 i j in
       let ijkmid := (sort_three i j k).1.2 in
       sort_desc [i; j; k] !! 0%nat = Some ijkmax
       ∧ sort_desc [i; j; k] !! 1%nat = Some ijkmid
       ∧ sort_desc [p; q] = [max2 p q; min2 p q]
       ∧ ∀ st, ∃ delta,
           round_delta [i; j; k] [p; q] = Ok delta
           ∧ delta = ((if ijkmax >? max2 p q then 0 else -1)
                      + (if ijkmid >? min2 p q then 0 else -1),
                      (if ijkmax >? max2 p q then -1 else 0)
                      + (if ijkmid >? min2 p q then -1 else 0))
           ∧ tally_two M ijkmax ijkmid (max2 p q) (min2 p q) st
             = (counts ← credit M delta st.1; Ok (counts, add st.2 1))).
Proof.
  repeat split.
  - apply for_range_ext. intros i s _.
    apply for_range_ext. intros p s' _. apply step_1_1.
  - apply for_range_ext. intros i s _.
    apply for_range_ext. intros j s' _.
    apply for_range_ext. intros p s'' _. apply step_2_1.
  - apply for_range_ext. intros i s _.
    apply for_range_ext. intros j s1 _.
    apply for_range_ext. intros k s2 _.
    apply for_range_ext. intros p s3 _. apply step_3_1.
  - apply for_range_ext. intros i s _.
    apply for_range_ext. intros p s1 _.
    apply for_range_ext. intros q s2 _. apply step_1_2.
  - apply for_range_ext. intros i s _.
    apply for_range_ext. intros j s1 _.
    apply for_range_ext. intros p s2 _.
    apply for_range_ext. intros q s3 _. apply step_2_2.
  - apply for_range_ext. intros i s _.
    apply for_range_ext. intros j s1 _.
    apply for_each_break_next. intros k s2 _. apply enum_3_2_k_next.
  - by rewrite sort_desc_triple.
  - by rewrite sort_desc_triple.
  - apply sort_desc_pair.
  - intros st'. unfold round_delta, resolve.
    rewrite sort_desc_pair, sort_desc_triple.
    unfold for_range, compare_at, tally_two. simpl.
    set (hi := if k >? max2 i j then k else max2 i j).
    set (lo := (sort_three i j k).1.2).
    destruct (Z.gtb_spec hi (max2 p q)), (Z.leb_spec hi (max2 p q)); try lia;
      destruct (Z.gtb_spec lo (min2 p q)), (Z.leb_spec lo (min2 p q));
      try lia; simpl;
      change (sub 0 1) with (-1); change (sub (-1) 1) with (-2);
      eexists; (split; [reflexivity |]); split; reflexivity.
Qed.

(** ** The enumerator: counts and denominator *)

Lemma Zsum_insert (l : list Z) (i : nat) (c v : Z) :
  l !! i = Some c → Zsum (<[i := v]> l) = Zsum l - c + v.
Proof.
  revert i. induction l as [| x l IH]; intros [| i]; simpl; try done.
  - intros [= ->]. lia.
  - intros H. rewrite (IH i H). lia.
Qed.

Lemma Zsum_nonneg (l : list Z) : Forall (Z.le 0) l → 0 ≤ Zsum l.
Proof. induction 1; simpl; lia. Qed.

Lemma Zsum_bound (l : list Z) (i : nat) (c : Z) :
  Forall (Z.le 0) l → l !! i = Some c → 0 ≤ c ≤ Zsum l.
Proof.
  intros Hl. revert i. induction Hl as [| x l Hx Hl IH]; intros [| i]; simpl;
    try done.
  - intros [= ->]. pose proof (Zsum_nonneg l Hl). lia.
  - intros H. specialize (IH i H). lia.
Qed.


Lemma credit_counted (key : Z * Z) (counts : list Z) (n : Z) :
  key ∈ outcome_deltas →
  length counts = 5%nat → Forall (Z.le 0) counts → Zsum counts = n →
  n < INT_MAX →
  ∃ counts', credit M5 key counts = Ok counts'
             ∧ length counts' = 5%nat ∧ Forall (Z.le 0) counts'
             ∧ Zsum counts' = n + 1.
Proof.
  intros Hkey Hlen Hpos Hsum Hn. unfold credit.
  assert (0 ≤ map_at M5 key < 5) as Hidx.
  { unfold outcome_deltas in Hkey.
    rewrite !elem_of_cons, elem_of_nil in Hkey.
    destruct Hkey as [-> | [-> | [-> | [-> | [-> | []]]]]];
      vm_compute; split; congruence. }
  destruct (vec_at_in counts (map_at M5 key)) as (c & -> & Hc); [lia |]. simpl.
  pose proof (Zsum_bound counts _ c Hpos Hc) as Hcb.
  rewrite add_small by (unfold in_range, INT_MIN, INT_MAX in *; lia).
  rewrite vec_set_ok by lia.
  eexists. split; [done |]. rewrite length_insert. split; [done |]. split.
  - apply Forall_insert; [done | lia].
  - rewrite (Zsum_insert _ _ c) by done. lia.
Qed.

Ltac credit_step key Hlen Hpos Hsum :=
  let c := fresh "counts" in
  let E := fresh "E" in
  let Hl := fresh "Hlen" in
  let Hp := fresh "Hpos" in
  let Hs := fresh "Hsum" in
  pose proof (Zsum_nonneg _ Hpos);
  edestruct (credit_counted key) as (c & E & Hl & Hp & Hs);
  [ unfold outcome_deltas; set_solver | exact Hlen | exact Hpos | exact Hsum
  | lia | ];
  rewrite E; simpl;
  eexists; split; [reflexivity |];
  split; [simpl; apply add_small; unfold in_range, INT_MIN, INT_MAX in *; lia |];
  simpl; split; [exact Hl |]; split; [exact Hp | exact Hs].

Lemma tally_vs_one_counted (x p n : Z) (st : tally) :
  counted n st → n + 1 ≤ INT_MAX →
  ∃ st', tally_vs_one M5 x p st = Ok st' ∧ counted (n + 1) st'.
Proof.
  destruct st as [counts O]. intros (HO & Hlen & Hpos & Hsum) Hn.
  simpl in *. subst O. unfold tally_vs_one. simpl.
  destruct (Z.gtb_spec x p), (Z.leb_spec x p); try lia; simpl.
  - credit_step (0, -1) Hlen Hpos Hsum.
  - credit_step (-1, 0) Hlen Hpos Hsum.
Qed.

Lemma tally_one_vs_two_counted (i pqmax n : Z) (st : tally) :
  counted n st → n + 1 ≤ INT_MAX →
  ∃ st', tally_one_vs_two M5 i pqmax st = Ok st' ∧ counted (n + 1) st'.
Proof.
  destruct st as [counts O]. intros (HO & Hlen & Hpos & Hsum) Hn.
  simpl in *. subst O. unfold tally_one_vs_two. simpl.
  rewrite Z.geb_leb.
  destruct (Z.leb_spec i pqmax), (Z.ltb_spec pqmax i); try lia; simpl.
  - credit_step (-1, 0) Hlen Hpos Hsum.
  - credit_step (0, -1) Hlen Hpos Hsum.
Qed.

Lemma tally_two_counted (hi lo pqmax pqmin n : Z) (st : tally) :
  counted n st → n + 1 ≤ INT_MAX →
  ∃ st', tally_two M5 hi lo pqmax pqmin st = Ok st' ∧ counted (n + 1) st'.
Proof.
  destruct st as [counts O]. intros (HO & Hlen & Hpos & Hsum) Hn.
  simpl in *. subst O. unfold tally_two. simpl.
  destruct (Z.gtb_spec hi pqmax), (Z.leb_spec hi pqmax); try lia;
    destruct (Z.gtb_spec lo pqmin), (Z.leb_spec lo pqmin); try lia; simpl.
  - credit_step (0, -2) Hlen Hpos Hsum.
  - credit_step (-1, -1) Hlen Hpos Hsum.
  - credit_step (-1, -1) Hlen Hpos Hsum.
  - credit_step (-2, 0) Hlen Hpos Hsum.
Qed.

(** A loop over the faces [1..S] whose every turn counts [c] tuples. *)
Lemma faces_loop (c S n : Z) (body : Z → tally → result tally) (st : tally) :
  1 ≤ S → 0 ≤ c → counted n st → n + S * c ≤ INT_MAX →
  (∀ i m st, 1 ≤ i ≤ S → counted m st → m + c ≤ INT_MAX →
     ∃ st', body i st = Ok st' ∧ counted (m + c) st') →
  ∃ st', for_range 1 S body st = Ok st' ∧ counted (n + S * c) st'.
Proof.
  intros HS Hc H0 Hb Hstep.
  destruct (for_range_count counted c INT_MAX 1 S n body st)
    as (st' & E & H); [lia | done | done | | done |].
  - replace (S + 1 - 1) with S by lia. done.
  - exists st'. split; [done |]. by replace (S + 1 - 1) with S in H by lia.
Qed.

Section Enumerations.

Variables (S n : Z) (st : tally).
Hypothesis (HS : 1 ≤ S) (Hst : counted n st).

Lemma enum_1_1_counted :
  n + S * (S * 1) ≤ INT_MAX →
  ∃ st', enum_1_1 M5 S st = Ok st' ∧ counted (n + S * (S * 1)) st'.
Proof using HS Hst.
  intros Hb. unfold enum_1_1.
  apply faces_loop; [lia | nia | done | done |]. intros i m1 s1 _ H1 B1.
  apply faces_loop; [lia | nia | done | done |]. intros p m2 s2 _ H2 B2.
  by apply tally_vs_one_counted.
Qed.

Lemma enum_2_1_counted :
  n + S * (S * (S * 1)) ≤ INT_MAX →
  ∃ st', enum_2_1 M5 S st = Ok st' ∧ counted (n + S * (S * (S * 1))) st'.
Proof using HS Hst.
  intros Hb. unfold enum_2_1.
  apply faces_loop; [lia | nia | done | done |]. intros i m1 s1 _ H1 B1.
  apply faces_loop; [lia | nia | done | done |]. intros j m2 s2 _ H2 B2.
  apply faces_loop; [lia | nia | done | done |]. intros p m3 s3 _ H3 B3.
  by apply tally_vs_one_counted.
Qed.

Lemma enum_3_1_counted :
  n + S * (S * (S * (S * 1))) ≤ INT_MAX →
  ∃ st', enum_3_1 M5 S st = Ok st'
         ∧ counted (n + S * (S * (S * (S * 1)))) st'.
Proof using HS Hst.
  intros Hb. unfold enum_3_1.
  apply faces_loop; [lia | nia | done | done |]. intros i m1 s1 _ H1 B1.
  apply faces_loop; [lia | nia | done | done |]. intros j m2 s2 _ H2 B2.
  apply faces_loop; [lia | nia | done | done |]. intros k m3 s3 _ H3 B3.
  apply faces_loop; [lia | nia | done | done |]. intros p m4 s4 _ H4 B4.
  by apply tally_vs_one_counted.
Qed.

Lemma enum_1_2_counted :
  n + S * (S * (S * 1)) ≤ INT_MAX →
  ∃ st', enum_1_2 M5 S st = Ok st' ∧ counted (n + S * (S * (S * 1))) st'.
Proof using HS Hst.
  intros Hb. unfold enum_1_2.
  apply faces_loop; [lia | nia | done | done |]. intros i m1 s1 _ H1 B1.
  apply faces_loop; [lia | nia | done | done |]. intros p m2 s2 _ H2 B2.
  apply faces_loop; [lia | nia | done | done |]. intros q m3 s3 _ H3 B3.
  by apply tally_one_vs_two_counted.
Qed.

Lemma enum_2_2_counted :
  n + S * (S * (S * (S * 1))) ≤ INT_MAX →
  ∃ st', enum_2_2 M5 S st = Ok st'
         ∧ counted (n + S * (S * (S * (S * 1)))) st'.
Proof using HS Hst.
  intros Hb. unfold enum_2_2.
  apply faces_loop; [lia | nia | done | done |]. intros i m1 s1 _ H1 B1.
  apply faces_loop; [lia | nia | done | done |]. intros j m2 s2 _ H2 B2.
  apply faces_loop; [lia | nia | done | done |]. intros p m3 s3 _ H3 B3.
  apply faces_loop; [lia | nia | done | done |]. intros q m4 s4 _ H4 B4.
  by apply tally_two_counted.
Qed.

Lemma enum_3_2_counted :
  n + S * (S * (S * (S * (S * 1)))) ≤ INT_MAX →
  ∃ st', enum_3_2 M5 S st = Ok st'
         ∧ counted (n + S * (S * (S * (S * (S * 1))))) st'.
Proof using HS Hst.
  intros Hb. unfold enum_3_2.
  apply faces_loop; [lia | nia | done | done |]. intros i m1 s1 _ H1 B1.
  apply faces_loop; [lia | nia | done | done |]. intros j m2 s2 _ H2 B2.
  unfold for_range_break.
  rewrite (for_each_break_next _ _ (λ k,
    for_range 1 S (λ p, for_range 1 S (λ q,
      tally_two M5 (if k >? max2 i j then k else max2 i j)
        (sort_three i j k).1.2 (max2 p q) (min2 p q)))))
    by (intros k s _; apply enum_3_2_k_no_break).
  apply faces_loop; [lia | nia | done | done |]. intros k m3 s3 _ H3 B3.
  apply faces_loop; [lia | nia | done | done |]. intros p m4 s4 _ H4 B4.
  apply faces_loop; [lia | nia | done | done |]. intros q m5 s5 _ H5 B5.
  by apply tally_two_counted.
Qed.

End Enumerations.

Lemma counted_start : counted 0 (replicate (length outcome_deltas) 0, 0).
Proof. repeat split. simpl. repeat constructor; lia. Qed.

(** [calc_transitions] on a configuration whose tuples number at most
    [INT_MAX]. *)
Lemma calc_transitions_counted (S na nd : Z) (counts0 : list Z) :
  2 ≤ S → (na, nd) ∈ dice_configurations → S ^ (na + nd) ≤ INT_MAX →
  ∃ counts,
    calc_transitions outcome_deltas counts0 na nd S = Ok (S ^ (na + nd), counts)
    ∧ length counts = 5%nat ∧ Forall (Z.le 0) counts
    ∧ Zsum counts = S ^ (na + nd).
Proof.
  intros HS Hcfg Hb. unfold calc_transitions.
  destruct (Z.ltb_spec S 2) as [HS2 | HS2]; [lia |].
  fold M5. pose proof counted_start as H0.
  unfold dice_configurations in Hcfg.
  rewrite !elem_of_cons, elem_of_nil in Hcfg.
  destruct Hcfg as [E | [E | [E | [E | [E | [E | []]]]]]];
    injection E as -> ->; simpl in Hb.
  - destruct (enum_1_1_counted S 0 _ ltac:(lia) H0) as ([c O] & E & HO & Hc);
      [lia |]. simpl in HO, Hc. subst O. exists c. rewrite E.
    replace (S ^ 2) with (0 + S * (S * 1)) in * by ring. done.
  - destruct (enum_2_1_counted S 0 _ ltac:(lia) H0) as ([c O] & E & HO & Hc);
      [lia |]. simpl in HO, Hc. subst O. exists c. rewrite E.
    replace (S ^ 3) with (0 + S * (S * (S * 1))) in * by ring. done.
  - destruct (enum_3_1_counted S 0 _ ltac:(lia) H0) as ([c O] & E & HO & Hc);
      [lia |]. simpl in HO, Hc. subst O. exists c. rewrite E.
    replace (S ^ 4) with (0 + S * (S * (S * (S * 1)))) in * by ring. done.
  - destruct (enum_1_2_counted S 0 _ ltac:(lia) H0) as ([c O] & E & HO & Hc);
      [lia |]. simpl in HO, Hc. subst O. exists c. rewrite E.
    replace (S ^ 3) with (0 + S * (S * (S * 1))) in * by ring. done.
  - destruct (enum_2_2_counted S 0 _ ltac:(lia) H0) as ([c O] & E & HO & Hc);
      [lia |]. simpl in HO, Hc. subst O. exists c. rewrite E.
    replace (S ^ 4) with (0 + S * (S * (S * (S * 1)))) in * by ring. done.
  - destruct (enum_3_2_counted S 0 _ ltac:(lia) H0) as ([c O] & E & HO & Hc);
      [lia |]. simpl in HO, Hc. subst O. exists c. rewrite E.
    replace (S ^ 5) with (0 + S * (S * (S * (S * (S * 1))))) in * by ring. done.
Qed.

(** The value that [calc_transitions] returns is an [int]. *)
Lemma tally_range_start (counts : list Z) : in_range (counts, 0).2.
Proof. simpl. unfold in_range, INT_MIN, INT_MAX. lia. Qed.

Lemma tally_vs_one_range M x p st st' :
  tally_vs_one M x p st = Ok st' → in_range st'.2.
Proof.
  unfold tally_vs_one.
  intros (c1 & _ & (c2 & _ & [= <-])%bind_ok)%bind_ok. apply wrap_in_range.
Qed.

Lemma tally_one_vs_two_range M i pqmax st st' :
  tally_one_vs_two M i pqmax st = Ok st' → in_range st'.2.
Proof.
  unfold tally_one_vs_two.
  intros (c1 & _ & (c2 & _ & [= <-])%bind_ok)%bind_ok. apply wrap_in_range.
Qed.

Lemma tally_two_range M hi lo pqmax pqmin st st' :
  tally_two M hi lo pqmax pqmin st = Ok st' → in_range st'.2.
Proof.
  unfold tally_two.
  intros (c1 & _ & (c2 & _ & (c3 & _ & (c4 & _ & [= <-])%bind_ok)%bind_ok)
            %bind_ok)%bind_ok.
  apply wrap_in_range.
Qed.

Lemma for_range_range (lo hi : Z) (body : Z → tally → result tally) st st' :
  (∀ i s s', in_range s.2 → body i s = Ok s' → in_range s'.2) →
  in_range st.2 → for_range lo hi body st = Ok st' → in_range st'.2.
Proof.
  intros Hbody H0. apply (for_each_preserves (λ s : tally, in_range s.2)); [done |].
  intros i s s' _. apply Hbody.
Qed.

Lemma calc_transitions_range order counts na nd S O counts' :
  calc_transitions order counts na nd S = Ok (O, counts') → in_range O.
Proof.
  unfold calc_transitions.
  assert (in_range 0) as H0 by (unfold in_range, INT_MIN, INT_MAX; lia).
  repeat case_match; try (by intros [= <- _]);
    intros ([c O'] & E & [= <- <-])%bind_ok; simpl; revert E.
  - apply for_range_range; [| done]. intros i s s' Hs.
    apply for_range_range; [| done]. intros p t t' _.
    apply tally_vs_one_range.
  - apply for_range_range; [| done]. intros i s s' Hs.
    apply for_range_range; [| done]. intros j s1 s1' Hs1.
    apply for_range_range; [| done]. intros p t t' _.
    apply tally_vs_one_range.
  - apply for_range_range; [| done]. intros i s s' Hs.
    apply for_range_range; [| done]. intros j s1 s1' Hs1.
    apply for_range_range; [| done]. intros k s2 s2' Hs2.
    apply for_range_range; [| done]. intros p t t' _.
    apply tally_vs_one_range.
  - apply for_range_range; [| done]. intros i s s' Hs.
    apply for_range_range; [| done]. intros p s1 s1' Hs1.
    apply for_range_range; [| done]. intros q t t' _.
    apply tally_one_vs_two_range.
  - apply for_range_range; [| done]. intros i s s' Hs.
    apply for_range_range; [| done]. intros j s1 s1' Hs1.
    apply for_range_range; [| done]. intros p s2 s2' Hs2.
    apply for_range_range; [| done]. intros q t t' _.
    apply tally_two_range.
  - apply for_range_range; [| done]. intros i s s' Hs.
    apply for_range_range; [| done]. intros j s1 s1' Hs1.
    apply (for_each_break_preserves (λ s : tally, in_range s.2)); [done |].
    intros k s2 [f s2'] _ Hs2. unfold enum_3_2_k.
    case_match; [by intros [= <- <-] |].
    intros (s3 & E & [= <- <-])%bind_ok. simpl. revert E.
    apply for_range_range; [| done]. intros p s4 s4' Hs4.
    apply for_range_range; [| done]. intros q t t' _.
    apply tally_two_range.
Qed.

(** ** The transition table *)

Lemma Qsum_probabilities (l : list Z) (d : Z) :
  d ≠ 0 →
  (Qsum (probabilities l d) == inject_Z (Zsum l) / inject_Z d)%Q.
Proof.
  intros Hd.
  assert (¬ (inject_Z d == 0)%Q) as Hd'.
  { unfold Qeq. simpl. lia. }
  induction l as [| c l IH]; simpl.
  - field. done.
  - rewrite IH, inject_Z_plus. field. done.
Qed.

Lemma row_of_sum (S : Z) (cfg : Z * Z) (row : list Q) :
  2 ≤ S → 0 ≤ cfg.1 + cfg.2 → row_of S cfg row →
  length row = 5%nat ∧ (Qsum row == 1)%Q.
Proof.
  intros HS Hcfg (tcounts & _ & Hlen & _ & Hsum & ->).
  assert (0 < S ^ (cfg.1 + cfg.2)) as Hpos by (apply Z.pow_pos_nonneg; lia).
  split.
  - unfold probabilities. by rewrite length_map.
  - rewrite Qsum_probabilities by lia. rewrite Hsum. field.
    unfold Qeq. simpl. lia.
Qed.

(** Lines 321-327 on five counts whose sum is an [int]. *)
Lemma normalize_loop (tcounts : list Z) (tdenom : Z) :
  length tcounts = 5%nat → Forall (Z.le 0) tcounts → Zsum tcounts ≤ INT_MAX →
  for_size (length outcome_deltas) (normalize tcounts tdenom) (0, [])
  = Ok (Zsum tcounts, probabilities tcounts tdenom).
Proof.
  intros Hlen Hpos Hsum.
  destruct tcounts as [| c0 [| c1 [| c2 [| c3 [| c4 [| ? ?]]]]]]; try done.
  repeat match goal with
         | H : Forall _ (_ :: _) |- _ => apply Forall_cons in H as [? H]
         end.
  simpl in Hsum.
  unfold for_size, normalize, probabilities. simpl.
  rewrite (add_small 0 c0) by (unfold in_range, INT_MIN, INT_MAX in *; lia).
  rewrite (add_small _ c1) by (unfold in_range, INT_MIN, INT_MAX in *; lia).
  rewrite (add_small _ c2) by (unfold in_range, INT_MIN, INT_MAX in *; lia).
  rewrite (add_small _ c3) by (unfold in_range, INT_MIN, INT_MAX in *; lia).
  rewrite (add_small _ c4) by (unfold in_range, INT_MIN, INT_MAX in *; lia).
  do 2 f_equal. lia.
Qed.

Lemma build_rows_spec (S : Z) (todo : list (Z * Z)) (rows0 : list (list Q)) :
  2 ≤ S →
  (∀ cfg, cfg ∈ todo →
     cfg ∈ dice_configurations ∧ S ^ (cfg.1 + cfg.2) ≤ INT_MAX) →
  ∃ rows, build_rows todo outcome_deltas S rows0 = Ok (true, rows0 ++ rows)
          ∧ Forall2 (row_of S) todo rows.
Proof.
  intros HS. revert rows0.
  induction todo as [| [na nd] todo IH]; intros rows0 Htodo.
  - exists []. simpl. rewrite app_nil_r. split; [done | constructor].
  - destruct (Htodo (na, nd)) as [Hcfg Hb]; [left |]. simpl in Hb.
    destruct (calc_transitions_counted S na nd [] HS Hcfg Hb)
      as (tcounts & E & Hlen & Hpos & Hsum).
    assert (0 < S ^ (na + nd)) as Hdenom.
    { apply Z.pow_pos_nonneg; [lia |]. unfold dice_configurations in Hcfg.
      rewrite !elem_of_cons, elem_of_nil in Hcfg.
      destruct Hcfg as [[= -> ->] | [[= -> ->] | [[= -> ->] | [[= -> ->]
        | [[= -> ->] | [[= -> ->] | []]]]]]]; lia. }
    destruct (IH (rows0 ++ [probabilities tcounts (S ^ (na + nd))]))
      as (rows & Erows & Hrows).
    { intros cfg Hc. apply Htodo. by right. }
    exists (probabilities tcounts (S ^ (na + nd)) :: rows). split.
    + cbn [build_rows]. rewrite E. cbn [mbind result_bind fst snd].
      destruct (Z.eqb_spec (S ^ (na + nd)) 0) as [? | _]; [lia |].
      rewrite normalize_loop by (done || lia).
      cbn [mbind result_bind fst snd]. rewrite Hsum, Z.eqb_refl.
      cbn [negb]. rewrite Erows. by rewrite <- app_assoc.
    + constructor; [| done]. exists tcounts. done.
Qed.

(** C1 (as amended). For dice of [S >= 2] faces and each of the six
    configurations [(na, nd)] whose [S^(na+nd)] tuples can be counted in
    an [int], [calc_transitions] returns the denominator [S^(na+nd)] and
    leaves five non-negative counts whose sum is that denominator; and
    when this holds for all six configurations ([S^5 <= INT_MAX]),
    [create_prob_table] succeeds with six rows, each made of the counts
    of its configuration divided by the denominator and each summing to
    exactly [1]. *)
Theorem enumeration_counts (S : Z) :
  2 ≤ S →
  (∀ na nd counts0,
     (na, nd) ∈ dice_configurations → S ^ (na + nd) ≤ INT_MAX →
     ∃ counts,
       calc_transitions outcome_deltas counts0 na nd S
         = Ok (S ^ (na + nd), counts)
       ∧ length counts = 5%nat ∧ Forall (Z.le 0) counts
       ∧ Zsum counts = S ^ (na + nd))
  ∧ (S ^ 5 ≤ INT_MAX →
     ∃ T, create_prob_table S = Ok (true, T)
          ∧ dicetuples T = dice_configurations
          ∧ transitions T = outcome_deltas
          ∧ Forall2 (row_of S) dice_configurations (probstable T)
          ∧ Forall (λ row, length row = 5%nat ∧ (Qsum row == 1)%Q)
              (probstable T)).
Proof.
  intros HS. split.
  - intros na nd counts0. by apply calc_transitions_counted.
  - intros Hb.
    destruct (build_rows_spec S dice_configurations [] HS)
      as (rows & E & Hrows).
    { intros [na nd] Hcfg. split; [done |]. simpl.
      apply Z.le_trans with (S ^ 5); [| done].
      apply Z.pow_le_mono_r; [lia |].
      unfold dice_configurations in Hcfg.
      rewrite !elem_of_cons, elem_of_nil in Hcfg.
      destruct Hcfg as [[= -> ->] | [[= -> ->] | [[= -> ->] | [[= -> ->]
        | [[= -> ->] | [[= -> ->] | []]]]]]]; lia. }
    exists (Tables dice_configurations outcome_deltas rows).
    unfold create_prob_table. rewrite E. simpl.
    repeat split; try done.
    assert (Forall (λ cfg : Z * Z, 0 ≤ cfg.1 + cfg.2) dice_configurations)
      as Hexp by (repeat constructor; simpl; lia).
    clear E. revert Hexp Hrows. generalize dice_configurations as cfgs.
    intros cfgs Hexp Hrows.
    induction Hrows as [| cfg row cfgs rows Hrow Hrows IH];
      [constructor |].
    apply Forall_cons in Hexp as [Hcfg Hexp].
    constructor; [| by apply IH].
    by apply (row_of_sum S cfg).
Qed.

Lemma configuration_3_2 : (3, 2) ∈ dice_configurations.
Proof. unfold dice_configurations. set_solver. Qed.

Lemma enumeration_counts_witness :
  (∃ counts,
     calc_transitions outcome_deltas [] 3 2 6 = Ok (6 ^ (3 + 2), counts)
     ∧ length counts = 5%nat ∧ Forall (Z.le 0) counts
     ∧ Zsum counts = 6 ^ (3 + 2))
  ∧ ∃ T, create_prob_table 6 = Ok (true, T)
         ∧ dicetuples T = dice_configurations
         ∧ transitions T = outcome_deltas
         ∧ Forall2 (row_of 6) dice_configurations (probstable T)
         ∧ Forall (λ row, length row = 5%nat ∧ (Qsum row == 1)%Q)
             (probstable T).
Proof.
  destruct (enumeration_counts 6) as [Hcounts Htable]; [lia |].
  split.
  - apply (Hcounts 3 2 []); [apply configuration_3_2 |].
    unfold INT_MAX. lia.
  - apply Htable. unfold INT_MAX. lia.
Defined.

(** C1, as stated, fails on the configuration (3,2) for dice of 74
    faces: the [74^5 = 2219006624] tuples exceed [INT_MAX], so the [int]
    that [calc_transitions] returns is not [74^5]. *)
Lemma denominator_exceeds_int :
  2 ≤ 74 ∧ (3, 2) ∈ dice_configurations
  ∧ ¬ ∃ counts, calc_transitions outcome_deltas [] 3 2 74 = Ok (74 ^ 5, counts).
Proof.
  split; [lia |]. split; [apply configuration_3_2 |].
  intros [counts E]. apply calc_transitions_range in E.
  unfold in_range, INT_MIN, INT_MAX in E. lia.
Qed.

(** ** The grid *)

Section Grid.

Variables A D : Z.
Hypothesis HA : 0 ≤ A.
Hypothesis HD : 0 ≤ D.
Hypothesis Hfit : grid_size A D ≤ INT_MAX.

Lemma linear_index_eq (a d : Z) :
  on_grid A D a d →
  linear_index a A d D = (1 + A) * d + a
  ∧ 0 ≤ (1 + A) * d + a < grid_size A D.
Proof using HA HD Hfit.
  unfold on_grid, grid_size in *. intros [Ha Hd].
  assert (0 ≤ (1 + A) * d ≤ (1 + A) * D) by nia.
  assert ((1 + A) * (1 + D) = (1 + A) * D + (1 + A)) by ring.
  unfold linear_index.
  rewrite (add_small 1 A) by (unfold in_range, INT_MIN, INT_MAX in *; nia).
  rewrite mul_small by (unfold in_range, INT_MIN, INT_MAX in *; nia).
  rewrite add_small by (unfold in_range, INT_MIN, INT_MAX in *; nia).
  lia.
Qed.

Lemma slot_inj (a d a' d' : Z) :
  on_grid A D a d → on_grid A D a' d' →
  slot A a d = slot A a' d' → a = a' ∧ d = d'.
Proof using HA HD.
  unfold on_grid, slot. intros [Ha Hd] [Ha' Hd'] E.
  assert ((1 + A) * d + a = (1 + A) * d' + a') as E' by nia.
  assert (d = d') as -> by nia. lia.
Qed.

Lemma read_cell (P : list Q) (a d : Z) (x : Q) :
  on_grid A D a d →
  vec_at P (linear_index a A d D) = Ok x ↔ cell A P a d = Some x.
Proof using HA HD Hfit.
  intros Hg. destruct (linear_index_eq a d Hg) as [-> Hr].
  rewrite vec_at_ok. unfold cell, slot. split; [by intros [_ ?] |].
  intros ?. split; [lia | done].
Qed.

Lemma cell_is_Some (P : list Q) (a d : Z) :
  Z.of_nat (length P) = grid_size A D → on_grid A D a d →
  ∃ x, cell A P a d = Some x.
Proof using HA HD Hfit.
  intros Hlen Hg. destruct (linear_index_eq a d Hg) as [_ Hr].
  apply lookup_lt_is_Some_2. unfold slot. lia.
Qed.

Lemma write_cell (P : list Q) (a d : Z) (v : Q) :
  Z.of_nat (length P) = grid_size A D → on_grid A D a d →
  vec_set P (linear_index a A d D) v = Ok (<[slot A a d := v]> P).
Proof using HA HD Hfit.
  intros Hlen Hg. destruct (linear_index_eq a d Hg) as [-> Hr].
  apply vec_set_ok. lia.
Qed.

Lemma cell_insert_eq (P : list Q) (a d : Z) (v : Q) :
  Z.of_nat (length P) = grid_size A D → on_grid A D a d →
  cell A (<[slot A a d := v]> P) a d = Some v.
Proof using HA HD Hfit.
  intros Hlen Hg. destruct (linear_index_eq a d Hg) as [_ Hr].
  unfold cell. apply list_lookup_insert_eq. unfold slot. lia.
Qed.

Lemma cell_insert_ne (P : list Q) (a d a' d' : Z) (v : Q) :
  on_grid A D a d → on_grid A D a' d' → (a', d') ≠ (a, d) →
  cell A (<[slot A a d := v]> P) a' d' = cell A P a' d'.
Proof using HA HD.
  intros Hg Hg' Hne. unfold cell. apply list_lookup_insert_ne.
  intros E. apply slot_inj in E as [-> ->]; done.
Qed.

End Grid.

(** ** Initialisation (lines 436-457) *)

Section Initialisation.

Variables A D : Z.
Hypothesis HA : 1 ≤ A.
Hypothesis HD : 0 ≤ D.
Hypothesis Hfit : grid_size A D ≤ INT_MAX.

Lemma grid_size_int : mul (add 1 A) (add 1 D) = grid_size A D.
Proof using HA HD Hfit.
  unfold grid_size in *.
  rewrite !add_small by (unfold in_range, INT_MIN, INT_MAX in *; nia).
  apply mul_small. unfold in_range, INT_MIN, INT_MAX in *. nia.
Qed.

Lemma sentinel_grid_spec :
  ∃ P, sentinel_grid A D = Ok P
       ∧ Z.of_nat (length P) = grid_size A D
       ∧ ∀ a d, on_grid A D a d → cell A P a d = Some unused_value.
Proof using HA HD Hfit.
  unfold sentinel_grid. rewrite grid_size_int. unfold vec_alloc.
  assert (0 ≤ grid_size A D) as Hsz by (unfold grid_size; nia).
  destruct (Z.ltb_spec (grid_size A D) 0) as [? | _]; [lia |].
  cbn [mbind result_bind].
  set (P0 := replicate (Z.to_nat (grid_size A D)) 0%Q).
  destruct (for_range_inv
    (λ i P, Z.of_nat (length P) = grid_size A D
            ∧ ∀ a d, on_grid A D a d → a < i → cell A P a d = Some unused_value)
    0 A (λ i, for_range 0 D (λ j P,
                vec_set P (linear_index i A j D) unused_value)) P0)
    as (P & E & Hlen & HP); [lia | | | ].
  - split; [unfold P0; rewrite length_replicate; lia |].
    unfold on_grid. intros; lia.
  - intros i P Hi [Hlen HP].
    destruct (for_range_inv
      (λ j P, Z.of_nat (length P) = grid_size A D
              ∧ ∀ a d, on_grid A D a d → a < i ∨ (a = i ∧ d < j) →
                       cell A P a d = Some unused_value)
      0 D (λ j P, vec_set P (linear_index i A j D) unused_value) P)
      as (P' & E & Hlen' & HP'); [lia | | | ].
    + split; [done |]. intros a d Hg [Hlt | [_ Hlt]]; [by apply HP |].
      unfold on_grid in Hg. lia.
    + intros j Q Hj [HlenQ HQ].
      assert (on_grid A D i j) as Hij by (unfold on_grid; lia).
      rewrite (write_cell A D) by (done || lia).
      eexists. split; [done |]. rewrite length_insert. split; [done |].
      intros a d Hg Hb.
      destruct (decide ((a, d) = (i, j))) as [[= -> ->] | Hne].
      * apply (cell_insert_eq A D); done || lia.
      * rewrite (cell_insert_ne A D) by (done || lia).
        apply HQ; [done |]. destruct Hb as [? | [-> ?]]; [by left |].
        right. split; [done |]. assert (d ≠ j) by congruence. lia.
    + exists P'. split; [done |]. split; [done |].
      intros a d Hg Ha. apply HP'; [done |]. unfold on_grid in Hg. lia.
  - exists P. split; [done |]. split; [done |].
    intros a d Hg. apply HP; [done |]. unfold on_grid in Hg. lia.
Qed.

Lemma set_boundary_spec (P : list Q) :
  Z.of_nat (length P) = grid_size A D →
  (∀ a d, on_grid A D a d → cell A P a d = Some unused_value) →
  ∃ P0, set_boundary A D P = Ok P0
        ∧ Z.of_nat (length P0) = grid_size A D
        ∧ boundary_set A D P0
        ∧ ∀ a d, interior A D a d → cell A P0 a d = Some unused_value.
Proof using HA HD Hfit.
  intros Hlen HP. unfold set_boundary.
  destruct (for_range_inv
    (λ j P, Z.of_nat (length P) = grid_size A D
            ∧ (∀ d, 0 ≤ d < j →
                 cell A P 0 d = Some 0%Q ∧ cell A P 1 d = Some 0%Q)
            ∧ ∀ a d, on_grid A D a d → 2 ≤ a → cell A P a d = Some unused_value)
    0 D (λ j P, P ← vec_set P (linear_index 0 A j D) 0%Q;
                vec_set P (linear_index 1 A j D) 0%Q) P)
    as (P1 & E1 & Hlen1 & Hz1 & Hs1); [lia | | | ].
  - split; [done |]. split; [intros; lia |]. intros a d Hg _. by apply HP.
  - intros j Q Hj (HlenQ & Hz & Hs).
    assert (on_grid A D 0 j) as H0j by (unfold on_grid; lia).
    assert (on_grid A D 1 j) as H1j by (unfold on_grid; lia).
    rewrite (write_cell A D) by (done || lia). cbn [mbind result_bind].
    rewrite (write_cell A D) by (rewrite ?length_insert; done || lia).
    eexists. split; [done |]. rewrite !length_insert. split; [done |]. split.
    + intros d Hd. destruct (decide (d = j)) as [-> | Hne].
      * split.
        -- rewrite (cell_insert_ne A D) by (done || lia).
           apply (cell_insert_eq A D); done || lia.
        -- apply (cell_insert_eq A D); rewrite ?length_insert; done || lia.
      * assert (on_grid A D 0 d) by (unfold on_grid; lia).
        assert (on_grid A D 1 d) by (unfold on_grid; lia).
        rewrite !(cell_insert_ne A D) by (done || lia || congruence).
        apply Hz. lia.
    + intros a d Hg Ha.
      rewrite !(cell_insert_ne A D)
        by (done || lia || (intros [= -> ->]; lia)).
      by apply Hs.
  - rewrite E1. cbn [mbind result_bind].
    destruct (for_range_inv
      (λ i P, Z.of_nat (length P) = grid_size A D
              ∧ (∀ d, 0 ≤ d ≤ D →
                   cell A P 0 d = Some 0%Q ∧ cell A P 1 d = Some 0%Q)
              ∧ (∀ a, 2 ≤ a < i → cell A P a 0 = Some 1%Q)
              ∧ ∀ a d, interior A D a d → cell A P a d = Some unused_value)
      2 A (λ i P, vec_set P (linear_index i A 0 D) 1%Q) P1)
      as (P2 & E2 & Hlen2 & Hz2 & Ho2 & Hs2); [lia | | | ].
    + split; [done |]. split; [intros d Hd; apply Hz1; lia |].
      split; [intros; lia |]. intros a d [Ha Hd]. apply Hs1; [| lia].
      unfold on_grid. lia.
    + intros i Q Hi (HlenQ & Hz & Ho & Hs).
      assert (on_grid A D i 0) as Hi0 by (unfold on_grid; lia).
      rewrite (write_cell A D) by (done || lia).
      eexists. split; [done |]. rewrite length_insert. split; [done |].
      split; [| split].
      * intros d Hd.
        assert (on_grid A D 0 d) by (unfold on_grid; lia).
        assert (on_grid A D 1 d) by (unfold on_grid; lia).
        rewrite !(cell_insert_ne A D)
          by (done || lia || (intros [= <- ->]; lia)).
        by apply Hz.
      * intros a Ha. destruct (decide (a = i)) as [-> | Hne].
        -- apply (cell_insert_eq A D); done || lia.
        -- assert (on_grid A D a 0) by (unfold on_grid; lia).
           rewrite (cell_insert_ne A D) by (done || lia || congruence).
           apply Ho. lia.
      * intros a d [Ha Hd].
        assert (on_grid A D a d) by (unfold on_grid; lia).
        rewrite (cell_insert_ne A D)
          by (done || lia || (intros [= -> ->]; lia)).
        by apply Hs.
    + exists P2. split; [done |]. split; [done |]. split; [| exact Hs2].
      split; [exact Hz2 |]. intros a Ha. apply Ho2. lia.
Qed.

End Initialisation.

(** ** One cell of a pass *)

Lemma create_prob_table_6 :
  create_prob_table uniform_dice_sides = Ok (true, risk_tables).
Proof. vm_compute. reflexivity. Qed.

Lemma add_target_at (A D : Z) (P : list Q) (unused : Q)
    (transitions : list (Z * Z)) (probstable : list (list Q)) (q a d : Z)
    (row : list Q) (k : nat) (delta : Z * Z) (p acc : Q) :
  vec_at probstable q = Ok row →
  transitions !! k = Some delta → row !! k = Some p →
  add_target A D P unused transitions probstable q a d (Z.of_nat k) acc
  = if Qeq_bool p 0 then Ok (Next, acc)
    else x ← vec_at P (linear_index (add a delta.1) A (add d delta.2) D);
         if Qeq_bool x unused then Ok (Break, (-1)%Q)
         else Ok (Next, (acc + p * x)%Q).
Proof.
  intros Hrow Hdelta Hp. unfold add_target.
  rewrite (vec_at_lookup transitions (Z.of_nat k) delta)
    by (rewrite ?Nat2Z.id; done || lia).
  cbn [mbind result_bind]. rewrite Hrow. cbn [mbind result_bind].
  rewrite (vec_at_lookup row (Z.of_nat k) p)
    by (rewrite ?Nat2Z.id; done || lia).
  done.
Qed.

Lemma try_value_scan_from (A D : Z) (P : list Q) (unused : Q)
    (transitions : list (Z * Z)) (probstable : list (list Q)) (q a d : Z)
    (row : list Q) (m : nat) :
  vec_at probstable q = Ok row → length row = length transitions →
  ∀ (k : nat) (acc : Q),
    m = (length transitions - k)%nat →
    for_each_break (seqZ (Z.of_nat k) (Z.of_nat m))
      (add_target A D P unused transitions probstable q a d) acc
    = scan A D P unused a d (zip (drop k row) (drop k transitions)) acc.
Proof.
  intros Hrow Hlen. induction m as [| m IH]; intros k acc Hm.
  - rewrite (drop_ge transitions) by lia. by rewrite zip_with_nil_r.
  - destruct (lookup_lt_is_Some_2 transitions k) as [delta Hdelta]; [lia |].
    destruct (lookup_lt_is_Some_2 row k) as [p Hp]; [lia |].
    rewrite seqZ_cons by lia.
    rewrite (drop_S _ _ _ Hdelta), (drop_S _ _ _ Hp).
    cbn [for_each_break zip zip_with scan fst snd].
    rewrite (add_target_at A D P unused transitions probstable q a d row
               k delta p acc Hrow Hdelta Hp).
    replace (Z.succ (Z.of_nat k)) with (Z.of_nat (S k)) by lia.
    replace (Z.pred (Z.of_nat (S m))) with (Z.of_nat m) by lia.
    destruct (Qeq_bool p 0); cbn [fst snd]; [apply IH; lia |].
    destruct (vec_at P _) as [x | |]; cbn [mbind result_bind]; try done.
    destruct (Qeq_bool x unused); cbn [fst snd]; [done |]. apply IH. lia.
Qed.

Lemma try_value_scan (A D : Z) (P : list Q) (unused : Q)
    (probstable : list (list Q)) (q a d : Z) (row : list Q) :
  vec_at probstable q = Ok row → length row = 5%nat →
  try_value A D P unused outcome_deltas probstable q a d
  = scan A D P unused a d (zip row outcome_deltas) 0%Q.
Proof.
  intros Hrow Hlen.
  exact (try_value_scan_from A D P unused outcome_deltas probstable
           q a d row 5 Hrow Hlen 0%nat 0%Q eq_refl).
Qed.

Section Cell.

Variables A D : Z.
Hypothesis HA : 1 ≤ A.
Hypothesis HD : 1 ≤ D.
Hypothesis Hfit : grid_size A D ≤ INT_MAX.

Variable P : list Q.
Hypothesis HP : Z.of_nat (length P) = grid_size A D.

Lemma target_read (a d : Z) (pd : Q * (Z * Z)) :
  on_grid A D (a + pd.2.1) (d + pd.2.2) →
  ∃ x, vec_at P (linear_index (add a pd.2.1) A (add d pd.2.2) D) = Ok x
       ∧ cell A P (a + pd.2.1) (d + pd.2.2) = Some x.
Proof using HA HD Hfit HP.
  intros Hg. pose proof Hg as [Ha Hd].
  assert (grid_size A D = (1 + A) * D + (1 + A)) as Hsz
    by (unfold grid_size; ring).
  assert (0 ≤ (1 + A) * D) by nia.
  rewrite !add_small by (unfold in_range, INT_MIN, INT_MAX in *; lia).
  destruct (cell_is_Some A D ltac:(lia) ltac:(lia) Hfit P _ _ HP Hg) as [x Hx].
  exists x. split; [| done]. apply (read_cell A D); done || lia.
Qed.

Lemma scan_ok (a d : Z) (l : list (Q * (Z * Z))) (acc : Q) :
  safe A D a d l → ∃ v, scan A D P unused_value a d l acc = Ok v.
Proof using HA HD Hfit HP.
  revert acc. induction l as [| pd l IH]; intros acc Hs; simpl; [eauto |].
  assert (safe A D a d l) as Hs' by (intros pd' ?; apply Hs; by right).
  destruct (Qeq_bool pd.1 0) eqn:Ep; [by apply IH |].
  destruct (target_read a d pd) as (x & -> & _); [apply Hs; [left | done] |].
  simpl. destruct (Qeq_bool x unused_value); [eauto | by apply IH].
Qed.

(** With every needed target determined the loop ends with the sum of
    the recurrence. *)
Lemma scan_determined (a d : Z) (l : list (Q * (Z * Z))) (acc : Q) :
  safe A D a d l →
  (∀ pd, pd ∈ l → Qeq_bool pd.1 0 = false →
         determined A P (a + pd.2.1) (d + pd.2.2)) →
  ∃ v, scan A D P unused_value a d l acc = Ok v
       ∧ (v == acc + Qsum (map (λ pd : Q * (Z * Z),
                Qmult pd.1 (value A P (a + pd.2.1) (d + pd.2.2)))
                (List.filter (λ pd, negb (Qeq_bool pd.1 0)) l)))%Q.
Proof using HA HD Hfit HP.
  revert acc. induction l as [| pd l IH]; intros acc Hs Hdet; simpl.
  - exists acc. split; [done |]. ring.
  - assert (safe A D a d l) as Hs' by (intros pd' ?; apply Hs; by right).
    assert (∀ pd', pd' ∈ l → Qeq_bool pd'.1 0 = false →
              determined A P (a + pd'.2.1) (d + pd'.2.2)) as Hdet'
      by (intros pd' ?; apply Hdet; by right).
    destruct (Qeq_bool pd.1 0) eqn:Ep; simpl; [by apply IH |].
    destruct (target_read a d pd) as (x & -> & Hx); [apply Hs; [left | done] |].
    destruct (Hdet pd) as (x' & Hx' & Ex); [left | done |].
    rewrite Hx in Hx'. injection Hx' as <-. simpl. rewrite Ex.
    destruct (IH (acc + pd.1 * x)%Q Hs' Hdet') as (v & -> & Hv).
    exists v. split; [done |]. rewrite Hv. unfold value. rewrite Hx. simpl.
    ring.
Qed.

(** With a needed target undetermined the loop ends with [-1]. *)
Lemma scan_undetermined (a d : Z) (l : list (Q * (Z * Z))) (acc : Q) :
  safe A D a d l →
  (∃ pd, pd ∈ l ∧ Qeq_bool pd.1 0 = false
         ∧ undetermined A P (a + pd.2.1) (d + pd.2.2)) →
  scan A D P unused_value a d l acc = Ok (-1)%Q.
Proof using HA HD Hfit HP.
  revert acc. induction l as [| pd l IH]; intros acc Hs (pd0 & Hin & Hnz & Hun).
  - by apply elem_of_nil in Hin.
  - assert (safe A D a d l) as Hs' by (intros pd' ?; apply Hs; by right).
    simpl. apply elem_of_cons in Hin as [-> | Hin].
    + rewrite Hnz. destruct Hun as (x & Hx & Ex).
      destruct (target_read a d pd) as (x' & -> & Hx');
        [apply Hs; [left | done] |].
      rewrite Hx in Hx'. injection Hx' as <-. simpl. by rewrite Ex.
    + destruct (Qeq_bool pd.1 0) eqn:Ep; [apply IH; eauto |].
      destruct (target_read a d pd) as (x & -> & Hx);
        [apply Hs; [left | done] |].
      simpl. destruct (Qeq_bool x unused_value); [done |]. apply IH; eauto.
Qed.

(** A loop that does not end with [-1] found every needed target
    determined. *)
Lemma scan_not_undetermined (a d : Z) (l : list (Q * (Z * Z))) (acc v : Q) :
  safe A D a d l → scan A D P unused_value a d l acc = Ok v →
  v ≠ (-1)%Q →
  ∀ pd, pd ∈ l → Qeq_bool pd.1 0 = false →
        determined A P (a + pd.2.1) (d + pd.2.2).
Proof using HA HD Hfit HP.
  intros Hs E Hv pd Hin Hnz.
  destruct (target_read a d pd) as (x & _ & Hx); [by apply Hs |].
  destruct (Qeq_bool x unused_value) eqn:Ex; [| by exists x].
  rewrite (scan_undetermined a d l acc Hs) in E.
  - by injection E as <-.
  - exists pd. split; [done |]. split; [done |]. by exists x.
Qed.

End Cell.

Lemma attacker_dice_cases (a : Z) :
  1 ≤ a ≤ INT_MAX →
  (a = 1 ∧ attacker_dice a = 0) ∨ (a = 2 ∧ attacker_dice a = 1)
  ∨ (a = 3 ∧ attacker_dice a = 2) ∨ (4 ≤ a ∧ attacker_dice a = 3).
Proof.
  intros Ha. rewrite attacker_dice_spec by (unfold INT_MIN; lia). lia.
Qed.

Lemma defender_dice_cases (d : Z) :
  1 ≤ d → (d = 1 ∧ defender_dice d = 1) ∨ (2 ≤ d ∧ defender_dice d = 2).
Proof. intros Hd. rewrite defender_dice_spec. lia. Qed.

(** The row of the table that a cell of a pass uses, and where its
    targets of nonzero probability lie. *)
Lemma config_row (A D a d : Z) :
  1 ≤ a ≤ A → 1 ≤ d ≤ D → A ≤ INT_MAX →
  ∃ row,
    vec_at (probstable risk_tables) (config_index dice_configurations a d)
      = Ok row
    ∧ length row = 5%nat
    ∧ safe A D a d (zip row outcome_deltas)
    ∧ Forall (Qle 0) row
    ∧ (Qsum row == 1)%Q
    ∧ (2 ≤ a →
       vec_at dice_configurations (config_index dice_configurations a d)
         = Ok (attacker_dice a, defender_dice d)).
Proof.
  intros Ha Hd HA. unfold config_index.
  destruct (attacker_dice_cases a) as [[Ea ->] | [[Ea ->] | [[Ea ->] | [Ea ->]]]];
    [lia | | | |];
    (destruct (defender_dice_cases d) as [[Ed ->] | [Ed ->]]; [lia | |]);
    (eexists; split; [vm_compute; reflexivity |]);
    (split; [reflexivity |]);
    (split; [| split; [repeat constructor; discriminate
                      | split; [reflexivity | intros; try lia; reflexivity]]]);
    intros pd Hin Hnz; simpl in Hin;
    rewrite !elem_of_cons, elem_of_nil in Hin;
    destruct Hin as [-> | [-> | [-> | [-> | [-> | []]]]]];
    try discriminate Hnz; unfold on_grid; simpl; lia.
Qed.

Lemma row6_spec (A D a d : Z) :
  1 ≤ a ≤ A → 1 ≤ d ≤ D → A ≤ INT_MAX →
  vec_at (probstable risk_tables) (config_index dice_configurations a d)
    = Ok (row6 a d)
  ∧ length (row6 a d) = 5%nat
  ∧ safe A D a d (zip (row6 a d) outcome_deltas)
  ∧ Forall (Qle 0) (row6 a d)
  ∧ (Qsum (row6 a d) == 1)%Q.
Proof.
  intros Ha Hd HA.
  destruct (config_row A D a d Ha Hd HA) as (row & E & H).
  assert (row6 a d = row) as ->; [| tauto].
  unfold row6. apply vec_at_ok in E as [_ E].
  change (dicetuples risk_tables) with dice_configurations. by rewrite E.
Qed.

Section Visit.

Variables A D : Z.
Hypothesis HA : 1 ≤ A.
Hypothesis HD : 1 ≤ D.
Hypothesis Hfit : grid_size A D ≤ INT_MAX.

Lemma A_int : A ≤ INT_MAX.
Proof using HA HD Hfit. unfold grid_size in Hfit. nia. Qed.

(** What a cell of a pass does, on any grid of the allocated size. *)
Lemma visit_spec (P : list Q) (num a d : Z) :
  Z.of_nat (length P) = grid_size A D → 1 ≤ a ≤ A → 1 ≤ d ≤ D →
  ∃ cur, cell A P a d = Some cur
    ∧ ((Qeq_bool cur unused_value = false
        ∧ visit6 A D a d (P, num) = Ok (P, num))
       ∨ (Qeq_bool cur unused_value = true
          ∧ ∃ v, scan A D P unused_value a d
                   (zip (row6 a d) outcome_deltas) 0%Q = Ok v
              ∧ visit6 A D a d (P, num)
                = Ok (if Qle_bool 0 v
                      then (<[slot A a d := v]> P, add num 1)
                      else (P, num)))).
Proof using HA HD Hfit.
  intros HP Ha Hd. pose proof A_int as HAi.
  assert (on_grid A D a d) as Hg by (unfold on_grid; lia).
  destruct (cell_is_Some A D ltac:(lia) ltac:(lia) Hfit P a d HP Hg)
    as [cur Hcur].
  exists cur. split; [done |].
  unfold visit6, visit. cbn [fst snd].
  rewrite (proj2 (read_cell A D ltac:(lia) ltac:(lia) Hfit P a d cur Hg) Hcur).
  cbn [mbind result_bind].
  destruct (Qeq_bool cur unused_value) eqn:Ecur; cbn [negb]; [right | by left].
  split; [done |].
  destruct (row6_spec A D a d Ha Hd HAi) as (Erow & Hlen & Hsafe & _).
  change (transitions risk_tables) with outcome_deltas.
  fold (config_index (dicetuples risk_tables) a d).
  change (dicetuples risk_tables) with dice_configurations.
  rewrite (try_value_scan A D P unused_value _ _ a d (row6 a d) Erow Hlen).
  destruct (scan_ok A D HA HD Hfit P HP a d _ 0%Q Hsafe) as [v Ev].
  exists v. split; [done |]. rewrite Ev. cbn [mbind result_bind].
  destruct (Qle_bool 0 v); [| done].
  rewrite (write_cell A D) by (done || lia). done.
Qed.

End Visit.

(** ** A pass *)

Lemma update_elements_visits (A D : Z) (P : list Q) :
  update_elements A D P unused_value (dicetuples risk_tables)
    (transitions risk_tables) (probstable risk_tables)
  = for_range 1 A (λ a, for_range 1 D (λ d, visit6 A D a d)) (P, 0).
Proof. reflexivity. Qed.

(** The two loops of a pass establish [I (A + 1) 1] from [I 1 1] when
    every cell carries [I a d] to [I a (d + 1)] and the end of a row
    [I a (D + 1)] is the start [I (a + 1) 1] of the next. *)
Lemma pass_inv (A D : Z) (I : Z → Z → list Q * Z → Prop) (st : list Q * Z) :
  1 ≤ A → 1 ≤ D → I 1 1 st →
  (∀ a d st, 1 ≤ a ≤ A → 1 ≤ d ≤ D → I a d st →
     ∃ st', visit6 A D a d st = Ok st' ∧ I a (d + 1) st') →
  (∀ a st, 1 ≤ a ≤ A → I a (D + 1) st → I (a + 1) 1 st) →
  ∃ st', for_range 1 A (λ a, for_range 1 D (λ d, visit6 A D a d)) st = Ok st'
         ∧ I (A + 1) 1 st'.
Proof.
  intros HA HD H0 Hcell Hrow.
  apply (for_range_inv (λ a st, I a 1 st)); [lia | done |].
  intros a s Ha Hs.
  destruct (for_range_inv (λ d st, I a d st) 1 D (λ d, visit6 A D a d) s)
    as (s' & E & Hs'); [lia | done | |].
  - intros d t Hd Ht. by apply Hcell.
  - exists s'. split; [done |]. by apply Hrow.
Qed.

Lemma nonneg_not_sentinel (v : Q) :
  Qle_bool 0 v = true → Qeq_bool v unused_value = false.
Proof.
  intros Hv. apply Qle_bool_iff in Hv.
  destruct (Qeq_bool v unused_value) eqn:E; [| done].
  apply Qeq_bool_iff in E. unfold unused_value in E. lra.
Qed.

Section Pass.

Variables A D : Z.
Hypothesis HA : 1 ≤ A.
Hypothesis HD : 1 ≤ D.
Hypothesis Hfit : grid_size A D ≤ INT_MAX.

(** What a cell of a pass does to the grid: nothing, or it determines
    its own undetermined entry, every needed target being determined. *)
Lemma visit_effect (P : list Q) (num a d : Z) :
  Z.of_nat (length P) = grid_size A D → 1 ≤ a ≤ A → 1 ≤ d ≤ D →
  ∃ st', visit6 A D a d (P, num) = Ok st'
    ∧ (st' = (P, num)
       ∨ ∃ v, st' = (<[slot A a d := v]> P, add num 1)
              ∧ undetermined A P a d
              ∧ Qle_bool 0 v = true
              ∧ (∀ pd, pd ∈ needed (row6 a d) outcome_deltas →
                   determined A P (a + pd.2.1) (d + pd.2.2))
              ∧ (v == expected (value A P) (row6 a d) outcome_deltas a d)%Q).
Proof using HA HD Hfit.
  intros HP Ha Hd.
  destruct (visit_spec A D HA HD Hfit P num a d HP Ha Hd)
    as (cur & Hcur & [[Ecur ->] | (Ecur & v & Ev & ->)]); [eauto | ].
  destruct (Qle_bool 0 v) eqn:Hv; [| eauto].
  eexists. split; [done |]. right. exists v. split; [done |].
  split; [by exists cur |]. split; [done |].
  destruct (row6_spec A D a d Ha Hd (A_int A D HA HD Hfit))
    as (_ & _ & Hsafe & _).
  assert (v ≠ (-1)%Q) as Hne by (intros ->; done).
  pose proof (scan_not_undetermined A D HA HD Hfit P HP a d _ _ _ Hsafe Ev Hne)
    as Hdet.
  assert (∀ pd, pd ∈ zip (row6 a d) outcome_deltas →
            Qeq_bool pd.1 0 = false →
            determined A P (a + pd.2.1) (d + pd.2.2)) as Hdet' by done.
  split.
  - intros pd Hin. unfold needed in Hin.
    apply list_elem_of_In, filter_In in Hin as [Hin Hnz].
    apply Hdet; [by apply list_elem_of_In |].
    by destruct (Qeq_bool pd.1 0).
  - destruct (scan_determined A D HA HD Hfit P HP a d _ 0%Q Hsafe Hdet')
      as (v' & Ev' & Hv').
    rewrite Ev in Ev'. injection Ev' as <-.
    rewrite Hv'. unfold expected, needed. ring.
Qed.

(** A pass on any grid of the allocated size succeeds and leaves the
    determined entries as they are. *)
Lemma pass_keeps_determined (P : list Q) :
  Z.of_nat (length P) = grid_size A D →
  ∃ st', update_elements A D P unused_value (dicetuples risk_tables)
           (transitions risk_tables) (probstable risk_tables) = Ok st'
    ∧ Z.of_nat (length st'.1) = grid_size A D
    ∧ ∀ a d, on_grid A D a d → determined A P a d →
             cell A st'.1 a d = cell A P a d.
Proof using HA HD Hfit.
  intros HP. rewrite update_elements_visits.
  destruct (pass_inv A D
    (λ _ _ st, Z.of_nat (length st.1) = grid_size A D
               ∧ ∀ a d, on_grid A D a d → determined A P a d →
                        cell A st.1 a d = cell A P a d) (P, 0))
    as (st' & E & H); [done | done | done | | done | eauto].
  intros a d [Pc n] Ha Hd [Hlen Hkeep]. simpl in Hlen, Hkeep.
  destruct (visit_effect Pc n a d Hlen Ha Hd)
    as (st' & E & [-> | (v & -> & Hun & _)]); [eauto |].
  eexists. split; [done |]. simpl. rewrite length_insert. split; [done |].
  intros a' d' Hg Hdet.
  rewrite (cell_insert_ne A D) ; [by apply Hkeep | lia | lia | | done |].
  - unfold on_grid. lia.
  - intros [= -> ->]. destruct Hun as (x & Hx & Ex).
    rewrite (Hkeep _ _ Hg Hdet) in Hx.
    destruct Hdet as (y & Hy & Ey). congruence.
Qed.

End Pass.

(** ** The recurrence *)

Lemma Qsum_nonneg (l : list Q) : Forall (Qle 0) l → (0 <= Qsum l)%Q.
Proof. induction 1; simpl; lra. Qed.

Lemma needed_zip (row : list Q) (deltas : list (Z * Z)) (pd : Q * (Z * Z)) :
  pd ∈ needed row deltas ↔
  pd ∈ zip row deltas ∧ Qeq_bool pd.1 0 = false.
Proof.
  unfold needed. rewrite !list_elem_of_In, filter_In.
  destruct (Qeq_bool pd.1 0); simpl; intuition congruence.
Qed.

Lemma expected_ext (g g' : Z → Z → Q) row deltas (a d : Z) :
  (∀ pd, pd ∈ needed row deltas →
         g (a + pd.2.1) (d + pd.2.2) = g' (a + pd.2.1) (d + pd.2.2)) →
  expected g row deltas a d = expected g' row deltas a d.
Proof.
  intros H. unfold expected. f_equal. apply map_ext_in.
  intros pd Hin. rewrite H; [done | by apply list_elem_of_In].
Qed.

Lemma expected_nonneg (g : Z → Z → Q) row deltas (a d : Z) :
  Forall (Qle 0) row →
  (∀ pd, pd ∈ needed row deltas → Qle 0 (g (a + pd.2.1) (d + pd.2.2))) →
  (0 <= expected g row deltas a d)%Q.
Proof.
  intros Hrow Hg. unfold expected. apply Qsum_nonneg.
  apply Forall_forall. intros x Hx.
  apply list_elem_of_In, in_map_iff in Hx as (pd & <- & Hin).
  apply list_elem_of_In in Hin. pose proof (Hg pd Hin) as Hv.
  apply needed_zip in Hin as [Hin _]. destruct pd as [p delta].
  apply elem_of_zip_l in Hin. simpl in *.
  rewrite Forall_forall in Hrow. specialize (Hrow _ Hin).
  apply Qmult_le_0_compat; done.
Qed.

Lemma delta_before (delta : Z * Z) (a d : Z) :
  delta ∈ outcome_deltas → before (a + delta.1) (d + delta.2) a d.
Proof.
  unfold outcome_deltas. rewrite !elem_of_cons, elem_of_nil.
  intros [-> | [-> | [-> | [-> | [-> | []]]]]]; unfold before; simpl; lia.
Qed.

Lemma before_trans (a1 d1 a2 d2 a3 d3 : Z) :
  before a1 d1 a2 d2 → before a2 d2 a3 d3 ∨ (a2, d2) = (a3, d3) →
  before a1 d1 a3 d3.
Proof. unfold before. intros H [H' | [= -> ->]]; lia. Qed.

Lemma before_irrefl (a d : Z) : ¬ before a d a d.
Proof. unfold before. lia. Qed.

(** ** The first pass determines every interior state *)

Section FirstPass.

Variables A D : Z.
Hypothesis HA : 2 ≤ A.
Hypothesis HD : 1 ≤ D.
Hypothesis Hfit : grid_size A D ≤ INT_MAX.

(** Every state visited earlier holds a non-negative value. *)
Lemma arriving_settled (a d : Z) (st : list Q * Z) (ta td : Z) :
  arriving A D a d st → on_grid A D ta td → before ta td a d →
  ∃ x, cell A st.1 ta td = Some x ∧ (0 <= x)%Q.
Proof using HA HD.
  intros (_ & [Hz Ho] & Hsol & _) [Hta Htd] Hb.
  destruct (decide (ta ≤ 1)) as [Hle | Hgt].
  - destruct (Hz td Htd) as [H0 H1].
    assert (ta = 0 ∨ ta = 1) as [-> | ->] by lia; eexists; split; done.
  - destruct (decide (td = 0)) as [-> | Hne].
    + exists 1%Q. split; [apply Ho; lia | done].
    + destruct (Hsol ta td) as (v & Hv & Hpos & _);
        [unfold interior; lia | done | eauto].
Qed.

Lemma insert_expected (P : list Q) (a d a' d' : Z) (v : Q) :
  1 ≤ a' ≤ A → 1 ≤ d' ≤ D → on_grid A D a d →
  before a' d' a d ∨ (a', d') = (a, d) →
  expected (value A (<[slot A a d := v]> P)) (row6 a' d') outcome_deltas a' d'
  = expected (value A P) (row6 a' d') outcome_deltas a' d'.
Proof using HA HD Hfit.
  intros Ha' Hd' Hg Hb. apply expected_ext. intros [p delta] Hin.
  apply needed_zip in Hin as [Hin Hnz].
  destruct (row6_spec A D a' d' Ha' Hd' (A_int A D ltac:(lia) HD Hfit))
    as (_ & _ & Hsafe & _).
  pose proof (Hsafe _ Hin Hnz) as Ht.
  apply elem_of_zip_r in Hin. simpl in *.
  pose proof (delta_before delta a' d' Hin) as Hlt.
  pose proof (before_trans _ _ _ _ _ _ Hlt Hb) as Hlt'.
  unfold value. rewrite (cell_insert_ne A D); [done | lia | lia | done | done |].
  intros [= E1 E2]. rewrite E1, E2 in Hlt'. by apply before_irrefl in Hlt'.
Qed.

Lemma first_pass_cell (a d : Z) (st : list Q * Z) :
  1 ≤ a ≤ A → 1 ≤ d ≤ D → arriving A D a d st →
  ∃ st', visit6 A D a d st = Ok st' ∧ arriving A D a (d + 1) st'.
Proof using HA HD Hfit.
  intros Ha Hd Harr. pose proof Harr as (Hlen & [Hz Ho] & Hsol & Hsen & Hn).
  destruct st as [P n]. simpl in Hlen, Hz, Ho, Hsol, Hsen, Hn.
  assert (1 ≤ A) as HA1 by lia.
  pose proof (A_int A D HA1 HD Hfit) as HAi.
  assert (on_grid A D a d) as Hg by (unfold on_grid; lia).
  destruct (visit_spec A D HA1 HD Hfit P n a d Hlen Ha Hd)
    as (cur & Hcur & [[Ecur ->] | (Ecur & v & Ev & ->)]).
  - (* the entry is determined: this is the row [a = 1] *)
    assert (a = 1) as ->.
    { destruct (decide (a = 1)) as [-> | Hne]; [done |].
      rewrite Hsen in Hcur; [| unfold interior; lia | apply before_irrefl].
      injection Hcur as <-. done. }
    eexists. split; [done |]. unfold arriving. simpl.
    split; [done |]. split; [done |]. split; [| split].
    + intros a' d' [Ha' Hd'] Hb. unfold before in Hb. lia.
    + intros a' d' Hi _. apply Hsen; [done |].
      destruct Hi. unfold before. lia.
    + done.
  - (* the entry is undetermined: this is an interior state *)
    assert (2 ≤ a) as Ha2.
    { destruct (decide (a = 1)) as [-> | Hne]; [| lia].
      destruct (Hz d) as [_ H1]; [lia |]. rewrite H1 in Hcur.
      injection Hcur as <-. done. }
    destruct (row6_spec A D a d Ha Hd HAi) as (_ & _ & Hsafe & Hrow & _).
    assert (∀ pd, pd ∈ zip (row6 a d) outcome_deltas →
              Qeq_bool pd.1 0 = false →
              ∃ x, cell A P (a + pd.2.1) (d + pd.2.2) = Some x ∧ (0 <= x)%Q)
      as Htargets.
    { intros [p delta] Hin Hnz. pose proof (Hsafe _ Hin Hnz) as Ht.
      apply elem_of_zip_r in Hin.
      apply (arriving_settled a d (P, n) _ _ Harr Ht).
      by apply delta_before. }
    destruct (scan_determined A D HA1 HD Hfit P Hlen a d _ 0%Q Hsafe)
      as (v' & Ev' & Hv').
    { intros pd Hin Hnz. destruct (Htargets pd Hin Hnz) as (x & Hx & Hpos).
      exists x. split; [done |]. apply nonneg_not_sentinel.
      by apply Qle_bool_iff. }
    rewrite Ev in Ev'. injection Ev' as <-.
    assert (v == expected (value A P) (row6 a d) outcome_deltas a d)%Q as Hv.
    { rewrite Hv'. unfold expected, needed. ring. }
    assert (0 <= v)%Q as Hpos.
    { rewrite Hv. apply expected_nonneg; [done |].
      intros pd [Hin Hnz]%needed_zip.
      destruct (Htargets pd Hin Hnz) as (x & Hx & Hpos).
      unfold value. by rewrite Hx. }
    rewrite (proj2 (Qle_bool_iff 0 v) Hpos).
    eexists. split; [done |]. unfold arriving. simpl.
    rewrite length_insert. split; [done |]. split; [split |]; [| | split; [| split]].
    + intros d' Hd'.
      rewrite !(cell_insert_ne A D)
        by (done || lia || (unfold on_grid; lia) || (intros [= ? ?]; lia)).
      by apply Hz.
    + intros a' Ha'.
      rewrite !(cell_insert_ne A D)
        by (done || lia || (unfold on_grid; lia) || (intros [= ? ?]; lia)).
      by apply Ho.
    + intros a' d' Hi Hb. pose proof Hi as [Ha' Hd'].
      destruct (decide ((a', d') = (a, d))) as [[= -> ->] | Hne].
      * exists v. split; [apply (cell_insert_eq A D); done || lia |].
        split; [done |].
        rewrite insert_expected by (done || lia || by right). done.
      * assert (before a' d' a d) as Hb'.
        { unfold before in *.
          destruct (decide (a' = a)) as [-> | ?]; [| lia].
          right. split; [done |].
          assert (d' ≠ d) by congruence. lia. }
        destruct (Hsol a' d' Hi Hb') as (x & Hx & Hx0 & Hxe).
        exists x.
        rewrite (cell_insert_ne A D)
          by (done || lia || (unfold on_grid; lia)).
        split; [done |]. split; [done |].
        rewrite insert_expected by (done || lia || by left). done.
    + intros a' d' Hi Hnb. pose proof Hi as [Ha' Hd'].
      rewrite (cell_insert_ne A D);
        [| lia | lia | done | unfold on_grid; lia |].
      * apply Hsen; [done |]. unfold before in *. lia.
      * intros [= -> ->]. apply Hnb. unfold before. lia.
    + rewrite Hn. unfold done_count.
      destruct (Z.ltb_spec a 2) as [? | _]; [lia |].
      unfold grid_size in Hfit.
      rewrite add_small by (unfold in_range, INT_MIN, INT_MAX in *; nia).
      lia.
Qed.

Lemma first_pass_row (a : Z) (st : list Q * Z) :
  1 ≤ a ≤ A → arriving A D a (D + 1) st → arriving A D (a + 1) 1 st.
Proof using HD.
  intros Ha (Hlen & Hb & Hsol & Hsen & Hn).
  split; [done |]. split; [done |]. split; [| split].
  - intros a' d' Hi Hlt. apply Hsol; [done |].
    destruct Hi. unfold before in *. lia.
  - intros a' d' Hi Hlt. apply Hsen; [done |].
    destruct Hi. unfold before in *. lia.
  - rewrite Hn. unfold done_count.
    destruct (Z.ltb_spec a 2), (Z.ltb_spec (a + 1) 2); nia.
Qed.

Lemma first_pass (P0 : list Q) :
  Z.of_nat (length P0) = grid_size A D → boundary_set A D P0 →
  (∀ a d, interior A D a d → cell A P0 a d = Some unused_value) →
  ∃ P1, update_elements A D P0 unused_value (dicetuples risk_tables)
          (transitions risk_tables) (probstable risk_tables)
        = Ok (P1, (A - 1) * D)
        ∧ solution A D P1.
Proof using HA HD Hfit.
  intros Hlen Hb Hsen. rewrite update_elements_visits.
  destruct (pass_inv A D (arriving A D) (P0, 0))
    as ([P1 n] & E & Hlen1 & Hb1 & Hsol1 & _ & Hn);
    [lia | done | | apply first_pass_cell | apply first_pass_row |].
  - split; [done |]. split; [done |]. split; [| split].
    + intros a d [Ha Hd]. unfold before. lia.
    + intros a d Hi _. by apply Hsen.
    + done.
  - simpl in *. exists P1. split.
    + rewrite E. do 2 f_equal. rewrite Hn. unfold done_count.
      destruct (Z.ltb_spec (A + 1) 2); nia.
    + split; [done |]. split; [done |].
      intros a d Hi. apply Hsol1; [done |]. destruct Hi. unfold before. lia.
Qed.

End FirstPass.

(** ** The passes and the output *)

Lemma collect_map {X Y} (xs : list X) (f : X → result Y) (g : X → Y) :
  (∀ x, x ∈ xs → f x = Ok (g x)) → collect xs f = Ok (map g xs).
Proof.
  induction xs as [| x xs IH]; intros H; simpl; [done |].
  rewrite H by left. simpl. rewrite IH; [done |].
  intros y Hy. apply H. by right.
Qed.

Lemma entry_rows_of (A D : Z) (P : list Q) (a d : Z) :
  on_grid A D a d → entry (rows_of A D P) a d = value A P a d.
Proof.
  intros [Ha Hd]. unfold entry, rows_of.
  rewrite list_lookup_fmap, lookup_seqZ_lt by lia. simpl.
  rewrite list_lookup_fmap, lookup_seqZ_lt by lia. simpl.
  f_equal; lia.
Qed.

Section Solve.

Variables A D : Z.
Hypothesis HA : 2 ≤ A.
Hypothesis HD : 1 ≤ D.
Hypothesis Hfit : grid_size A D ≤ INT_MAX.

Lemma solution_determined (P : list Q) (a d : Z) :
  solution A D P → on_grid A D a d →
  ∃ x, cell A P a d = Some x ∧ (0 <= x)%Q.
Proof using HA HD.
  intros (_ & [Hz Ho] & Hsol) [Ha Hd].
  destruct (decide (a ≤ 1)) as [Hle | Hgt].
  - destruct (Hz d Hd) as [H0 H1].
    assert (a = 0 ∨ a = 1) as [-> | ->] by lia; eexists; split; done.
  - destruct (decide (d = 0)) as [-> | Hne].
    + exists 1%Q. split; [apply Ho; lia | done].
    + destruct (Hsol a d) as (v & Hv & Hpos & _); [unfold interior; lia |].
      eauto.
Qed.

(** A pass over a complete grid changes nothing. *)
Lemma idle_pass (P : list Q) :
  solution A D P →
  update_elements A D P unused_value (dicetuples risk_tables)
    (transitions risk_tables) (probstable risk_tables) = Ok (P, 0).
Proof using HA HD Hfit.
  intros Hsol. pose proof Hsol as (Hlen & _). rewrite update_elements_visits.
  destruct (pass_inv A D (λ _ _ st, st = (P, 0)) (P, 0))
    as (st' & E & ->); [lia | done | done | | done | done].
  intros a d st Ha Hd ->.
  destruct (visit_spec A D ltac:(lia) HD Hfit P 0 a d Hlen Ha Hd)
    as (cur & Hcur & [[Ecur ->] | (Ecur & _)]); [eauto |].
  destruct (solution_determined P a d Hsol) as (x & Hx & Hpos);
    [unfold on_grid; lia |].
  rewrite Hx in Hcur. injection Hcur as <-.
  apply Qle_bool_iff, nonneg_not_sentinel in Hpos. congruence.
Qed.

Lemma interior_count : mul (sub A 1) D = (A - 1) * D ∧ 0 < (A - 1) * D
                       ∧ (A - 1) * D ≤ INT_MAX.
Proof using HA HD Hfit.
  unfold grid_size in Hfit.
  rewrite sub_small by (unfold in_range, INT_MIN, INT_MAX in *; nia).
  rewrite mul_small by (unfold in_range, INT_MIN, INT_MAX in *; nia).
  nia.
Qed.

(** The passes from the initial grid: two passes, the first one
    determining all [(A - 1) * D] interior states. *)
Lemma relax_spec (P0 : list Q) :
  Z.of_nat (length P0) = grid_size A D → boundary_set A D P0 →
  (∀ a d, interior A D a d → cell A P0 a d = Some unused_value) →
  ∃ P1, solution A D P1
        ∧ ∀ fuel, relax fuel A D P0 risk_tables 0 0
                  = if (fuel <? 2)%nat then OutOfFuel
                    else Ok (P1, (A - 1) * D, 2).
Proof using HA HD Hfit.
  intros Hlen Hb Hsen.
  destruct (first_pass A D HA HD Hfit P0 Hlen Hb Hsen) as (P1 & E1 & Hsol).
  pose proof (idle_pass P1 Hsol) as E2.
  pose proof interior_count as (_ & Hpos & Hmax).
  exists P1. split; [done |].
  intros [| [| fuel]]; cbn [relax]; [done | |].
  - rewrite E1. cbn [mbind result_bind fst snd].
    destruct (Z.eqb_spec ((A - 1) * D) 0); [lia | done].
  - rewrite E1. cbn [mbind result_bind fst snd].
    destruct (Z.eqb_spec ((A - 1) * D) 0) as [? | _]; [lia |].
    rewrite E2. cbn [mbind result_bind fst snd Z.eqb].
    rewrite (add_small 0) by (unfold in_range, INT_MIN, INT_MAX in *; lia).
    done.
Qed.

Lemma print_grid_spec (P : list Q) :
  Z.of_nat (length P) = grid_size A D →
  print_grid A D P = Ok (rows_of A D P).
Proof using HA HD Hfit.
  intros Hlen. unfold print_grid, rows_of.
  apply collect_map. intros a Ha%elem_of_seqZ.
  apply collect_map. intros d Hd%elem_of_seqZ.
  assert (on_grid A D a d) as Hg by (unfold on_grid; lia).
  destruct (cell_is_Some A D ltac:(lia) ltac:(lia) Hfit P a d Hlen Hg)
    as [x Hx].
  unfold value. rewrite Hx. simpl.
  by apply (read_cell A D ltac:(lia) ltac:(lia) Hfit).
Qed.

(** The solver on a grid that fits: the initial grid with its boundary
    conditions, the complete grid after the passes, and the output. *)
Lemma dp_mode_spec :
  ∃ P P0 P1,
    sentinel_grid A D = Ok P
    ∧ set_boundary A D P = Ok P0
    ∧ Z.of_nat (length P0) = grid_size A D
    ∧ boundary_set A D P0
    ∧ (∀ a d, interior A D a d → cell A P0 a d = Some unused_value)
    ∧ solution A D P1
    ∧ (∀ fuel, relax fuel A D P0 risk_tables 0 0
               = if (fuel <? 2)%nat then OutOfFuel
                 else Ok (P1, (A - 1) * D, 2))
    ∧ ∀ fuel, dp_mode fuel A D
              = if (fuel <? 2)%nat then OutOfFuel
                else Ok (Grid (rows_of A D P1)).
Proof using HA HD Hfit.
  destruct (sentinel_grid_spec A D ltac:(lia) ltac:(lia) Hfit)
    as (P & EP & HlenP & HP).
  destruct (set_boundary_spec A D ltac:(lia) ltac:(lia) Hfit P HlenP HP)
    as (P0 & EP0 & Hlen0 & Hb0 & Hs0).
  destruct (relax_spec P0 Hlen0 Hb0 Hs0) as (P1 & Hsol & Erelax).
  exists P, P0, P1. repeat (split; [done |]).
  intros fuel. unfold dp_mode. rewrite EP. cbn [mbind result_bind].
  rewrite EP0. cbn [mbind result_bind].
  rewrite create_prob_table_6. cbn [mbind result_bind fst snd negb].
  rewrite Erelax. destruct (fuel <? 2)%nat; [done |].
  cbn [mbind result_bind].
  destruct interior_count as (-> & _). rewrite Z.eqb_refl. cbn [negb].
  destruct Hsol as (Hlen1 & _).
  rewrite (print_grid_spec P1 Hlen1). done.
Qed.

End Solve.

(** ** Grids that do not fit an [int] *)

Lemma mul_add_wrap (A D : Z) : mul (add 1 A) (add 1 D) = wrap (grid_size A D).
Proof.
  unfold mul, add, grid_size.
  destruct (wrap_eqm (1 + A)) as [k1 ->]. destruct (wrap_eqm (1 + D)) as [k2 ->].
  apply (wrap_eqm_inv _ _
           (k1 * (1 + D) + k2 * (1 + A) + 4294967296 * k1 * k2)).
  ring.
Qed.

Lemma linear_index_wrap (a A d D : Z) :
  linear_index a A d D = wrap ((1 + A) * d + a).
Proof.
  unfold linear_index, mul, add.
  destruct (wrap_eqm (1 + A)) as [k1 ->].
  destruct (wrap_eqm ((1 + A + 4294967296 * k1) * d)) as [k2 ->].
  apply (wrap_eqm_inv _ _ (k1 * d + k2)). ring.
Qed.

(** A counted loop fails when one of its turns fails on every state that
    the earlier turns can leave. *)
Lemma for_range_fault {S} (I : S → Prop) (lo hi k : Z)
    (body : Z → S → result S) (s : S) :
  lo ≤ k ≤ hi → I s →
  (∀ i s s', lo ≤ i < k → I s → body i s = Ok s' → I s') →
  (∀ s s', I s → body k s ≠ Ok s') →
  ∀ s', for_range lo hi body s ≠ Ok s'.
Proof.
  intros Hk. remember (Z.to_nat (k - lo)) as n eqn:En.
  revert lo s Hk En. induction n as [| n IH]; intros lo s Hk En H0 Hpre Hk' s'.
  - assert (lo = k) as -> by lia.
    rewrite for_range_cons by lia. intros (s1 & E1 & _)%bind_ok.
    by apply (Hk' s s1).
  - rewrite for_range_cons by lia. intros (s1 & E1 & E2)%bind_ok.
    apply (IH (lo + 1) s1) in E2; [done | lia | lia | | | done].
    + apply (Hpre lo s); [lia | done | done].
    + intros i t t' Hi. apply Hpre. lia.
Qed.

Lemma fill_row_length (A D i : Z) (P P' : list Q) :
  for_range 0 D (λ j P, vec_set P (linear_index i A j D) unused_value) P = Ok P' →
  length P' = length P.
Proof.
  apply (for_each_preserves (λ Q : list Q, length Q = length P)); [done |].
  intros j Q Q' _ HQ (_ & ->)%vec_set_inv. by rewrite length_insert.
Qed.

(** When [(1 + A) * (1 + D)] exceeds [INT_MAX] the program has no grid:
    the size wraps, and either the allocation fails or the
    initialisation writes beyond the vector. *)
Lemma sentinel_grid_overflow (A D : Z) (P : list Q) :
  0 ≤ A → 0 ≤ D → INT_MAX < grid_size A D → sentinel_grid A D ≠ Ok P.
Proof.
  intros HA HD Hbig. unfold sentinel_grid. rewrite mul_add_wrap.
  set (sz := wrap (grid_size A D)).
  pose proof (wrap_in_range (grid_size A D)) as Hsz. fold sz in Hsz.
  unfold vec_alloc. destruct (Z.ltb_spec sz 0) as [? | Hpos]; [done |].
  cbn [mbind result_bind].
  assert (sz < grid_size A D) as Hlt by (unfold in_range in Hsz; lia).
  assert (0 < 1 + A) as HA1 by lia.
  pose proof (Z.div_mod sz (1 + A) ltac:(lia)) as Hdm.
  pose proof (Z.mod_pos_bound sz (1 + A) HA1) as Hmod.
  assert (0 ≤ sz / (1 + A)) as Hdiv0 by (apply Z.div_pos; lia).
  assert (sz / (1 + A) ≤ D) as Hdiv.
  { unfold grid_size in Hlt. apply Z.lt_succ_r.
    apply Z.div_lt_upper_bound; lia. }
  apply (for_range_fault
           (λ Q : list Q, Z.of_nat (length Q) = sz) 0 A (sz mod (1 + A))
           (λ i, for_range 0 D (λ j P,
              vec_set P (linear_index i A j D) unused_value))).
  - lia.
  - rewrite length_replicate. lia.
  - intros i Q Q' _ HQ E. apply fill_row_length in E. lia.
  - intros R0 R0' HQ.
    apply (for_range_fault
             (λ Q : list Q, Z.of_nat (length Q) = sz) 0 D (sz / (1 + A))
             (λ j P, vec_set P (linear_index (sz mod (1 + A)) A j D)
                       unused_value)).
    + lia.
    + done.
    + intros j R R' _ HR (_ & ->)%vec_set_inv. by rewrite length_insert.
    + intros R R' HR (Hidx & _)%vec_set_inv.
      rewrite linear_index_wrap in Hidx.
      replace ((1 + A) * (sz / (1 + A)) + sz mod (1 + A)) with sz in Hidx
        by lia.
      rewrite wrap_id in Hidx by done. lia.
Qed.

(** ** The program *)

Lemma simulation_mode_not_grid fuel rolls A D N rows :
  simulation_mode fuel rolls A D N ≠ Ok (Grid rows).
Proof.
  unfold simulation_mode. by intros (n & _ & [=])%bind_ok.
Qed.

(** A run that prints a grid is a run of the solver on a grid that
    fits, with its two passes. *)
Lemma main_grid fuel rolls argc arg1 arg2 arg3 (rows : list (list Q)) :
  main fuel rolls argc arg1 arg2 arg3 = Ok (Grid rows) →
  let A := wrap arg1 in
  let D := wrap arg2 in
  2 ≤ A ∧ 1 ≤ D ∧ grid_size A D ≤ INT_MAX
  ∧ dp_mode fuel A D = Ok (Grid rows).
Proof.
  intros E A D. unfold main in E. fold A D in E.
  destruct (negb (argc =? 3) && negb (argc =? 4)); [done |].
  destruct (Z.ltb_spec A 2); [done |]. destruct (Z.ltb_spec D 1); [done |].
  cbn [orb] in E.
  destruct (_ >=? 1); [by apply simulation_mode_not_grid in E |].
  repeat (split; [lia |]). split; [| done].
  destruct (Z.le_gt_cases (grid_size A D) INT_MAX) as [Hfit | Hbig]; [done |].
  unfold dp_mode in E. apply bind_ok in E as (P & EP & _).
  apply sentinel_grid_overflow in EP; (done || lia).
Qed.

(** ** The recurrence, configuration by configuration *)

Lemma row6_cases (a d : Z) :
  2 ≤ a ≤ INT_MAX → 1 ≤ d →
  (a = 2 ∧ d = 1 →
     needed (row6 a d) outcome_deltas
     = [((21 # 36)%Q, (-1, 0)); ((15 # 36)%Q, (0, -1))])
  ∧ (a = 3 ∧ d = 1 →
     needed (row6 a d) outcome_deltas
     = [((91 # 216)%Q, (-1, 0)); ((125 # 216)%Q, (0, -1))])
  ∧ (4 ≤ a ∧ d = 1 →
     needed (row6 a d) outcome_deltas
     = [((441 # 1296)%Q, (-1, 0)); ((855 # 1296)%Q, (0, -1))])
  ∧ (a = 2 ∧ 2 ≤ d →
     needed (row6 a d) outcome_deltas
     = [((161 # 216)%Q, (-1, 0)); ((55 # 216)%Q, (0, -1))])
  ∧ (a = 3 ∧ 2 ≤ d →
     needed (row6 a d) outcome_deltas
     = [((581 # 1296)%Q, (-2, 0)); ((420 # 1296)%Q, (-1, -1));
        ((295 # 1296)%Q, (0, -2))])
  ∧ (4 ≤ a ∧ 2 ≤ d →
     needed (row6 a d) outcome_deltas
     = [((2275 # 7776)%Q, (-2, 0)); ((2611 # 7776)%Q, (-1, -1));
        ((2890 # 7776)%Q, (0, -2))]).
Proof.
  intros Ha Hd. unfold row6, config_index.
  destruct (attacker_dice_cases a) as [[? ->] | [[? ->] | [[? ->] | [? ->]]]];
    [lia | ..];
    (destruct (defender_dice_cases d) as [[? ->] | [? ->]]; [lia | ..]);
    repeat split; intros [Ea Ed]; try lia; reflexivity.
Qed.

(** ** Monotonicity of the solution of the recurrence *)

Section Monotone.

Variables A D : Z.
Variable g : Z → Z → Q.
Hypothesis HA : A ≤ INT_MAX.
Hypothesis Hzero : ∀ a d, a = 0 ∨ a = 1 → 0 ≤ d ≤ D → (g a d == 0)%Q.
Hypothesis Hone : ∀ a d, 2 ≤ a ≤ A → d = 0 → (g a d == 1)%Q.
Hypothesis Hrec : ∀ a d, interior A D a d →
  (g a d == expected g (row6 a d) outcome_deltas a d)%Q.

(** The recurrence at [(a, d)], with names for the neighbours. *)
Lemma recurrence (a d a1 a2 d1 d2 : Z) :
  interior A D a d → a1 = a - 1 → a2 = a - 2 → d1 = d - 1 → d2 = d - 2 →
  (a = 2 ∧ d = 1 → (g a d == (21 # 36) * g a1 d + (15 # 36) * g a d1)%Q)
  ∧ (a = 3 ∧ d = 1 → (g a d == (91 # 216) * g a1 d + (125 # 216) * g a d1)%Q)
  ∧ (4 ≤ a ∧ d = 1 →
       (g a d == (441 # 1296) * g a1 d + (855 # 1296) * g a d1)%Q)
  ∧ (a = 2 ∧ 2 ≤ d → (g a d == (161 # 216) * g a1 d + (55 # 216) * g a d1)%Q)
  ∧ (a = 3 ∧ 2 ≤ d →
       (g a d == (581 # 1296) * g a2 d + (420 # 1296) * g a1 d1
                 + (295 # 1296) * g a d2)%Q)
  ∧ (4 ≤ a ∧ 2 ≤ d →
       (g a d == (2275 # 7776) * g a2 d + (2611 # 7776) * g a1 d1
                 + (2890 # 7776) * g a d2)%Q).
Proof using HA Hrec.
  intros Hi -> -> -> ->. pose proof (Hrec a d Hi) as E.
  destruct Hi as [Ha Hd].
  destruct (row6_cases a d ltac:(lia) ltac:(lia))
    as (R1 & R2 & R3 & R4 & R5 & R6).
  unfold expected in E.
  replace (a - 1) with (a + -1) by lia. replace (a - 2) with (a + -2) by lia.
  replace (d - 1) with (d + -1) by lia. replace (d - 2) with (d + -2) by lia.
  repeat split; intros Hc;
    [rewrite (R1 Hc) in E | rewrite (R2 Hc) in E | rewrite (R3 Hc) in E
    | rewrite (R4 Hc) in E | rewrite (R5 Hc) in E | rewrite (R6 Hc) in E];
    cbn [map Qsum foldr fst snd] in E; rewrite ?Z.add_0_r in E;
    rewrite E; ring.
Qed.

Ltac use_boundary x y :=
  try (pose proof (Hzero x y ltac:(lia) ltac:(lia)));
  try (pose proof (Hone x y ltac:(lia) ltac:(lia))).

Ltac use_recurrence x y x1 x2 y1 y2 :=
  try (let R := fresh "R" in
       pose proof (recurrence x y x1 x2 y1 y2
                     ltac:(unfold interior; lia) ltac:(lia) ltac:(lia)
                     ltac:(lia) ltac:(lia)) as R;
       destruct R as (? & ? & ? & ? & ? & ?);
       repeat match goal with
              | H : _ ∧ _ → _ |- _ =>
                  first [specialize (H ltac:(lia)) | clear H]
              end).

Ltac use_earlier IH x y x1 y1 :=
  try (let M := fresh "M" in
       let Ma := fresh "Ma" in
       let Md := fresh "Md" in
       pose proof (IH x y ltac:(unfold on_grid; lia) ltac:(lia)) as M;
       destruct M as (? & ? & Ma & Md);
       first [specialize (Ma x1 ltac:(lia) ltac:(lia)) | clear Ma];
       first [specialize (Md y1 ltac:(lia) ltac:(lia)) | clear Md]).

Lemma monotone_below (n : nat) :
  ∀ a d, on_grid A D a d → a + d < Z.of_nat n → monotone_at g a d.
Proof using HA Hzero Hone Hrec.
  induction n as [| n IH]; intros a d [Ha Hd] Hn; [lia |].
  assert (∀ a' d', on_grid A D a' d' → a' + d' < a + d → monotone_at g a' d')
    as IH' by (intros a' d' Hg Hlt; apply IH; [done | lia]).
  clear IH Hn.
  remember (a - 1) as a1 eqn:Ea1. remember (a - 2) as a2 eqn:Ea2.
  remember (a - 3) as a3 eqn:Ea3. remember (d - 1) as d1 eqn:Ed1.
  remember (d - 2) as d2 eqn:Ed2. remember (d - 3) as d3 eqn:Ed3.
  assert (a = 0 ∨ a = 1 ∨ a = 2 ∨ a = 3 ∨ a = 4 ∨ 5 ≤ a) as Hca by lia.
  assert (d = 0 ∨ d = 1 ∨ d = 2 ∨ 3 ≤ d) as Hcd by lia.
  unfold monotone_at.
  destruct Hca as [Hca | [Hca | [Hca | [Hca | [Hca | Hca]]]]];
    destruct Hcd as [Hcd | [Hcd | [Hcd | Hcd]]];
    use_boundary a d; use_boundary a1 d; use_boundary a2 d;
    use_boundary a3 d; use_boundary a d1; use_boundary a1 d1;
    use_boundary a2 d1; use_boundary a d2; use_boundary a1 d2;
    use_boundary a d3;
    use_recurrence a d a1 a2 d1 d2; use_recurrence a1 d a2 a3 d1 d2;
    use_recurrence a d1 a1 a2 d2 d3;
    use_earlier IH' a2 d a3 d1; use_earlier IH' a1 d1 a2 d2;
    use_earlier IH' a d2 a1 d3; use_earlier IH' a1 d a2 d1;
    use_earlier IH' a d1 a1 d2;
    (split; [| split; [| split;
       [intros x Hx ?; replace x with a1 by lia
       | intros y Hy ?; replace y with d1 by lia]]]);
    try lra; try lia.
Qed.

Lemma monotone (a d : Z) : on_grid A D a d → monotone_at g a d.
Proof using HA Hzero Hone Hrec.
  intros Hg. apply (monotone_below (Z.to_nat (a + d + 1))); [done |].
  destruct Hg. lia.
Qed.

End Monotone.

(** ** The final grid *)

Lemma main_grid_solution fuel rolls argc arg1 arg2 arg3 (rows : list (list Q)) :
  main fuel rolls argc arg1 arg2 arg3 = Ok (Grid rows) →
  let A := wrap arg1 in
  let D := wrap arg2 in
  2 ≤ A ∧ 1 ≤ D ∧ grid_size A D ≤ INT_MAX ∧ (2 ≤ fuel)%nat
  ∧ ∃ P P0 P1,
      sentinel_grid A D = Ok P
      ∧ set_boundary A D P = Ok P0
      ∧ boundary_set A D P0
      ∧ relax fuel A D P0 risk_tables 0 0 = Ok (P1, (A - 1) * D, 2)
      ∧ solution A D P1
      ∧ rows = rows_of A D P1.
Proof.
  intros E A D. apply main_grid in E as (HA & HD & Hfit & E). fold A D in E.
  destruct (dp_mode_spec A D HA HD Hfit)
    as (P & P0 & P1 & EP & EP0 & _ & Hb0 & _ & Hsol & Erelax & Edp).
  rewrite Edp in E. specialize (Erelax fuel).
  destruct (Nat.ltb_spec fuel 2) as [? | Hfuel]; [done |].
  injection E as <-.
  repeat (split; [done |]). exists P, P0, P1. done.
Qed.

Lemma value_cell (A : Z) (P : list Q) (a d : Z) (x : Q) :
  cell A P a d = Some x → value A P a d = x.
Proof. unfold value. by intros ->. Qed.

(** C4. In the grid that the program prints, the entries [(0, d)] and
    [(1, d)] are [0] for every [d] in [[0, D]], the entry [(1, 0)]
    included, and the entries [(a, 0)] are [1] for every [a] in
    [[2, A]]; the grid from which the passes start holds these values
    already. *)
Theorem boundary_cells fuel rolls argc arg1 arg2 arg3 (rows : list (list Q)) :
  main fuel rolls argc arg1 arg2 arg3 = Ok (Grid rows) →
  let A := wrap arg1 in
  let D := wrap arg2 in
  (∀ d, 0 ≤ d ≤ D → entry rows 0 d = 0%Q ∧ entry rows 1 d = 0%Q)
  ∧ entry rows 1 0 = 0%Q
  ∧ (∀ a, 2 ≤ a ≤ A → entry rows a 0 = 1%Q)
  ∧ ∃ P P0 P1 elems_total passes,
      sentinel_grid A D = Ok P
      ∧ set_boundary A D P = Ok P0
      ∧ (∀ d, 0 ≤ d ≤ D →
           cell A P0 0 d = Some 0%Q ∧ cell A P0 1 d = Some 0%Q)
      ∧ (∀ a, 2 ≤ a ≤ A → cell A P0 a 0 = Some 1%Q)
      ∧ relax fuel A D P0 risk_tables 0 0 = Ok (P1, elems_total, passes)
      ∧ rows = rows_of A D P1.
Proof.
  intros E A D.
  apply main_grid_solution in E
    as (HA & HD & Hfit & Hfuel & P & P0 & P1 & EP & EP0 & [Hz0 Ho0] & Erelax
        & (Hlen & [Hz Ho] & _) & ->).
  fold A D in EP, EP0, Hz0, Ho0, Erelax, Hlen, Hz, Ho |- *.
  assert (∀ d, 0 ≤ d ≤ D →
            entry (rows_of A D P1) 0 d = 0%Q ∧ entry (rows_of A D P1) 1 d = 0%Q)
    as Hzero.
  { intros d Hd. destruct (Hz d Hd) as [H0 H1].
    rewrite !entry_rows_of by (unfold on_grid; lia).
    by rewrite (value_cell _ _ _ _ _ H0), (value_cell _ _ _ _ _ H1). }
  split; [done |]. split; [apply Hzero; lia |]. split.
  - intros a Ha. rewrite entry_rows_of by (unfold on_grid; lia).
    apply value_cell, Ho, Ha.
  - exists P, P0, P1, ((A - 1) * D), 2. done.
Qed.

Lemma boundary_cells_witness :
  entry grid_3_2 0 2 = 0%Q ∧ entry grid_3_2 1 2 = 0%Q.
Proof.
  apply (boundary_cells 2 (λ _ _, 1) 3 3 2 0 grid_3_2);
    [vm_compute; reflexivity | vm_compute; split; discriminate].
Defined.

(** C2. In the grid that the program prints, the entry of every interior
    state [(a, d)], [2 <= a <= A] and [1 <= d <= D], is the sum, over
    the outcome deltas of nonzero probability in the row of the
    configuration [(attacker_dice a, defender_dice d)] of the table, of
    the probability times the entry at [(a + delta_a, d + delta_d)];
    here [attacker_dice a = max (min (a - 1) 3) 0] and
    [defender_dice d = max (min d 2) 0]. *)
Theorem interior_recurrence fuel rolls argc arg1 arg2 arg3
    (rows : list (list Q)) :
  main fuel rolls argc arg1 arg2 arg3 = Ok (Grid rows) →
  ∀ a d, 2 ≤ a ≤ wrap arg1 → 1 ≤ d ≤ wrap arg2 →
    attacker_dice a = Z.max (Z.min (a - 1) 3) 0
    ∧ defender_dice d = Z.max (Z.min d 2) 0
    ∧ create_prob_table uniform_dice_sides = Ok (true, risk_tables)
    ∧ ∃ q row,
        vec_at (dicetuples risk_tables) q
          = Ok (attacker_dice a, defender_dice d)
        ∧ vec_at (probstable risk_tables) q = Ok row
        ∧ (entry rows a d
           == expected (entry rows) row (transitions risk_tables) a d)%Q.
Proof.
  intros E a d Ha Hd.
  apply main_grid_solution in E
    as (HA & HD & Hfit & Hfuel & P & P0 & P1 & _ & _ & _ & _
        & (Hlen & _ & Hsol) & ->).
  set (A := wrap arg1) in *. set (D := wrap arg2) in *.
  pose proof (A_int A D ltac:(lia) HD Hfit) as HAi.
  split; [apply attacker_dice_spec; unfold INT_MIN; lia |].
  split; [apply defender_dice_spec |].
  split; [apply create_prob_table_6 |].
  destruct (config_row A D a d ltac:(lia) Hd HAi)
    as (row & Erow & _ & Hsafe & _ & _ & Etuple).
  destruct (row6_spec A D a d ltac:(lia) Hd HAi) as (Erow' & _).
  assert (row6 a d = row) as Hrow6 by congruence.
  exists (config_index dice_configurations a d), row.
  split; [apply Etuple; lia |]. split; [done |].
  destruct (Hsol a d) as (v & Hv & _ & Hve); [done |].
  rewrite entry_rows_of by (unfold on_grid; lia).
  rewrite (value_cell _ _ _ _ _ Hv), Hve, Hrow6.
  change (transitions risk_tables) with outcome_deltas.
  rewrite (expected_ext (entry (rows_of A D P1)) (value A P1)); [done |].
  intros pd [Hin Hnz]%needed_zip. apply entry_rows_of. by apply Hsafe.
Qed.

Lemma interior_recurrence_witness :
  ∃ q row,
    vec_at (dicetuples risk_tables) q = Ok (attacker_dice 3, defender_dice 2)
    ∧ vec_at (probstable risk_tables) q = Ok row
    ∧ (entry grid_3_2 3 2
       == expected (entry grid_3_2) row (transitions risk_tables) 3 2)%Q.
Proof.
  apply (interior_recurrence 2 (λ _ _, 1) 3 3 2 0 grid_3_2);
    [vm_compute; reflexivity | vm_compute; split; discriminate
    | vm_compute; split; discriminate].
Defined.

(** C7. In the grid that the program prints, the entries do not decrease
    along [a] for a fixed [d] and do not increase along [d] for a fixed
    [a]. *)
Theorem grid_monotone fuel rolls argc arg1 arg2 arg3 (rows : list (list Q)) :
  main fuel rolls argc arg1 arg2 arg3 = Ok (Grid rows) →
  let A := wrap arg1 in
  let D := wrap arg2 in
  (∀ a d, 0 ≤ a < A → 0 ≤ d ≤ D → (entry rows a d <= entry rows (a + 1) d)%Q)
  ∧ (∀ a d, 0 ≤ a ≤ A → 0 ≤ d < D → (entry rows a (d + 1) <= entry rows a d)%Q).
Proof.
  intros E A D.
  apply main_grid_solution in E
    as (HA & HD & Hfit & Hfuel & P & P0 & P1 & _ & _ & _ & _
        & (Hlen & [Hz Ho] & Hsol) & ->).
  fold A D in HA, HD, Hfit, Hlen, Hz, Ho, Hsol |- *.
  pose proof (A_int A D ltac:(lia) HD Hfit) as HAi.
  assert (∀ a d, on_grid A D a d → monotone_at (value A P1) a d) as Hmono.
  { apply (monotone A D (value A P1) HAi).
    - intros a d [-> | ->] Hd; destruct (Hz d Hd) as [H0 H1].
      + by rewrite (value_cell _ _ _ _ _ H0).
      + by rewrite (value_cell _ _ _ _ _ H1).
    - intros a d Ha ->. by rewrite (value_cell _ _ _ _ _ (Ho a Ha)).
    - intros a d Hi. destruct (Hsol a d Hi) as (v & Hv & _ & Hve).
      by rewrite (value_cell _ _ _ _ _ Hv). }
  split.
  - intros a d Ha Hd. rewrite !entry_rows_of by (unfold on_grid; lia).
    destruct (Hmono (a + 1) d) as (_ & _ & Hma & _); [unfold on_grid; lia |].
    apply Hma; lia.
  - intros a d Ha Hd. rewrite !entry_rows_of by (unfold on_grid; lia).
    destruct (Hmono a (d + 1)) as (_ & _ & _ & Hmd); [unfold on_grid; lia |].
    apply Hmd; lia.
Qed.

Lemma grid_monotone_witness :
  (entry grid_3_2 2 1 <= entry grid_3_2 (2 + 1) 1)%Q
  ∧ (entry grid_3_2 3 (1 + 1) <= entry grid_3_2 3 1)%Q.
Proof.
  destruct (grid_monotone 2 (λ _ _, 1) 3 3 2 0 grid_3_2) as [Ha Hd];
    [vm_compute; reflexivity |].
  change (wrap 3) with 3 in *. change (wrap 2) with 2 in *.
  split; [apply Ha | apply Hd]; lia.
Defined.

(** C3 (as amended). For every input [A >= 2] and [D >= 1] whose grid
    size [(A + 1) * (D + 1)] does not exceed [INT_MAX], the passes end
    (two of them suffice as a loop bound), the elements resolved over
    all passes number exactly [(A - 1) * D], which is the value the
    program compares them with, and the program prints the full grid of
    [A + 1] rows of [D + 1] entries rather than the failure of the
    solver. *)
Theorem relaxation_completes (fuel : nat) (rolls : Z → nat → Z)
    (A D arg3 : Z) :
  2 ≤ A → 1 ≤ D → grid_size A D ≤ INT_MAX → (2 ≤ fuel)%nat →
  ∃ P P0 P1 passes,
    sentinel_grid A D = Ok P
    ∧ set_boundary A D P = Ok P0
    ∧ relax fuel A D P0 risk_tables 0 0 = Ok (P1, (A - 1) * D, passes)
    ∧ mul (sub A 1) D = (A - 1) * D
    ∧ main fuel rolls 3 A D arg3 = Ok (Grid (rows_of A D P1))
    ∧ Z.of_nat (length (rows_of A D P1)) = A + 1
    ∧ Forall (λ row, Z.of_nat (length row) = D + 1) (rows_of A D P1).
Proof.
  intros HA HD Hfit Hfuel.
  destruct (dp_mode_spec A D HA HD Hfit)
    as (P & P0 & P1 & EP & EP0 & _ & _ & _ & _ & Erelax & Edp).
  specialize (Erelax fuel). specialize (Edp fuel).
  destruct (Nat.ltb_spec fuel 2) as [? | _]; [lia |].
  pose proof (A_int A D ltac:(lia) HD Hfit) as HAi.
  assert (D ≤ INT_MAX) as HDi by (unfold grid_size in Hfit; nia).
  exists P, P0, P1, 2. repeat (split; [done |]).
  split; [apply (interior_count A D HA HD Hfit) |]. split; [| split].
  - unfold main. simpl.
    rewrite !wrap_id by (unfold in_range, INT_MIN, INT_MAX in *; lia).
    destruct (Z.ltb_spec A 2); [lia |]. destruct (Z.ltb_spec D 1); [lia |].
    done.
  - unfold rows_of. rewrite length_map, length_seqZ. lia.
  - unfold rows_of. apply Forall_forall. intros row Hrow.
    apply list_elem_of_fmap in Hrow as (a & -> & _).
    rewrite length_map, length_seqZ. lia.
Qed.

Lemma relaxation_completes_witness :
  ∃ P P0 P1 passes,
    sentinel_grid 3 2 = Ok P
    ∧ set_boundary 3 2 P = Ok P0
    ∧ relax 2 3 2 P0 risk_tables 0 0 = Ok (P1, (3 - 1) * 2, passes)
    ∧ mul (sub 3 1) 2 = (3 - 1) * 2
    ∧ main 2 (λ _ _, 1) 3 3 2 0 = Ok (Grid (rows_of 3 2 P1))
    ∧ Z.of_nat (length (rows_of 3 2 P1)) = 3 + 1
    ∧ Forall (λ row, Z.of_nat (length row) = 2 + 1) (rows_of 3 2 P1).
Proof.
  apply (relaxation_completes 2 (λ _ _, 1) 3 2 0);
    [lia | lia | vm_compute; discriminate | lia].
Defined.

(** C3, as stated, fails for [A = D = 46340]: the size
    [46341 * 46341 = 2147488281] of the grid exceeds [INT_MAX], the [int]
    [sz] wraps to a negative value and the program ends at the
    allocation of the grid, printing nothing. *)
Lemma grid_size_exceeds_int :
  2 ≤ 46340 ∧ 1 ≤ 46340
  ∧ mul (add 1 46340) (add 1 46340) = -2147479015
  ∧ main 2 (λ _ _, 1) 3 46340 46340 0 = Fault.
Proof. split; [lia |]. split; [lia |]. split; vm_compute; reflexivity. Qed.

(** C6 (as amended). With an argument count other than 3 and 4 the
    program prints its usage, and with [A < 2] or [D < 1] the required
    ranges, in both cases before any computation and with exit status 1,
    printing neither a grid nor a fraction. An optional argument [N]
    that is present but less than 1 is not rejected: the program then
    runs the solver exactly as without [N]. *)
Theorem argument_checks (fuel : nat) (rolls : Z → nat → Z)
    (argc arg1 arg2 arg3 : Z) :
  (argc ≠ 3 ∧ argc ≠ 4 →
     main fuel rolls argc arg1 arg2 arg3 = Ok Usage
     ∧ exit_status Usage = 1 ∧ diagnostic Usage = true)
  ∧ ((argc = 3 ∨ argc = 4) ∧ (wrap arg1 < 2 ∨ wrap arg2 < 1) →
     main fuel rolls argc arg1 arg2 arg3 = Ok Requiring
     ∧ exit_status Requiring = 1 ∧ diagnostic Requiring = true)
  ∧ (argc = 4 ∧ 2 ≤ wrap arg1 ∧ 1 ≤ wrap arg2 ∧ wrap arg3 < 1 →
     main fuel rolls argc arg1 arg2 arg3 = dp_mode fuel (wrap arg1) (wrap arg2)
     ∧ main fuel rolls argc arg1 arg2 arg3 = main fuel rolls 3 arg1 arg2 arg3).
Proof.
  unfold main. split; [| split].
  - intros [H3 H4].
    destruct (Z.eqb_spec argc 3), (Z.eqb_spec argc 4); done.
  - intros [[-> | ->] Hlow]; simpl;
      destruct (Z.ltb_spec (wrap arg1) 2), (Z.ltb_spec (wrap arg2) 1);
      try done; lia.
  - intros (-> & HA & HD & HN). simpl.
    destruct (Z.ltb_spec (wrap arg1) 2); [lia |].
    destruct (Z.ltb_spec (wrap arg2) 1); [lia |]. simpl.
    rewrite Z.geb_leb. destruct (Z.leb_spec 1 (wrap arg3)); [lia | done].
Qed.

Lemma argument_checks_witness :
  main 0 (λ _ _, 1) 2 5 5 0 = Ok Usage
  ∧ main 0 (λ _ _, 1) 3 1 5 0 = Ok Requiring
  ∧ main 2 (λ _ _, 1) 4 3 2 0 = dp_mode 2 (wrap 3) (wrap 2).
Proof.
  split; [| split].
  - destruct (argument_checks 0 (λ _ _, 1) 2 5 5 0) as (H & _ & _).
    destruct H as [E _]; [lia | exact E].
  - destruct (argument_checks 0 (λ _ _, 1) 3 1 5 0) as (_ & H & _).
    change (wrap 1) with 1 in H. destruct H as [E _]; [lia | exact E].
  - destruct (argument_checks 2 (λ _ _, 1) 4 3 2 0) as (_ & _ & H).
    change (wrap 0) with 0 in H.
    destruct H as [E _]; [change (wrap 3) with 3; change (wrap 2) with 2; lia |].
    exact E.
Defined.

(** C6, as stated, fails when [N] is present and less than 1: with the
    arguments [3 2 0] the program prints the grid and returns 0. *)
Lemma nonpositive_samples_accepted :
  wrap 0 < 1
  ∧ main 2 (λ _ _, 1) 4 3 2 0 = Ok (Grid grid_3_2)
  ∧ exit_status (Grid grid_3_2) = 0
  ∧ diagnostic (Grid grid_3_2) = false.
Proof.
  split; [vm_compute; reflexivity |]. split; [vm_compute; reflexivity |].
  split; reflexivity.
Qed.

(** ** What a pass may change, and where it reads *)

Section Passes.

Variables A D : Z.
Hypothesis HA : 1 ≤ A.
Hypothesis HD : 1 ≤ D.
Hypothesis Hfit : grid_size A D ≤ INT_MAX.

Lemma visit_determined (P : list Q) (num a d : Z) :
  Z.of_nat (length P) = grid_size A D → 1 ≤ a ≤ A → 1 ≤ d ≤ D →
  determined A P a d → visit6 A D a d (P, num) = Ok (P, num).
Proof using HA HD Hfit.
  intros HP Ha Hd (x & Hx & Ex).
  destruct (visit_spec A D HA HD Hfit P num a d HP Ha Hd)
    as (cur & Hcur & [[_ E] | [Ecur _]]); [done |].
  congruence.
Qed.

Lemma relax_keeps_determined (fuel : nat) :
  ∀ (P : list Q) (elems_total passes : Z) r,
    Z.of_nat (length P) = grid_size A D →
    relax fuel A D P risk_tables elems_total passes = Ok r →
    ∀ a d, on_grid A D a d → determined A P a d →
           cell A r.1.1 a d = cell A P a d.
Proof using HA HD Hfit.
  induction fuel as [| fuel IH]; intros P et ps r HP E a d Hg Hdet; [done |].
  cbn [relax] in E.
  destruct (pass_keeps_determined A D HA HD Hfit P HP)
    as ([P' n] & EP' & Hlen' & Hkeep).
  rewrite EP' in E. cbn [mbind result_bind fst snd] in E. simpl in Hlen', Hkeep.
  destruct (n =? 0).
  - injection E as <-. simpl. by apply Hkeep.
  - rewrite (IH P' _ _ r Hlen' E a d Hg).
    + by apply Hkeep.
    + destruct Hdet as (x & Hx & Ex). exists x.
      rewrite Hkeep; [done | done |]. by exists x.
Qed.

Lemma needed_target (a d : Z) (i : nat) (delta : Z * Z) (prob : Q) :
  1 ≤ a ≤ A → 1 ≤ d ≤ D →
  transitions risk_tables !! i = Some delta → row6 a d !! i = Some prob →
  Qeq_bool prob 0 = false →
  on_grid A D (a + delta.1) (d + delta.2)
  ∧ linear_index (add a delta.1) A (add d delta.2) D
    = (1 + A) * (d + delta.2) + (a + delta.1)
  ∧ 0 ≤ linear_index (add a delta.1) A (add d delta.2) D < grid_size A D.
Proof using HA HD Hfit.
  intros Ha Hd Hdelta Hprob Hnz.
  destruct (row6_spec A D a d Ha Hd (A_int A D HA HD Hfit))
    as (_ & _ & Hsafe & _).
  assert ((prob, delta) ∈ zip (row6 a d) outcome_deltas) as Hin.
  { apply list_elem_of_lookup. exists i.
    rewrite lookup_zip_with, Hprob. simpl.
    change (transitions risk_tables) with outcome_deltas in Hdelta.
    by rewrite Hdelta. }
  pose proof (Hsafe _ Hin Hnz) as Hg. simpl in Hg. split; [done |].
  pose proof Hg as [Hta Htd].
  pose proof (A_int A D HA HD Hfit).
  assert (D ≤ INT_MAX) by (unfold grid_size in Hfit; nia).
  rewrite !add_small by (unfold in_range, INT_MIN, INT_MAX in *; lia).
  destruct (linear_index_eq A D ltac:(lia) ltac:(lia) Hfit _ _ Hg) as [-> ?].
  done.
Qed.

End Passes.

(** C8. On a grid of the allocated size, a cell of a pass either leaves
    the grid as it is, which it does whenever its entry is determined,
    or gives its own undetermined entry a non-negative value, therefore
    not the sentinel, every target of nonzero probability being
    determined at that moment; a pass leaves every determined entry as
    it is, and so does any number of passes. *)
Theorem determined_once (A D : Z) (P : list Q) :
  1 ≤ A → 1 ≤ D → grid_size A D ≤ INT_MAX →
  Z.of_nat (length P) = grid_size A D →
  (∀ num a d, 1 ≤ a ≤ A → 1 ≤ d ≤ D →
     ∃ st', visit6 A D a d (P, num) = Ok st'
       ∧ (determined A P a d → st' = (P, num))
       ∧ (st' = (P, num)
          ∨ ∃ v, st' = (<[slot A a d := v]> P, add num 1)
                 ∧ undetermined A P a d
                 ∧ (0 <= v)%Q ∧ Qeq_bool v unused_value = false
                 ∧ ∀ pd, pd ∈ needed (row6 a d) outcome_deltas →
                         determined A P (a + pd.2.1) (d + pd.2.2)))
  ∧ (∃ st', update_elements A D P unused_value (dicetuples risk_tables)
              (transitions risk_tables) (probstable risk_tables) = Ok st'
       ∧ ∀ a d, on_grid A D a d → determined A P a d →
                cell A st'.1 a d = cell A P a d)
  ∧ (∀ fuel elems_total passes r,
       relax fuel A D P risk_tables elems_total passes = Ok r →
       ∀ a d, on_grid A D a d → determined A P a d →
              cell A r.1.1 a d = cell A P a d).
Proof.
  intros HA HD Hfit HP. split; [| split].
  - intros num a d Ha Hd.
    destruct (visit_effect A D HA HD Hfit P num a d HP Ha Hd)
      as (st' & E & Hst'). exists st'. split; [done |]. split.
    + intros Hdet.
      rewrite (visit_determined A D HA HD Hfit P num a d HP Ha Hd Hdet) in E.
      by injection E as <-.
    + destruct Hst' as [-> | (v & -> & Hun & Hv & Hdet & _)]; [by left |].
      right. exists v. split; [done |]. split; [done |].
      split; [by apply Qle_bool_iff |].
      split; [by apply nonneg_not_sentinel | done].
  - destruct (pass_keeps_determined A D HA HD Hfit P HP) as (st' & E & _ & H).
    eauto.
  - intros fuel et ps r E.
    by apply (relax_keeps_determined A D HA HD Hfit fuel P et ps r HP).
Qed.

Lemma determined_once_witness :
  ∃ st', update_elements 2 1 [0; 0; 1; 0; 0; -1]%Q unused_value
           (dicetuples risk_tables) (transitions risk_tables)
           (probstable risk_tables) = Ok st'
    ∧ ∀ a d, on_grid 2 1 a d → determined 2 [0; 0; 1; 0; 0; -1]%Q a d →
             cell 2 st'.1 a d = cell 2 [0; 0; 1; 0; 0; -1]%Q a d.
Proof.
  apply (determined_once 2 1 [0; 0; 1; 0; 0; -1]%Q);
    [lia | lia | vm_compute; discriminate | reflexivity].
Defined.

(** C10. On a grid of the allocated [(A + 1) * (D + 1)] entries, a pass
    makes no access outside the grid: it does not fault. The targets it
    indexes, those of nonzero probability, are states of the grid,
    [0 <= a + delta_a <= A] and [0 <= d + delta_d <= D], and their
    index lies within the vector; the target with
    [d + delta_d = -1], the delta [(0, -2)] at [d = 1], has probability
    zero in the row of every configuration with a single defender die
    and is skipped. *)
Theorem pass_in_bounds (A D : Z) (P : list Q) :
  1 ≤ A → 1 ≤ D → grid_size A D ≤ INT_MAX →
  Z.of_nat (length P) = grid_size A D →
  is_ok (update_elements A D P unused_value (dicetuples risk_tables)
           (transitions risk_tables) (probstable risk_tables))
  ∧ (∀ a d i delta prob,
       1 ≤ a ≤ A → 1 ≤ d ≤ D →
       transitions risk_tables !! i = Some delta →
       row6 a d !! i = Some prob → Qeq_bool prob 0 = false →
       on_grid A D (a + delta.1) (d + delta.2)
       ∧ linear_index (add a delta.1) A (add d delta.2) D
         = (1 + A) * (d + delta.2) + (a + delta.1)
       ∧ 0 ≤ linear_index (add a delta.1) A (add d delta.2) D
         < grid_size A D)
  ∧ (∀ a, 1 ≤ a ≤ A →
       defender_dice 1 = 1
       ∧ transitions risk_tables !! 4%nat = Some (0, -2)
       ∧ ∃ prob, row6 a 1 !! 4%nat = Some prob ∧ Qeq_bool prob 0 = true).
Proof.
  intros HA HD Hfit HP. split; [| split].
  - destruct (pass_keeps_determined A D HA HD Hfit P HP) as (st' & E & _).
    by exists st'.
  - intros a d i delta prob. by apply needed_target.
  - intros a Ha. split; [done |]. split; [done |].
    pose proof (A_int A D HA HD Hfit) as HAi.
    unfold row6, config_index.
    destruct (attacker_dice_cases a) as [[? ->] | [[? ->] | [[? ->] | [? ->]]]];
      [lia | ..]; eexists; split; reflexivity.
Qed.

Lemma pass_in_bounds_witness :
  is_ok (update_elements 2 1 [0; 0; 1; 0; 0; -1]%Q unused_value
           (dicetuples risk_tables) (transitions risk_tables)
           (probstable risk_tables)).
Proof.
  apply (pass_in_bounds 2 1 [0; 0; 1; 0; 0; -1]%Q);
    [lia | lia | vm_compute; discriminate | reflexivity].
Defined.

(** * Further properties of the code *)

(** ** Dice allocation, sorting and indexing *)

(** X1. The numbers of dice never exceed what the units allow: for every
    [int] [a] above [INT_MIN], [attacker_dice a] is
    [max (min (a - 1) 3) 0], between 0 and 3, zero when [a <= 1] and at
    most [a - 1] otherwise; for every [d], [defender_dice d] is
    [max (min d 2) 0], between 0 and 2, zero when [d <= 0] and at most
    [d] otherwise. *)
Theorem dice_allocation (a d : Z) :
  INT_MIN < a ≤ INT_MAX →
  attacker_dice a = Z.max (Z.min (a - 1) 3) 0
  ∧ 0 ≤ attacker_dice a ≤ 3
  ∧ (a ≤ 1 → attacker_dice a = 0)
  ∧ (1 ≤ a → attacker_dice a ≤ a - 1)
  ∧ defender_dice d = Z.max (Z.min d 2) 0
  ∧ 0 ≤ defender_dice d ≤ 2
  ∧ (d ≤ 0 → defender_dice d = 0)
  ∧ (0 ≤ d → defender_dice d ≤ d).
Proof.
  intros Ha. rewrite (attacker_dice_spec a Ha), defender_dice_spec. lia.
Qed.

Lemma dice_allocation_witness :
  attacker_dice 7 = Z.max (Z.min (7 - 1) 3) 0 ∧ 0 ≤ attacker_dice 7 ≤ 3.
Proof.
  destruct (dice_allocation 7 1) as (H1 & H2 & _);
    [unfold INT_MIN, INT_MAX; lia | done].
Defined.

(** X2. [sort_three] returns its three arguments in ascending order: the
    result is a permutation of the arguments and is sorted. *)
Theorem sort_three_permutation (a b c : Z) :
  let r := sort_three a b c in
  [r.1.1; r.1.2; r.2] ≡ₚ [a; b; c] ∧ r.1.1 ≤ r.1.2 ≤ r.2.
Proof.
  unfold sort_three.
  destruct (Z.gtb_spec a b), (Z.gtb_spec b c), (Z.gtb_spec a c);
    simpl; split_comparisons; simpl; try lia;
    (split; [solve_Permutation | lia]).
Qed.

Section Index.

Variables A D : Z.
Hypothesis HA : 0 ≤ A.
Hypothesis HD : 0 ≤ D.
Hypothesis Hfit : grid_size A D ≤ INT_MAX.

Lemma linear_index_unique (a d a' d' : Z) :
on_grid A D a d → on_grid A D a' d' →
linear_index a A d D = linear_index a' A d' D → a = a' ∧ d = d'.
Proof using HA HD Hfit.
intros Hg Hg'.
destruct (linear_index_eq A D HA HD Hfit a d Hg) as [-> ?].
destruct (linear_index_eq A D HA HD Hfit a' d' Hg') as [-> ?].
intros E. apply (slot_inj A D HA HD); [done | done |]. unfold slot.
by rewrite E.
Qed.

Lemma linear_index_inverse (k : Z) :
0 ≤ k < grid_size A D →
on_grid A D (k mod (1 + A)) (k / (1 + A))
∧ linear_index (k mod (1 + A)) A (k / (1 + A)) D = k.
Proof using HA HD Hfit.
intros Hk.
pose proof (Z.div_mod k (1 + A) ltac:(lia)) as Hdm.
pose proof (Z.mod_pos_bound k (1 + A) ltac:(lia)) as Hmod.
assert (0 ≤ k / (1 + A)) by (apply Z.div_pos; lia).
assert (k / (1 + A) ≤ D).
{ unfold grid_size in Hk. apply Z.lt_succ_r.
  apply Z.div_lt_upper_bound; lia. }
assert (on_grid A D (k mod (1 + A)) (k / (1 + A))) as Hg
  by (unfold on_grid; lia).
split; [done |].
destruct (linear_index_eq A D HA HD Hfit _ _ Hg) as [-> _]. lia.
Qed.

End Index.

(** X3. When the grid fits an [int], [linear_index] numbers the states of
    the grid one-to-one with the positions of the vector: the index of a
    state [(a, d)] is [(1 + A) * d + a], a position of the vector;
    different states have different indices; and the position [k] is the
    index of the state [(k mod (1 + A), k / (1 + A))]. *)
Theorem linear_index_bijective (A D : Z) :
  0 ≤ A → 0 ≤ D → grid_size A D ≤ INT_MAX →
  (∀ a d, on_grid A D a d →
     linear_index a A d D = (1 + A) * d + a
     ∧ 0 ≤ linear_index a A d D < grid_size A D)
  ∧ (∀ a d a' d', on_grid A D a d → on_grid A D a' d' →
       linear_index a A d D = linear_index a' A d' D → a = a' ∧ d = d')
  ∧ (∀ k, 0 ≤ k < grid_size A D →
       on_grid A D (k mod (1 + A)) (k / (1 + A))
       ∧ linear_index (k mod (1 + A)) A (k / (1 + A)) D = k).
Proof.
  intros HA HD Hfit. split; [| split].
  - intros a d Hg. destruct (linear_index_eq A D HA HD Hfit a d Hg) as [-> ?].
    done.
  - apply linear_index_unique; done.
  - apply linear_index_inverse; done.
Qed.

Lemma linear_index_bijective_witness :
  on_grid 3 2 (9 mod (1 + 3)) (9 / (1 + 3))
  ∧ linear_index (9 mod (1 + 3)) 3 (9 / (1 + 3)) 2 = 9.
Proof.
  destruct (linear_index_bijective 3 2) as (_ & _ & H);
    [lia | lia | vm_compute; discriminate |].
  apply H. vm_compute. split; [discriminate | reflexivity].
Defined.

(** ** Failures of the enumeration *)

Lemma calc_transitions_no_dice (order : list (Z * Z)) (counts : list Z)
    (na nd S : Z) :
  S < 2 → calc_transitions order counts na nd S = Ok (0, counts).
Proof.
  intros HS. unfold calc_transitions.
  destruct (Z.ltb_spec S 2); [done | lia].
Qed.

(** X4. [calc_transitions] returns 0 in two cases: for fewer than two
    faces, leaving [counts] as it is, and for a pair of dice counts that
    is none of the six configurations, leaving one zero per outcome.
    Accordingly [create_prob_table] returns [false] for fewer than two
    faces, with the configurations and the deltas filled in and no row
    of probabilities. *)
Theorem enumeration_failures (order : list (Z * Z)) (counts : list Z)
    (na nd S : Z) :
  (S < 2 → calc_transitions order counts na nd S = Ok (0, counts))
  ∧ (2 ≤ S → (na, nd) ∉ dice_configurations →
     calc_transitions order counts na nd S
     = Ok (0, replicate (length order) 0))
  ∧ (S < 2 →
     create_prob_table S
     = Ok (false, Tables dice_configurations outcome_deltas [])).
Proof.
  split; [apply calc_transitions_no_dice |]. split.
  - intros HS Hcfg. unfold calc_transitions.
    destruct (Z.ltb_spec S 2); [lia |].
    unfold dice_configurations in Hcfg.
    rewrite !not_elem_of_cons in Hcfg.
    destruct Hcfg as (H1 & H2 & H3 & H4 & H5 & H6 & _).
    destruct (Z.eqb_spec na 1), (Z.eqb_spec na 2), (Z.eqb_spec na 3),
      (Z.eqb_spec nd 1), (Z.eqb_spec nd 2); subst; simpl; try done; lia.
  - intros HS. unfold create_prob_table.
    assert (build_rows dice_configurations outcome_deltas S []
            = Ok (false, [])) as ->; [| done].
    unfold dice_configurations. cbn [build_rows].
    rewrite (calc_transitions_no_dice outcome_deltas [] 1 1 S HS).
    reflexivity.
Qed.

Lemma enumeration_failures_witness :
  calc_transitions outcome_deltas [7] 3 2 1 = Ok (0, [7])
  ∧ calc_transitions outcome_deltas [7] 4 2 6 = Ok (0, [0; 0; 0; 0; 0])
  ∧ create_prob_table 1
    = Ok (false, Tables dice_configurations outcome_deltas []).
Proof.
  destruct (enumeration_failures outcome_deltas [7] 3 2 1) as (H1 & _ & H3).
  destruct (enumeration_failures outcome_deltas [7] 4 2 6) as (_ & H2 & _).
  split; [apply H1; lia |]. split; [| apply H3; lia].
  apply H2; [lia |]. unfold dice_configurations.
  rewrite !not_elem_of_cons. repeat split; try discriminate.
  apply not_elem_of_nil.
Defined.

(** ** The table of probabilities *)

Lemma for_range_preserves {S} (I : S → Prop) (lo hi : Z)
    (body : Z → S → result S) (st st' : S) :
  (∀ i s s', I s → body i s = Ok s' → I s') →
  I st → for_range lo hi body st = Ok st' → I st'.
Proof.
  intros Hbody H0. apply (for_each_preserves I); [done |].
  intros i s s' _. apply Hbody.
Qed.

Lemma credit_elsewhere (key : Z * Z) (counts counts' : list Z) (j : nat) :
  credit M5 key counts = Ok counts' → j ≠ Z.to_nat (map_at M5 key) →
  counts' !! j = counts !! j.
Proof.
  unfold credit. intros (c & _ & (_ & ->)%vec_set_inv)%bind_ok Hj.
  by apply list_lookup_insert_ne.
Qed.

Lemma credit_if_elsewhere (b : bool) (key : Z * Z) (counts counts' : list Z)
    (j : nat) :
  credit_if b M5 key counts = Ok counts' → j ≠ Z.to_nat (map_at M5 key) →
  counts' !! j = counts !! j.
Proof.
  destruct b; simpl; [apply credit_elsewhere |]. by intros [= ->].
Qed.

Lemma tally_vs_one_zeros (x p : Z) (st st' : tally) :
  tally_vs_one M5 x p st = Ok st' →
  one_comparison_zeros st.1 → one_comparison_zeros st'.1.
Proof.
  unfold tally_vs_one.
  intros (c1 & E1 & (c2 & E2 & [= <-])%bind_ok)%bind_ok (H0 & H1 & H4).
  unfold one_comparison_zeros. simpl.
  rewrite !(credit_if_elsewhere _ _ _ _ _ E2) by (vm_compute; lia).
  rewrite !(credit_if_elsewhere _ _ _ _ _ E1) by (vm_compute; lia).
  done.
Qed.

Lemma tally_one_vs_two_zeros (i pqmax : Z) (st st' : tally) :
  tally_one_vs_two M5 i pqmax st = Ok st' →
  one_comparison_zeros st.1 → one_comparison_zeros st'.1.
Proof.
  unfold tally_one_vs_two.
  intros (c1 & E1 & (c2 & E2 & [= <-])%bind_ok)%bind_ok (H0 & H1 & H4).
  unfold one_comparison_zeros. simpl.
  rewrite !(credit_if_elsewhere _ _ _ _ _ E2) by (vm_compute; lia).
  rewrite !(credit_if_elsewhere _ _ _ _ _ E1) by (vm_compute; lia).
  done.
Qed.

Lemma tally_two_zeros (hi lo pqmax pqmin : Z) (st st' : tally) :
  tally_two M5 hi lo pqmax pqmin st = Ok st' →
  two_comparison_zeros st.1 → two_comparison_zeros st'.1.
Proof.
  unfold tally_two.
  intros (c1 & E1 & (c2 & E2 & (c3 & E3 & (c4 & E4 & [= <-])%bind_ok)%bind_ok)
            %bind_ok)%bind_ok (H2 & H3).
  unfold two_comparison_zeros. simpl.
  rewrite !(credit_if_elsewhere _ _ _ _ _ E4) by (vm_compute; lia).
  rewrite !(credit_if_elsewhere _ _ _ _ _ E3) by (vm_compute; lia).
  rewrite !(credit_if_elsewhere _ _ _ _ _ E2) by (vm_compute; lia).
  rewrite !(credit_if_elsewhere _ _ _ _ _ E1) by (vm_compute; lia).
  done.
Qed.

Lemma for_range_one_zeros (lo hi : Z) (body : Z → tally → result tally)
    (st st' : tally) :
  (∀ i s s', one_comparison_zeros s.1 → body i s = Ok s' →
             one_comparison_zeros s'.1) →
  one_comparison_zeros st.1 → for_range lo hi body st = Ok st' →
  one_comparison_zeros st'.1.
Proof. apply (for_range_preserves (λ s : tally, one_comparison_zeros s.1)). Qed.

Lemma for_range_two_zeros (lo hi : Z) (body : Z → tally → result tally)
    (st st' : tally) :
  (∀ i s s', two_comparison_zeros s.1 → body i s = Ok s' →
             two_comparison_zeros s'.1) →
  two_comparison_zeros st.1 → for_range lo hi body st = Ok st' →
  two_comparison_zeros st'.1.
Proof. apply (for_range_preserves (λ s : tally, two_comparison_zeros s.1)). Qed.

Lemma calc_transitions_zeros (na nd S O : Z) (counts0 counts : list Z) :
  2 ≤ S → (na, nd) ∈ dice_configurations →
  calc_transitions outcome_deltas counts0 na nd S = Ok (O, counts) →
  (Z.min na nd = 1 → one_comparison_zeros counts)
  ∧ (Z.min na nd = 2 → two_comparison_zeros counts).
Proof.
  intros HS Hcfg. unfold calc_transitions.
  destruct (Z.ltb_spec S 2); [lia |]. fold M5.
  assert (one_comparison_zeros (replicate (length outcome_deltas) 0, 0).1)
    as H1 by done.
  assert (two_comparison_zeros (replicate (length outcome_deltas) 0, 0).1)
    as H2 by done.
  unfold dice_configurations in Hcfg.
  rewrite !elem_of_cons, elem_of_nil in Hcfg.
  destruct Hcfg as [E | [E | [E | [E | [E | [E | []]]]]]];
    injection E as -> ->; cbn [Z.eqb Pos.eqb andb];
    intros ([c O'] & E & [= <- <-])%bind_ok;
    (split; intros Hmin; [| try (simpl in Hmin; lia)]);
    try (simpl in Hmin; lia); revert E.
  - apply for_range_one_zeros; [| done]. intros i s s' Hs.
    apply for_range_one_zeros; [| done]. intros p t t' Ht E.
    by apply (tally_vs_one_zeros _ _ _ _ E).
  - apply for_range_one_zeros; [| done]. intros i s s' Hs.
    apply for_range_one_zeros; [| done]. intros j s1 s1' Hs1.
    apply for_range_one_zeros; [| done]. intros p t t' Ht E.
    by apply (tally_vs_one_zeros _ _ _ _ E).
  - apply for_range_one_zeros; [| done]. intros i s s' Hs.
    apply for_range_one_zeros; [| done]. intros j s1 s1' Hs1.
    apply for_range_one_zeros; [| done]. intros k s2 s2' Hs2.
    apply for_range_one_zeros; [| done]. intros p t t' Ht E.
    by apply (tally_vs_one_zeros _ _ _ _ E).
  - apply for_range_one_zeros; [| done]. intros i s s' Hs.
    apply for_range_one_zeros; [| done]. intros p s1 s1' Hs1.
    apply for_range_one_zeros; [| done]. intros q t t' Ht E.
    by apply (tally_one_vs_two_zeros _ _ _ _ E).
  - apply for_range_two_zeros; [| done]. intros i s s' Hs.
    apply for_range_two_zeros; [| done]. intros j s1 s1' Hs1.
    apply for_range_two_zeros; [| done]. intros p s2 s2' Hs2.
    apply for_range_two_zeros; [| done]. intros q t t' Ht E.
    by apply (tally_two_zeros _ _ _ _ _ _ E).
  - apply for_range_two_zeros; [| done]. intros i s s' Hs.
    apply for_range_two_zeros; [| done]. intros j s1 s1' Hs1.
    apply (for_each_break_preserves (λ s : tally, two_comparison_zeros s.1));
      [done |].
    intros k s2 [f s2'] _ Hs2. unfold enum_3_2_k.
    case_match; [by intros [= <- <-] |].
    intros (s3 & E & [= <- <-])%bind_ok. simpl. revert E.
    apply for_range_two_zeros; [| done]. intros p s4 s4' Hs4.
    apply for_range_two_zeros; [| done]. intros q t t' Ht E.
    by apply (tally_two_zeros _ _ _ _ _ _ E).
Qed.

(** X5. For dice of [S >= 2] faces, the counts that [calc_transitions]
    leaves for a configuration with a single comparison ([na = 1] or
    [nd = 1]) are zero for the outcomes [(-2, 0)], [(-1, -1)] and
    [(0, -2)], and those for a configuration with two comparisons are
    zero for the outcomes [(-1, 0)] and [(0, -1)]; every outcome that a
    round with that many comparisons cannot produce has count zero. *)
Theorem impossible_outcomes (na nd S O : Z) (counts0 counts : list Z) :
  2 ≤ S → (na, nd) ∈ dice_configurations →
  calc_transitions outcome_deltas counts0 na nd S = Ok (O, counts) →
  (Z.min na nd = 1 →
     counts !! 0%nat = Some 0 ∧ counts !! 1%nat = Some 0
     ∧ counts !! 4%nat = Some 0)
  ∧ (Z.min na nd = 2 →
     counts !! 2%nat = Some 0 ∧ counts !! 3%nat = Some 0).
Proof. apply calc_transitions_zeros. Qed.

Lemma impossible_outcomes_witness :
  [2275; 2611; 0; 0; 2890] !! 2%nat = Some 0
  ∧ [2275; 2611; 0; 0; 2890] !! 3%nat = Some 0.
Proof.
  destruct (impossible_outcomes 3 2 6 7776 [] [2275; 2611; 0; 0; 2890])
    as [_ H]; [lia | apply configuration_3_2 | vm_compute; reflexivity |].
  apply H. reflexivity.
Defined.

Lemma probabilities_unit (tcounts : list Z) (tdenom : Z) :
  Forall (Z.le 0) tcounts → Zsum tcounts = tdenom → 0 < tdenom →
  Forall (λ p, (0 <= p)%Q ∧ (p <= 1)%Q) (probabilities tcounts tdenom).
Proof.
  intros Hpos Hsum Hdenom. unfold probabilities.
  apply Forall_forall. intros p Hp.
  apply list_elem_of_fmap in Hp as (c & -> & Hc).
  apply list_elem_of_lookup in Hc as [i Hi].
  pose proof (Zsum_bound tcounts i c Hpos Hi) as Hc.
  assert (0 < inject_Z tdenom)%Q as Hd by (unfold Qlt; simpl; lia).
  split.
  - apply Qle_shift_div_l; [done |]. rewrite Qmult_0_l.
    unfold Qle. simpl. lia.
  - apply Qle_shift_div_r; [done |]. rewrite Qmult_1_l.
    unfold Qle. simpl. lia.
Qed.

(** X6. For dice of [S >= 2] faces with [S^5 <= INT_MAX],
    [create_prob_table] succeeds and every entry of its table is a
    probability: it lies between 0 and 1. *)
Theorem table_entries_unit (S : Z) :
  2 ≤ S → S ^ 5 ≤ INT_MAX →
  ∃ T, create_prob_table S = Ok (true, T)
       ∧ length (probstable T) = 6%nat
       ∧ Forall (Forall (λ p, (0 <= p)%Q ∧ (p <= 1)%Q)) (probstable T).
Proof.
  intros HS Hb.
  destruct (build_rows_spec S dice_configurations [] HS)
    as (rows & E & Hrows).
  { intros [na nd] Hcfg. split; [done |]. simpl.
    apply Z.le_trans with (S ^ 5); [| done].
    apply Z.pow_le_mono_r; [lia |].
    unfold dice_configurations in Hcfg.
    rewrite !elem_of_cons, elem_of_nil in Hcfg.
    destruct Hcfg as [[= -> ->] | [[= -> ->] | [[= -> ->] | [[= -> ->]
      | [[= -> ->] | [[= -> ->] | []]]]]]]; lia. }
  exists (Tables dice_configurations outcome_deltas rows).
  unfold create_prob_table. rewrite E. simpl. split; [done |].
  split; [by rewrite <- (Forall2_length _ _ _ Hrows) |].
  assert (Forall (λ cfg : Z * Z, 0 ≤ cfg.1 + cfg.2) dice_configurations)
    as Hexp by (repeat constructor; simpl; lia).
  clear E. revert Hexp Hrows. generalize dice_configurations as cfgs.
  intros cfgs Hexp Hrows.
  induction Hrows as [| cfg row cfgs rows Hrow Hrows IH]; [constructor |].
  apply Forall_cons in Hexp as [Hcfg Hexp].
  constructor; [| by apply IH].
  destruct Hrow as (tcounts & _ & _ & Hpos & Hsum & ->).
  apply probabilities_unit; [done | done |].
  apply Z.pow_pos_nonneg; lia.
Qed.

Lemma table_entries_unit_witness :
  ∃ T, create_prob_table 6 = Ok (true, T)
       ∧ length (probstable T) = 6%nat
       ∧ Forall (Forall (λ p, (0 <= p)%Q ∧ (p <= 1)%Q)) (probstable T).
Proof.
  apply (table_entries_unit 6); [lia | unfold INT_MAX; lia].
Defined.

(** ** Values of the grid *)

Lemma solution_recurrence (A D : Z) (P1 : list Q) :
  solution A D P1 →
  (∀ a d, a = 0 ∨ a = 1 → 0 ≤ d ≤ D → (value A P1 a d == 0)%Q)
  ∧ (∀ a d, 2 ≤ a ≤ A → d = 0 → (value A P1 a d == 1)%Q)
  ∧ (∀ a d, interior A D a d →
       (value A P1 a d
        == expected (value A P1) (row6 a d) outcome_deltas a d)%Q).
Proof.
  intros (_ & [Hz Ho] & Hsol). split; [| split].
  - intros a d [-> | ->] Hd; destruct (Hz d Hd) as [H0 H1].
    + by rewrite (value_cell _ _ _ _ _ H0).
    + by rewrite (value_cell _ _ _ _ _ H1).
  - intros a d Ha ->. by rewrite (value_cell _ _ _ _ _ (Ho a Ha)).
  - intros a d Hi. destruct (Hsol a d Hi) as (v & Hv & _ & Hve).
    by rewrite (value_cell _ _ _ _ _ Hv).
Qed.

(** X7. Every entry of the grid that the program prints is a
    probability: it lies between 0 and 1. *)
Theorem grid_entries_unit fuel rolls argc arg1 arg2 arg3
    (rows : list (list Q)) :
  main fuel rolls argc arg1 arg2 arg3 = Ok (Grid rows) →
  ∀ a d, 0 ≤ a ≤ wrap arg1 → 0 ≤ d ≤ wrap arg2 →
         (0 <= entry rows a d)%Q ∧ (entry rows a d <= 1)%Q.
Proof.
  intros E a d Ha Hd.
  apply main_grid_solution in E
    as (HA & HD & Hfit & _ & P & P0 & P1 & _ & _ & _ & _ & Hsol & ->).
  set (A := wrap arg1) in *. set (D := wrap arg2) in *.
  pose proof (A_int A D ltac:(lia) HD Hfit) as HAi.
  destruct (solution_recurrence A D P1 Hsol) as (Hzero & Hone & Hrec).
  rewrite entry_rows_of by done.
  destruct (monotone A D (value A P1) HAi Hzero Hone Hrec a d) as (H0 & H1 & _);
    done.
Qed.

Lemma grid_entries_unit_witness :
  (0 <= entry grid_3_2 3 2)%Q ∧ (entry grid_3_2 3 2 <= 1)%Q.
Proof.
  apply (grid_entries_unit 2 (λ _ _, 1) 3 3 2 0 grid_3_2);
    [vm_compute; reflexivity | change (wrap 3) with 3; lia
    | change (wrap 2) with 2; lia].
Defined.

Lemma power_step (q : Q) (n : Z) :
  ¬ (q == 0)%Q → 0 ≤ n → (q ^ (n + 1) == q * q ^ n)%Q.
Proof.
  intros Hq Hn. rewrite Qpower_plus by done. rewrite Qpower_1_r. ring.
Qed.

(** X8. An attacker with two units throws one die per round and has to
    win every round: for every [d] in [[1, D]] the printed entry
    [(2, d)] is [15/36 * (55/216)^(d - 1)]. *)
Theorem two_units_closed_form fuel rolls argc arg1 arg2 arg3
    (rows : list (list Q)) :
  main fuel rolls argc arg1 arg2 arg3 = Ok (Grid rows) →
  ∀ d, 1 ≤ d ≤ wrap arg2 →
       (entry rows 2 d == (15 # 36) * (55 # 216) ^ (d - 1))%Q.
Proof.
  intros E.
  apply main_grid_solution in E
    as (HA & HD & Hfit & _ & P & P0 & P1 & _ & _ & _ & _ & Hsol & ->).
  set (A := wrap arg1) in *. set (D := wrap arg2) in *.
  pose proof (A_int A D ltac:(lia) HD Hfit) as HAi.
  destruct (solution_recurrence A D P1 Hsol) as (Hzero & Hone & Hrec).
  assert (∀ n : nat, Z.of_nat n + 1 ≤ D →
            (value A P1 2 (Z.of_nat n + 1)
             == (15 # 36) * (55 # 216) ^ (Z.of_nat n))%Q) as Hind.
  { induction n as [| n IH]; intros Hn.
    - destruct (recurrence A D (value A P1) HAi Hrec 2 1 1 0 0 (-1))
        as (R & _); [unfold interior; lia | lia .. |].
      specialize (R ltac:(lia)).
      pose proof (Hzero 1 1 ltac:(lia) ltac:(lia)) as H1.
      pose proof (Hone 2 0 ltac:(lia) ltac:(lia)) as H2.
      change (Z.of_nat 0 + 1) with 1. change (Z.of_nat 0) with 0.
      rewrite R, H1, H2. reflexivity.
    - destruct (recurrence A D (value A P1) HAi Hrec 2 (Z.of_nat (S n) + 1)
                  1 0 (Z.of_nat n + 1) (Z.of_nat n))
        as (_ & _ & _ & R & _); [unfold interior; lia | lia .. |].
      specialize (R ltac:(lia)).
      pose proof (Hzero 1 (Z.of_nat (S n) + 1) ltac:(lia) ltac:(lia)) as H1.
      rewrite R, H1, IH by lia.
      replace (Z.of_nat (S n)) with (Z.of_nat n + 1) by lia.
      rewrite power_step by (done || lia). ring. }
  intros d Hd. rewrite entry_rows_of by (unfold on_grid; lia).
  specialize (Hind (Z.to_nat (d - 1)) ltac:(lia)).
  replace (Z.of_nat (Z.to_nat (d - 1)) + 1) with d in Hind by lia.
  replace (Z.of_nat (Z.to_nat (d - 1))) with (d - 1) in Hind by lia.
  done.
Qed.

Lemma two_units_closed_form_witness :
  (entry grid_3_2 2 2 == (15 # 36) * (55 # 216) ^ (2 - 1))%Q.
Proof.
  apply (two_units_closed_form 2 (λ _ _, 1) 3 3 2 0 grid_3_2);
    [vm_compute; reflexivity | change (wrap 2) with 2; lia].
Defined.

(** X9. Against a single defender the attacker loses only by losing
    every round down to one unit: for every [a] in [[3, A]] the printed
    entry [(a, 1)] is [1 - 21/36 * 91/216 * (441/1296)^(a - 3)]. *)
Theorem one_defender_closed_form fuel rolls argc arg1 arg2 arg3
    (rows : list (list Q)) :
  main fuel rolls argc arg1 arg2 arg3 = Ok (Grid rows) →
  ∀ a, 3 ≤ a ≤ wrap arg1 →
       (entry rows a 1
        == 1 - (21 # 36) * (91 # 216) * (441 # 1296) ^ (a - 3))%Q.
Proof.
  intros E.
  apply main_grid_solution in E
    as (HA & HD & Hfit & _ & P & P0 & P1 & _ & _ & _ & _ & Hsol & ->).
  set (A := wrap arg1) in *. set (D := wrap arg2) in *.
  pose proof (A_int A D ltac:(lia) HD Hfit) as HAi.
  destruct (solution_recurrence A D P1 Hsol) as (Hzero & Hone & Hrec).
  assert (∀ n : nat, Z.of_nat n + 3 ≤ A →
            (value A P1 (Z.of_nat n + 3) 1
             == 1 - (21 # 36) * (91 # 216) * (441 # 1296) ^ (Z.of_nat n))%Q)
    as Hind.
  { induction n as [| n IH]; intros Hn.
    - destruct (recurrence A D (value A P1) HAi Hrec 2 1 1 0 0 (-1))
        as (R2 & _); [unfold interior; lia | lia .. |].
      specialize (R2 ltac:(lia)).
      destruct (recurrence A D (value A P1) HAi Hrec 3 1 2 1 0 (-1))
        as (_ & R3 & _); [unfold interior; lia | lia .. |].
      specialize (R3 ltac:(lia)).
      pose proof (Hzero 1 1 ltac:(lia) ltac:(lia)) as H1.
      pose proof (Hone 2 0 ltac:(lia) ltac:(lia)) as H2.
      pose proof (Hone 3 0 ltac:(lia) ltac:(lia)) as H3.
      change (Z.of_nat 0 + 3) with 3. change (Z.of_nat 0) with 0.
      rewrite R3, R2, H1, H2, H3. reflexivity.
    - destruct (recurrence A D (value A P1) HAi Hrec (Z.of_nat (S n) + 3) 1
                  (Z.of_nat n + 3) (Z.of_nat n + 2) 0 (-1))
        as (_ & _ & R & _); [unfold interior; lia | lia .. |].
      specialize (R ltac:(lia)).
      pose proof (Hone (Z.of_nat (S n) + 3) 0 ltac:(lia) ltac:(lia)) as H1.
      rewrite R, H1, IH by lia.
      replace (Z.of_nat (S n)) with (Z.of_nat n + 1) by lia.
      rewrite power_step by (done || lia). ring. }
  intros a Ha. rewrite entry_rows_of by (unfold on_grid; lia).
  specialize (Hind (Z.to_nat (a - 3)) ltac:(lia)).
  replace (Z.of_nat (Z.to_nat (a - 3)) + 3) with a in Hind by lia.
  replace (Z.of_nat (Z.to_nat (a - 3))) with (a - 3) in Hind by lia.
  done.
Qed.

Lemma one_defender_closed_form_witness :
  (entry grid_3_2 3 1
   == 1 - (21 # 36) * (91 # 216) * (441 # 1296) ^ (3 - 3))%Q.
Proof.
  apply (one_defender_closed_form 2 (λ _ _, 1) 3 3 2 0 grid_3_2);
    [vm_compute; reflexivity | change (wrap 3) with 3; lia].
Defined.

Lemma expected_proper (g g' : Z → Z → Q) row deltas (a d : Z) :
  (∀ pd, pd ∈ needed row deltas →
         Qeq (g (a + pd.2.1) (d + pd.2.2)) (g' (a + pd.2.1) (d + pd.2.2))) →
  (expected g row deltas a d == expected g' row deltas a d)%Q.
Proof.
  unfold expected. induction (needed row deltas) as [| pd l IH]; intros H.
  - reflexivity.
  - simpl. rewrite IH by (intros pd' ?; apply H; by right).
    rewrite (H pd) by left. reflexivity.
Qed.

Lemma delta_sum (delta : Z * Z) :
  delta ∈ outcome_deltas → delta.1 + delta.2 < 0.
Proof.
  unfold outcome_deltas. rewrite !elem_of_cons, elem_of_nil.
  intros [-> | [-> | [-> | [-> | [-> | []]]]]]; simpl; lia.
Qed.

Section Unique.

Variables A D : Z.
Variables g g' : Z → Z → Q.
Hypothesis HA : 1 ≤ A ≤ INT_MAX.
Hypothesis Hzero : ∀ a d, a = 0 ∨ a = 1 → 0 ≤ d ≤ D → (g a d == 0)%Q.
Hypothesis Hone : ∀ a d, 2 ≤ a ≤ A → d = 0 → (g a d == 1)%Q.
Hypothesis Hrec : ∀ a d, interior A D a d →
(g a d == expected g (row6 a d) outcome_deltas a d)%Q.
Hypothesis Hzero' : ∀ a d, a = 0 ∨ a = 1 → 0 ≤ d ≤ D → (g' a d == 0)%Q.
Hypothesis Hone' : ∀ a d, 2 ≤ a ≤ A → d = 0 → (g' a d == 1)%Q.
Hypothesis Hrec' : ∀ a d, interior A D a d →
(g' a d == expected g' (row6 a d) outcome_deltas a d)%Q.

Lemma solutions_agree_below (n : nat) :
∀ a d, on_grid A D a d → a + d < Z.of_nat n → (g a d == g' a d)%Q.
Proof using HA Hzero Hone Hrec Hzero' Hone' Hrec'.
induction n as [| n IH]; intros a d [Ha Hd] Hn; [lia |].
destruct (decide (a ≤ 1)) as [Hle | Hgt].
- rewrite Hzero, Hzero' by lia. reflexivity.
- destruct (decide (d = 0)) as [-> | Hne].
  + rewrite Hone, Hone' by lia. reflexivity.
  + assert (interior A D a d) as Hi by (unfold interior; lia).
    rewrite (Hrec a d Hi), (Hrec' a d Hi).
    apply expected_proper. intros [p delta] [Hin Hnz]%needed_zip.
    destruct (row6_spec A D a d ltac:(lia) ltac:(lia) ltac:(lia))
      as (_ & _ & Hsafe & _).
    pose proof (Hsafe _ Hin Hnz) as Hg.
    apply elem_of_zip_r, delta_sum in Hin. simpl in *.
    apply IH; [done | lia].
Qed.

Lemma solutions_agree (a d : Z) : on_grid A D a d → (g a d == g' a d)%Q.
Proof using HA Hzero Hone Hrec Hzero' Hone' Hrec'.
intros Hg. apply (solutions_agree_below (Z.to_nat (a + d + 1))); [done |].
destruct Hg. lia.
Qed.

End Unique.

(** X10. The printed grid is the only solution of the recurrence: any
    function on the states that is 0 for [a <= 1], 1 for [a >= 2] and
    [d = 0], and at every interior state the sum over the outcomes of
    nonzero probability of the probability times its value at the
    target, agrees with the printed entries on the whole grid. *)
Theorem grid_unique fuel rolls argc arg1 arg2 arg3 (rows : list (list Q))
    (g : Z → Z → Q) :
  main fuel rolls argc arg1 arg2 arg3 = Ok (Grid rows) →
  let A := wrap arg1 in
  let D := wrap arg2 in
  (∀ a d, a = 0 ∨ a = 1 → 0 ≤ d ≤ D → (g a d == 0)%Q) →
  (∀ a d, 2 ≤ a ≤ A → d = 0 → (g a d == 1)%Q) →
  (∀ a d, 2 ≤ a ≤ A → 1 ≤ d ≤ D →
     (g a d == expected g (row6 a d) (transitions risk_tables) a d)%Q) →
  ∀ a d, 0 ≤ a ≤ A → 0 ≤ d ≤ D → (entry rows a d == g a d)%Q.
Proof.
  intros E A D Hzero Hone Hrec a d Ha Hd.
  apply main_grid_solution in E
    as (HA & HD & Hfit & _ & P & P0 & P1 & _ & _ & _ & _ & Hsol & ->).
  fold A D in HA, HD, Hfit, Hsol |- *.
  pose proof (A_int A D ltac:(lia) HD Hfit) as HAi.
  destruct (solution_recurrence A D P1 Hsol) as (Hzero1 & Hone1 & Hrec1).
  rewrite entry_rows_of by done.
  apply (solutions_agree A D (value A P1) g); try done; [lia |].
  intros a' d' [Ha' Hd']. by apply Hrec.
Qed.

Lemma grid_unique_witness :
  (entry grid_3_2 3 2 == reference_3_2 3 2)%Q.
Proof.
  assert (main 2 (λ _ _, 1) 3 3 2 0 = Ok (Grid grid_3_2)) as E
    by (vm_compute; reflexivity).
  apply (grid_unique 2 (λ _ _, 1) 3 3 2 0 grid_3_2 reference_3_2 E);
    change (wrap 3) with 3; change (wrap 2) with 2.
  - intros a d [-> | ->] Hd; reflexivity.
  - intros a d Ha ->.
    assert (a = 2 ∨ a = 3) as [-> | ->] by lia; reflexivity.
  - intros a d Ha Hd.
    assert (a = 2 ∨ a = 3) as [-> | ->] by lia;
      assert (d = 1 ∨ d = 2) as [-> | ->] by lia; vm_compute; reflexivity.
  - lia.
  - lia.
Defined.

(** ** The simulator *)

Lemma battle_loop_outcome (rolls : nat → Z) (fuel : nat) :
  ∀ (pos : nat) (a d : Z),
    1 ≤ a ≤ INT_MAX → 0 ≤ d ≤ INT_MAX → 2 ≤ a ∨ 1 ≤ d →
    (Z.to_nat (a + d) ≤ fuel)%nat →
    ∃ a' d', battle_loop fuel rolls pos (a, d) = Ok (a', d')
             ∧ ((d' = 0 ∧ 2 ≤ a' ≤ a) ∨ (a' = 1 ∧ 1 ≤ d' ≤ d)).
Proof.
  induction fuel as [| fuel IH]; intros pos a d Ha Hd Hne Hf; [lia |].
  simpl. destruct (Z.gtb_spec a 1) as [Ga | Ga], (Z.gtb_spec d 0) as [Gd | Gd];
    simpl; try (exists a, d; split; [done | lia]).
  destruct (battle_round_spec rolls pos a d) as (a1 & d1 & -> & Hr); [lia .. |].
  simpl in Hr.
  assert (attacker_dice a = Z.max (Z.min (a - 1) 3) 0) as Ena
    by (apply attacker_dice_spec; unfold INT_MIN; lia).
  pose proof (defender_dice_spec d) as End.
  simpl.
  destruct (IH (pos + Z.to_nat (attacker_dice a)
                + Z.to_nat (defender_dice d))%nat a1 d1)
    as (a' & d' & E & H'); [lia .. |].
  exists a', d'. split; [done | lia].
Qed.

(** X11. A battle from [A >= 2] attackers and [D >= 1] defenders
    eliminates exactly one side: the loop ends either with no defender
    and at least two attackers, and the result is 1, or with a single
    attacker and at least one defender, and the result is 0. The state
    with one attacker and no defender is never reached, and neither
    side ends with more units than it started with. *)
Theorem battle_eliminates_one_side (rolls : nat → Z) (fuel : nat) (A D : Z) :
  2 ≤ A ≤ INT_MAX → 1 ≤ D ≤ INT_MAX → (Z.to_nat (A + D) ≤ fuel)%nat →
  ∃ a' d',
    battle_loop fuel rolls 0 (A, D) = Ok (a', d')
    ∧ ((d' = 0 ∧ 2 ≤ a' ≤ A ∧ simulate_battle fuel rolls A D = Ok 1)
       ∨ (a' = 1 ∧ 1 ≤ d' ≤ D ∧ simulate_battle fuel rolls A D = Ok 0)).
Proof.
  intros HA HD Hf.
  destruct (battle_loop_outcome rolls fuel 0 A D) as (a' & d' & E & H);
    [lia .. |].
  exists a', d'. split; [done |]. unfold simulate_battle. rewrite E. simpl.
  destruct H as [(-> & H) | (-> & H)]; [left | right].
  - done.
  - destruct (Z.eqb_spec d' 0); [lia | done].
Qed.

Lemma battle_eliminates_one_side_witness :
  ∃ a' d',
    battle_loop 9 (λ n, Z.of_nat (n mod 6) + 1) 0 (5, 4) = Ok (a', d')
    ∧ ((d' = 0 ∧ 2 ≤ a' ≤ 5
        ∧ simulate_battle 9 (λ n, Z.of_nat (n mod 6) + 1) 5 4 = Ok 1)
       ∨ (a' = 1 ∧ 1 ≤ d' ≤ 4
          ∧ simulate_battle 9 (λ n, Z.of_nat (n mod 6) + 1) 5 4 = Ok 0)).
Proof.
  apply (battle_eliminates_one_side (λ n, Z.of_nat (n mod 6) + 1) 9 5 4);
    unfold INT_MAX; lia.
Defined.

Lemma simulate_battle_bit (rolls : nat → Z) (fuel : nat) (A D : Z) :
  2 ≤ A ≤ INT_MAX → 1 ≤ D ≤ INT_MAX → (Z.to_nat (A + D) ≤ fuel)%nat →
  ∃ r, simulate_battle fuel rolls A D = Ok r ∧ (r = 0 ∨ r = 1).
Proof.
  intros HA HD Hf.
  destruct (battle_loop_outcome rolls fuel 0 A D) as (a' & d' & E & H);
    [lia .. |].
  unfold simulate_battle. rewrite E. simpl.
  destruct (d' =? 0); eauto.
Qed.

(** X12. In simulation mode, for [A >= 2], [D >= 1] and [N >= 1] samples,
    the program prints the fraction [wins / N] where [wins], the number
    of battles won, lies between 0 and [N]; the fraction lies between 0
    and 1 and the program returns 0. *)
Theorem simulation_fraction (fuel : nat) (rolls : Z → nat → Z) (A D N : Z) :
  2 ≤ A ≤ INT_MAX → 1 ≤ D ≤ INT_MAX → 1 ≤ N ≤ INT_MAX →
  (Z.to_nat (A + D) ≤ fuel)%nat →
  ∃ wins,
    0 ≤ wins ≤ N
    ∧ main fuel rolls 4 A D N
      = Ok (Fraction (inject_Z wins / inject_Z N)%Q)
    ∧ (0 <= inject_Z wins / inject_Z N)%Q
    ∧ (inject_Z wins / inject_Z N <= 1)%Q
    ∧ exit_status (Fraction (inject_Z wins / inject_Z N)%Q) = 0.
Proof.
  intros HA HD HN Hf.
  destruct (for_range_inv (λ i wins, 0 ≤ wins ≤ i) 0 (N - 1)
              (λ i num_atk_wins,
                 atk_win ← simulate_battle fuel (rolls i) A D;
                 Ok (add num_atk_wins atk_win)) 0)
    as (wins & E & Hwins); [lia | lia | |].
  { intros i wins Hi Hw.
    destruct (simulate_battle_bit (rolls i) fuel A D HA HD Hf) as (r & -> & Hr).
    simpl. eexists. split; [done |].
    rewrite add_small by (unfold in_range, INT_MIN, INT_MAX in *; lia). lia. }
  exists wins. split; [lia |].
  assert (0 < inject_Z N)%Q as HNq by (unfold Qlt; simpl; lia).
  split; [| split; [| split]].
  - unfold main. simpl.
    rewrite !wrap_id by (unfold in_range, INT_MIN, INT_MAX in *; lia).
    destruct (Z.ltb_spec A 2); [lia |]. destruct (Z.ltb_spec D 1); [lia |].
    simpl. rewrite Z.geb_leb. destruct (Z.leb_spec 1 N); [| lia].
    unfold simulation_mode. by rewrite E.
  - apply Qle_shift_div_l; [done |]. rewrite Qmult_0_l.
    unfold Qle. simpl. lia.
  - apply Qle_shift_div_r; [done |]. rewrite Qmult_1_l.
    unfold Qle. simpl. lia.
  - done.
Qed.

Lemma simulation_fraction_witness :
  ∃ wins,
    0 ≤ wins ≤ 7
    ∧ main 5 (λ _ n, Z.of_nat (n mod 6) + 1) 4 3 2 7
      = Ok (Fraction (inject_Z wins / inject_Z 7)%Q)
    ∧ (0 <= inject_Z wins / inject_Z 7)%Q
    ∧ (inject_Z wins / inject_Z 7 <= 1)%Q
    ∧ exit_status (Fraction (inject_Z wins / inject_Z 7)%Q) = 0.
Proof.
  apply (simulation_fraction 5 (λ _ n, Z.of_nat (n mod 6) + 1) 3 2 7);
    unfold INT_MAX; lia.
Defined.

(** ** The passes and their count *)

Section Count.

Variables A D : Z.
Hypothesis HA : 1 ≤ A.
Hypothesis HD : 1 ≤ D.
Hypothesis Hfit : grid_size A D ≤ INT_MAX.

Variable P : list Q.
Hypothesis HP : Z.of_nat (length P) = grid_size A D.

(** The state of a pass on arriving at the cell [(a, d)]: the count of
  the cells it determined, and the grid unchanged as long as it is 0. *)
Lemma pass_counts :
∃ st', update_elements A D P unused_value (dicetuples risk_tables)
         (transitions risk_tables) (probstable risk_tables) = Ok st'
  ∧ 0 ≤ st'.2 ≤ A * D
  ∧ (st'.2 = 0 → st'.1 = P)
  ∧ (0 < st'.2 →
     ∃ a d, on_grid A D a d ∧ undetermined A P a d
            ∧ determined A st'.1 a d).
Proof using HA HD Hfit HP.
rewrite update_elements_visits.
destruct (pass_inv A D
  (λ a d st,
     Z.of_nat (length st.1) = grid_size A D
     ∧ 0 ≤ st.2 ≤ (a - 1) * D + (d - 1)
     ∧ (st.2 = 0 → st.1 = P)
     ∧ (∀ a' d', on_grid A D a' d' → determined A P a' d' →
                 cell A st.1 a' d' = cell A P a' d')
     ∧ (0 < st.2 →
        ∃ a' d', on_grid A D a' d' ∧ undetermined A P a' d'
                 ∧ determined A st.1 a' d')) (P, 0))
  as (st' & E & Hlen' & Hn & Hfix & _ & Hchg); [done | done | | | |].
- simpl. repeat split; try done; lia.
- intros a d [Pc n] Ha Hd (Hlen & Hn & Hfix & Hkeep & Hchg).
  simpl in Hlen, Hn, Hfix, Hkeep, Hchg.
  destruct (visit_effect A D HA HD Hfit Pc n a d Hlen Ha Hd)
    as (st' & E & [-> | (v & -> & Hun & Hv & _)]).
  + eexists. split; [done |]. simpl. repeat split; try done; lia.
  + eexists. split; [done |]. simpl. rewrite length_insert.
    assert (on_grid A D a d) as Hg by (unfold on_grid; lia).
    assert (add n 1 = n + 1) as ->.
    { unfold grid_size in Hfit.
      apply add_small. unfold in_range, INT_MIN, INT_MAX in *. nia. }
    assert (∀ a' d', on_grid A D a' d' → determined A P a' d' →
              (a', d') ≠ (a, d)) as Hother.
    { intros a' d' Hg' Hdet [= -> ->]. destruct Hun as (x & Hx & Ex).
      rewrite (Hkeep _ _ Hg' Hdet) in Hx.
      destruct Hdet as (y & Hy & Ey). congruence. }
    split; [done |]. split; [lia |]. split; [lia |]. split.
    * intros a' d' Hg' Hdet.
      rewrite (cell_insert_ne A D); [by apply Hkeep | lia | lia | done | done |].
      by apply Hother.
    * intros _. destruct (decide (n = 0)) as [-> | Hpos].
      -- exists a, d. split; [done |]. rewrite <- (Hfix eq_refl).
         split; [done |]. exists v.
         split; [apply (cell_insert_eq A D); done || lia |].
         by apply nonneg_not_sentinel.
      -- destruct Hchg as (a' & d' & Hg' & Hun' & Hdet'); [lia |].
         exists a', d'. split; [done |]. split; [done |].
         destruct Hdet' as (y & Hy & Ey). exists y. split; [| done].
         rewrite (cell_insert_ne A D); [done | lia | lia | done | done |].
         intros [= -> ->]. destruct Hun as (x & Hx & Ex). congruence.
- intros a [Pc n] Ha (Hlen & Hn & H). simpl in *.
  split; [done |]. split; [nia | done].
- exists st'. split; [done |]. split; [nia |]. done.
Qed.

End Count.

(** X13. On a grid of the allocated size, the number that
    [update_elements] returns lies between 0 and [A * D], and it is 0
    exactly when the pass left the grid as it was: a pass that returns a
    positive number determined an entry that was undetermined. *)
Theorem pass_count_zero (A D : Z) (P : list Q) :
  1 ≤ A → 1 ≤ D → grid_size A D ≤ INT_MAX →
  Z.of_nat (length P) = grid_size A D →
  ∃ P' num_updated,
    update_elements A D P unused_value (dicetuples risk_tables)
      (transitions risk_tables) (probstable risk_tables)
    = Ok (P', num_updated)
    ∧ 0 ≤ num_updated ≤ A * D
    ∧ (num_updated = 0 ↔ P' = P).
Proof.
  intros HA HD Hfit HP.
  destruct (pass_counts A D HA HD Hfit P HP)
    as ([P' n] & E & Hn & Hfix & Hchg). simpl in *.
  exists P', n. split; [done |]. split; [done |]. split; [done |].
  intros ->. destruct (decide (n = 0)) as [-> | Hne]; [done |].
  destruct Hchg as (a & d & _ & (x & Hx & Ex) & (y & Hy & Ey)); [lia |].
  congruence.
Qed.

Lemma pass_count_zero_witness :
  ∃ P' num_updated,
    update_elements 2 1 [0; 0; 1; 0; 0; -1]%Q unused_value
      (dicetuples risk_tables) (transitions risk_tables)
      (probstable risk_tables)
    = Ok (P', num_updated)
    ∧ 0 ≤ num_updated ≤ 2 * 1
    ∧ (num_updated = 0 ↔ P' = [0; 0; 1; 0; 0; -1]%Q).
Proof.
  apply (pass_count_zero 2 1 [0; 0; 1; 0; 0; -1]%Q);
    [lia | lia | vm_compute; discriminate | reflexivity].
Defined.

(** X14. A pass over a grid whose entries for [a] in [[1, A]] and [d] in
    [[1, D]] are all determined returns 0 and leaves the grid as it is;
    the passes then stop at once, with the totals they had. *)
Theorem pass_over_determined (A D : Z) (P : list Q) (fuel : nat)
    (elems_total passes : Z) :
  1 ≤ A → 1 ≤ D → grid_size A D ≤ INT_MAX →
  Z.of_nat (length P) = grid_size A D →
  (∀ a d, 1 ≤ a ≤ A → 1 ≤ d ≤ D → determined A P a d) →
  update_elements A D P unused_value (dicetuples risk_tables)
    (transitions risk_tables) (probstable risk_tables) = Ok (P, 0)
  ∧ relax (S fuel) A D P risk_tables elems_total passes
    = Ok (P, elems_total, add passes 1).
Proof.
  intros HA HD Hfit HP Hdet.
  assert (update_elements A D P unused_value (dicetuples risk_tables)
            (transitions risk_tables) (probstable risk_tables) = Ok (P, 0))
    as E.
  { rewrite update_elements_visits.
    destruct (pass_inv A D (λ _ _ st, st = (P, 0)) (P, 0))
      as (st' & E & ->); [done | done | done | | done | done].
    intros a d st Ha Hd ->. exists (P, 0). split; [| done].
    apply (visit_determined A D HA HD Hfit); auto. }
  split; [done |]. cbn [relax]. rewrite E. done.
Qed.

Lemma pass_over_determined_witness :
  update_elements 2 1 [0; 0; 1; 0; 0; 15 # 36]%Q unused_value
    (dicetuples risk_tables) (transitions risk_tables)
    (probstable risk_tables) = Ok ([0; 0; 1; 0; 0; 15 # 36]%Q, 0).
Proof.
  apply (pass_over_determined 2 1 [0; 0; 1; 0; 0; 15 # 36]%Q 0 0 0);
    [lia | lia | vm_compute; discriminate | reflexivity |].
  intros a d Ha Hd. assert (d = 1) as -> by lia.
  assert (a = 1 ∨ a = 2) as [-> | ->] by lia; eexists; split; reflexivity.
Defined.

(** ** What the program never prints *)

Lemma dp_mode_outputs (fuel : nat) (A D : Z) (o : output) :
  2 ≤ A → 1 ≤ D → dp_mode fuel A D = Ok o →
  grid_size A D ≤ INT_MAX ∧ ∃ rows, o = Grid rows.
Proof.
  intros HA HD E.
  destruct (Z.le_gt_cases (grid_size A D) INT_MAX) as [Hfit | Hbig].
  - split; [done |].
    destruct (dp_mode_spec A D HA HD Hfit) as (_ & _ & P1 & _ & _ & _ & _ & _
                                               & _ & _ & Edp).
    rewrite Edp in E. destruct (fuel <? 2)%nat; [done |].
    injection E as <-. eauto.
  - unfold dp_mode in E. apply bind_ok in E as (P & EP & _).
    apply sentinel_grid_overflow in EP; (done || lia).
Qed.

(** X15. The program never reports a failure of the table or of the
    solver: whatever its arguments, what it prints is its usage, the
    required ranges, a fraction or a grid. *)
Theorem no_internal_failure (fuel : nat) (rolls : Z → nat → Z)
    (argc arg1 arg2 arg3 : Z) (o : output) :
  main fuel rolls argc arg1 arg2 arg3 = Ok o →
  o ≠ TableFailed ∧ (∀ passes, o ≠ DPFailed passes)
  ∧ (o = Usage ∨ o = Requiring ∨ (∃ f, o = Fraction f) ∨ ∃ rows, o = Grid rows).
Proof.
  intros E.
  assert (o = Usage ∨ o = Requiring ∨ (∃ f, o = Fraction f)
          ∨ ∃ rows, o = Grid rows) as H.
  { unfold main in E.
    destruct (negb (argc =? 3) && negb (argc =? 4));
      [injection E as <-; by left |].
    destruct (Z.ltb_spec (wrap arg1) 2);
      [injection E as <-; right; by left |].
    destruct (Z.ltb_spec (wrap arg2) 1);
      [injection E as <-; right; by left |].
    cbn [orb] in E. destruct (_ >=? 1).
    - unfold simulation_mode in E. apply bind_ok in E as (n & _ & [= <-]).
      right; right; left. eauto.
    - apply dp_mode_outputs in E as [_ Hrows]; [| lia ..].
      by do 3 right. }
  split; [| split; [| done]].
  - destruct H as [-> | [-> | [[f ->] | [rows ->]]]]; done.
  - intros passes. destruct H as [-> | [-> | [[f ->] | [rows ->]]]]; done.
Qed.

Lemma no_internal_failure_witness :
  Grid grid_3_2 ≠ TableFailed ∧ (∀ passes, Grid grid_3_2 ≠ DPFailed passes).
Proof.
  destruct (no_internal_failure 2 (λ _ _, 1) 3 3 2 0 (Grid grid_3_2))
    as (H1 & H2 & _); [vm_compute; reflexivity | done].
Defined.

(** X16. A grid is printed only when it fits: if the program prints a
    grid then [A >= 2], [D >= 1], no simulation was requested and
    [(A + 1) * (D + 1) <= INT_MAX]; the grid has [A + 1] rows of
    [D + 1] entries. For larger [A] and [D] the program prints
    nothing. *)
Theorem grid_printed_only_if_fits (fuel : nat) (rolls : Z → nat → Z)
    (argc arg1 arg2 arg3 : Z) :
  let A := wrap arg1 in
  let D := wrap arg2 in
  (∀ rows, main fuel rolls argc arg1 arg2 arg3 = Ok (Grid rows) →
     2 ≤ A ∧ 1 ≤ D ∧ grid_size A D ≤ INT_MAX
     ∧ (argc = 3 ∨ (argc = 4 ∧ wrap arg3 < 1))
     ∧ Z.of_nat (length rows) = A + 1
     ∧ Forall (λ row, Z.of_nat (length row) = D + 1) rows)
  ∧ ((argc = 3 ∨ (argc = 4 ∧ wrap arg3 < 1)) →
     2 ≤ A → 1 ≤ D → INT_MAX < grid_size A D →
     ∀ o, main fuel rolls argc arg1 arg2 arg3 ≠ Ok o).
Proof.
  intros A D. split.
  - intros rows E. pose proof E as E'.
    apply main_grid_solution in E
      as (HA & HD & Hfit & _ & P & P0 & P1 & _ & _ & _ & _ & _ & ->).
    fold A D in HA, HD, Hfit |- *. repeat (split; [done |]). split; [| split].
    + unfold main in E'.
      destruct (Z.eqb_spec argc 3) as [-> | ?]; [by left |].
      destruct (Z.eqb_spec argc 4) as [-> | ?]; [| done].
      right. split; [done |]. simpl in E'.
      destruct (Z.ltb_spec (wrap arg1) 2); [done |].
      destruct (Z.ltb_spec (wrap arg2) 1); [done |]. simpl in E'.
      rewrite Z.geb_leb in E'. destruct (Z.leb_spec 1 (wrap arg3)); [| lia].
      by apply simulation_mode_not_grid in E'.
    + unfold rows_of. rewrite length_map, length_seqZ. lia.
    + unfold rows_of. apply Forall_forall. intros row Hrow.
      apply list_elem_of_fmap in Hrow as (a & -> & _).
      rewrite length_map, length_seqZ. lia.
  - intros Hargc HA HD Hbig o E.
    assert (main fuel rolls argc arg1 arg2 arg3 = dp_mode fuel A D) as Emain.
    { unfold main. fold A D.
      destruct Hargc as [-> | [-> HN]]; simpl;
        (destruct (Z.ltb_spec A 2); [lia |]);
        (destruct (Z.ltb_spec D 1); [lia |]); simpl; [done |].
      rewrite Z.geb_leb. destruct (Z.leb_spec 1 (wrap arg3)); [lia | done]. }
    rewrite Emain in E. apply dp_mode_outputs in E as [Hfit _]; lia.
Qed.

Lemma grid_printed_only_if_fits_witness :
  2 ≤ wrap 3 ∧ 1 ≤ wrap 2 ∧ grid_size (wrap 3) (wrap 2) ≤ INT_MAX
  ∧ (3 = 3 ∨ (3 = 4 ∧ wrap 0 < 1))
  ∧ Z.of_nat (length grid_3_2) = wrap 3 + 1
  ∧ Forall (λ row, Z.of_nat (length row) = wrap 2 + 1) grid_3_2.
Proof.
  destruct (grid_printed_only_if_fits 2 (λ _ _, 1) 3 3 2 0) as [H _].
  apply H. vm_compute. reflexivity.
Defined.

(** ** One die against one die *)

Lemma tally_vs_one_step (x p l w O : Z) :
  0 ≤ l → 0 ≤ w → 0 ≤ O < INT_MAX → l < INT_MAX → w < INT_MAX →
  tally_vs_one M5 x p ([0; 0; l; w; 0], O)
  = Ok ([0; 0; if x >? p then l else l + 1; if x >? p then w + 1 else w; 0],
        O + 1).
Proof.
  intros Hl Hw HO Hl' Hw'. unfold tally_vs_one, credit_if, credit. simpl.
  destruct (Z.gtb_spec x p), (Z.leb_spec x p); try lia;
    change (map_at M5 (0, -1)) with 3; change (map_at M5 (-1, 0)) with 2;
    simpl; rewrite !add_small
      by (unfold in_range, INT_MIN, INT_MAX in *; lia); reflexivity.
Qed.

Lemma enum_1_1_closed (S : Z) :
  1 ≤ S → S * S ≤ INT_MAX →
  ∃ wins losses,
    enum_1_1 M5 S ([0; 0; 0; 0; 0], 0) = Ok ([0; 0; losses; wins; 0], S * S)
    ∧ 2 * wins = S * (S - 1) ∧ 2 * losses = S * (S + 1).
Proof.
  intros HS Hb. unfold enum_1_1.
  destruct (for_range_inv
    (λ i (st : tally), ∃ l w, st = ([0; 0; l; w; 0], (i - 1) * S)
                              ∧ 2 * w = (i - 1) * (i - 2)
                              ∧ l + w = (i - 1) * S)
    1 S (λ i, for_range 1 S (λ p, tally_vs_one M5 i p)) ([0; 0; 0; 0; 0], 0))
    as (st & E & l & w & -> & Hw & Hl); [lia | | |].
  - exists 0, 0. split; [f_equal; lia | lia].
  - intros i st Hi (l & w & -> & Hw & Hl).
    assert (0 ≤ w) by nia. assert (0 ≤ l) by nia.
    assert ((i - 1) * S + S ≤ INT_MAX) as Hrow by nia.
    destruct (for_range_inv
      (λ p (st : tally),
         st = ([0; 0; l + Z.max 0 (p - i); w + Z.min (p - 1) (i - 1); 0],
               (i - 1) * S + (p - 1)))
      1 S (λ p, tally_vs_one M5 i p) ([0; 0; l; w; 0], (i - 1) * S))
      as (st & E & ->); [lia | | |].
    + f_equal; [repeat (f_equal; try lia) | lia].
    + intros p st Hp ->.
      rewrite tally_vs_one_step by (unfold INT_MAX in *; nia).
      eexists. split; [done |].
      destruct (Z.gtb_spec i p);
        (f_equal; [repeat (f_equal; try lia) | lia]).
    + eexists. split; [exact E |].
      exists (l + Z.max 0 (S + 1 - i)), (w + Z.min (S + 1 - 1) (i - 1)).
      split; [f_equal; lia |].
      rewrite Z.max_r, Z.min_r by lia. clear E Hb Hrow. split; lia.
  - exists w, l. split; [rewrite E; do 2 f_equal; lia |]. split; lia.
Qed.

(** X17. With one die each and [S >= 2] faces, [S * S <= INT_MAX], the
    enumeration counts [S * (S - 1) / 2] tuples for the attacker and
    [S * (S + 1) / 2] for the defender, the ties going to the defender:
    [calc_transitions] returns [S * S] and the counts
    [[0; 0; losses; wins; 0]] with [2 * wins = S * (S - 1)] and
    [2 * losses = S * (S + 1)]. *)
Theorem single_dice_counts (S : Z) (counts0 : list Z) :
  2 ≤ S → S * S ≤ INT_MAX →
  ∃ wins losses,
    calc_transitions outcome_deltas counts0 1 1 S
    = Ok (S * S, [0; 0; losses; wins; 0])
    ∧ 2 * wins = S * (S - 1) ∧ 2 * losses = S * (S + 1).
Proof.
  intros HS Hb. destruct (enum_1_1_closed S ltac:(lia) Hb)
    as (wins & losses & E & Hw & Hl).
  exists wins, losses. split; [| done].
  unfold calc_transitions. destruct (Z.ltb_spec S 2); [lia |].
  fold M5. cbn [Z.eqb Pos.eqb andb length outcome_deltas replicate].
  by rewrite E.
Qed.

Lemma single_dice_counts_witness :
  ∃ wins losses,
    calc_transitions outcome_deltas [] 1 1 6 = Ok (6 * 6, [0; 0; losses; wins; 0])
    ∧ 2 * wins = 6 * (6 - 1) ∧ 2 * losses = 6 * (6 + 1).
Proof.
  apply (single_dice_counts 6 []); unfold INT_MAX; lia.
Defined.

(** ** Ties *)

Lemma draw_constant (v : Z) (pos : nat) (n : Z) :
  draw (λ _, v) pos n = replicate (Z.to_nat n) v.
Proof.
  unfold draw. generalize (Z.to_nat n) as k. intros k. revert pos.
  induction k as [| k IH]; intros pos; simpl; [done |]. by rewrite IH.
Qed.

Lemma sort_desc_replicate (v : Z) (k : nat) :
  sort_desc (replicate k v) = replicate k v.
Proof.
  induction k as [| k IH]; simpl; [done |]. unfold sort_desc in *. simpl.
  rewrite IH. clear IH. induction k as [| k IH]; simpl; [done |].
  rewrite Z.ltb_irrefl. by rewrite IH.
Qed.

Lemma round_of_ties (v : Z) (pos : nat) (a d : Z) :
  2 ≤ a ≤ INT_MAX → 1 ≤ d ≤ INT_MAX →
  battle_round (λ _, v) pos (a, d)
  = Ok (a - Z.min (attacker_dice a) (defender_dice d), d)
  ∧ 1 ≤ Z.min (attacker_dice a) (defender_dice d) ≤ a - 1.
Proof.
  intros Ha Hd.
  assert (attacker_dice a = Z.max (Z.min (a - 1) 3) 0) as Ena
    by (apply attacker_dice_spec; unfold INT_MIN; lia).
  pose proof (defender_dice_spec d) as End.
  split; [| lia].
  unfold battle_round, resolve. cbn [fst snd].
  rewrite !draw_constant, !sort_desc_replicate.
  set (na := attacker_dice a) in *. set (nd := defender_dice d) in *.
  replace (if na >? nd then nd else na) with (Z.min na nd)
    by (destruct (Z.gtb_spec na nd); lia).
  destruct (for_range_inv (λ i (s : Z * Z), s = (a - i, d))
              0 (Z.min na nd - 1)
              (compare_at (replicate (Z.to_nat na) v) (replicate (Z.to_nat nd) v))
              (a, d)) as (s & E & ->); [lia | f_equal; lia | |].
  - intros i s Hi ->. unfold compare_at.
    rewrite (vec_at_lookup _ i v)
      by (lia || (apply lookup_replicate_2; lia)).
    cbn [mbind result_bind].
    rewrite (vec_at_lookup _ i v)
      by (lia || (apply lookup_replicate_2; lia)).
    cbn [mbind result_bind fst snd]. rewrite Z.gtb_ltb, Z.ltb_irrefl.
    rewrite sub_small by (unfold in_range, INT_MIN, INT_MAX in *; lia).
    eexists. split; [done |]. f_equal. lia.
  - rewrite E. f_equal. f_equal. lia.
Qed.

Lemma battle_of_ties (v : Z) (fuel : nat) :
  ∀ (pos : nat) (a d : Z),
    1 ≤ a ≤ INT_MAX → 1 ≤ d ≤ INT_MAX → (Z.to_nat a ≤ fuel)%nat →
    battle_loop fuel (λ _, v) pos (a, d) = Ok (1, d).
Proof.
  induction fuel as [| fuel IH]; intros pos a d Ha Hd Hf; [lia |].
  cbn [battle_loop fst snd].
  destruct (Z.gtb_spec a 1) as [Ga | Ga], (Z.gtb_spec d 0) as [Gd | Gd];
    cbn [andb]; try lia; [| do 2 f_equal; lia].
  destruct (round_of_ties v pos a d) as [-> Hn]; [lia | lia |].
  cbn [mbind result_bind]. apply IH; lia.
Qed.

(** X18. Ties go to the defender: when every die shows the same face,
    the defender loses no unit, the battle ends with one attacker against
    the [D] defenders it started with, and [simulate_battle] returns 0. *)
Theorem ties_favour_defender (v : Z) (fuel : nat) (A D : Z) :
  2 ≤ A ≤ INT_MAX → 1 ≤ D ≤ INT_MAX → (Z.to_nat A ≤ fuel)%nat →
  battle_loop fuel (λ _, v) 0 (A, D) = Ok (1, D)
  ∧ simulate_battle fuel (λ _, v) A D = Ok 0.
Proof.
  intros HA HD Hf. split.
  - apply battle_of_ties; lia.
  - unfold simulate_battle. rewrite battle_of_ties by lia. simpl.
    destruct (Z.eqb_spec D 0); [lia | done].
Qed.

Lemma ties_favour_defender_witness :
  battle_loop 5 (λ _, 4) 0 (5, 3) = Ok (1, 3)
  ∧ simulate_battle 5 (λ _, 4) 5 3 = Ok 0.
Proof.
  apply (ties_favour_defender 4 5 5 3); unfold INT_MAX; lia.
Defined.
